(** * go-audio-streaming: the per-connection streaming session

    A model of [handleWebSocket], [streamAudio] and [sendStatusMessage] of
    main.go as an interleaving of goroutines.  One connection is one
    [State]: the fields of the [Client] struct, the runtime's channels, the
    connection, the program counter of the receive loop and the list of the
    [streamAudio] goroutines spawned so far.  Every access to memory that is
    shared between goroutines is a step of its own, and a schedule picks the
    goroutine that takes the next step.

    Left out: the Prometheus metrics, [time.Sleep]'s duration, and the
    [Client] fields that only feed them ([startTime], [totalBytes],
    [clientIP], [audioFile]); none of them is read by the control flow.
    The log lines are kept, as events of the trace.

    Two more parts follow the session: the handler of /audios that [main]
    of main.go registers, as a function of the directory it lists, and
    [streamAudio] and [extractDurationFromFilename] of backend/main.go, in
    the module [Backend]. *)

From stdpp Require Import prelude strings gmap.
From Stdlib.Strings Require Import Byte.
Import (notations) Stdlib.Strings.Ascii.

Local Set Warnings "-abstract-large-number,-register-all".
Local Open Scope string_scope.
Local Open Scope list_scope.
Local Open Scope nat_scope.

(** ** Messages *)

(** [type Message struct]: a decoded control message. *)
Record Message := { Action : string; Filename : string }.

(** [type StatusMessage struct] ([Type] is a keyword of Rocq). *)
Record StatusMessage := { Type' : string; Data : string }.

(** A JSON value, as far as [json.Marshal] of a [StatusMessage] needs it. *)
Inductive JSON :=
| JString (s : string)
| JObject (members : list (string * JSON)).

(** [json.Marshal(msg)] for a [StatusMessage]: an object whose keys are the
    struct tags [json:"type"] and [json:"data"].  It never fails on a struct
    of two strings, so the error branch of [sendStatusMessage] is dead. *)
Definition Marshal (m : StatusMessage) : JSON :=
  JObject [("type", JString (Type' m)); ("data", JString (Data m))].

(** What [conn.ReadMessage] can return.  A text frame carries the outcome
    of [json.Unmarshal(p, &msg)] on its payload: [None] when [Unmarshal]
    returns an error, which it does on every payload that is not
    well-formed JSON. *)
Inductive Inbound :=
| InText (p : option Message)
| InBinary
| InError.

(** What [conn.WriteMessage] is given. *)
Inductive Frame :=
| TextMessage (data : JSON)
| BinaryMessage (data : list byte).

(** ** Goroutines, channels, events *)

Inductive Tid :=
| Handler
| Worker (i : nat).

Global Instance Tid_eq_dec : EqDecision Tid.
Proof. solve_decision. Defined.

Definition Chan := nat.

(** The calls of [log.Println] and [log.Printf] inside the receive loop and
    the worker, by the line of main.go. *)
Inductive LogLine :=
| LogReadMessage                          (* 156 "Error reading message:" *)
| LogUnmarshal                            (* 164 "Error unmarshaling message:" *)
| LogOpen                                 (* 232 "Error opening file:" *)
| LogStreamingFile (f : string) (n : nat) (* 242 "Streaming file: %s (size: %d bytes)" *)
| LogStopped (f : string)                 (* 251 "Streaming stopped for file: %s" *)
| LogFinished (f : string)                (* 256 "Finished streaming file: %s" *)
| LogReadFile                             (* 267 "Error reading file:" *)
| LogWrite                                (* 279 "Error writing to WebSocket:" *)
| LogSendStatus.                          (* 312 "Error sending status message:" *)

Inductive Event :=
| EvLock (t : Tid)                        (* client.mu.Lock() returned *)
| EvUnlock (t : Tid)                      (* client.mu.Unlock() *)
| EvWrite (t : Tid) (f : Frame) (ok : bool) (* conn.WriteMessage, ok: err == nil *)
| EvLog (t : Tid) (l : LogLine).

(** ** Program counters *)

(** Inside [sendStatusMessage], after [json.Marshal]. *)
Inductive SendPC :=
| SLock      (* 308 client.mu.Lock() *)
| SWrite     (* 311 client.conn.WriteMessage(websocket.TextMessage, data) *)
| SUnlock.   (* 309 the deferred client.mu.Unlock() *)

(** Inside [handleWebSocket]'s loop. *)
Inductive HandlerPC :=
| HRead                          (* 154 conn.ReadMessage .. 169 switch *)
| HNoFilename (p : SendPC)       (* 172 sendStatusMessage; continue *)
| HStartCheck (f : string)       (* 178 if client.streaming *)
| HStartLock (f : string)        (* 179 *)
| HStartClose (f : string)       (* 180 close(client.stopCh) *)
| HStartMake (f : string)        (* 181 client.stopCh = make(chan struct{}) *)
| HStartUnlock (f : string)      (* 182 *)
| HStartSet (f : string)         (* 189 client.streaming = true *)
| HSpawn (f : string)            (* 197 go streamAudio(client, msg.Filename) *)
| HStopCheck                     (* 200 if client.streaming *)
| HStopLock                      (* 201 *)
| HStopClose                     (* 202 *)
| HStopMake                      (* 203 *)
| HStopSet                       (* 204 client.streaming = false *)
| HStopUnlock                    (* 205 *)
| HStopped (p : SendPC)          (* 211 sendStatusMessage *)
| HClosed                        (* 158 break; 136 the deferred conn.Close() *)
| HPanic.                        (* close of a closed channel *)

(** Inside [streamAudio]. *)
Inductive WorkerPC :=
| WStat                          (* 222 os.Stat(filePath) *)
| WNotFound (p : SendPC)         (* 223 sendStatusMessage; 225 return *)
| WStarted (p : SendPC)          (* 228 sendStatusMessage *)
| WOpen                          (* 230 os.Open(filePath) *)
| WOpenErr (p : SendPC)          (* 233 sendStatusMessage; 235 return *)
| WSelect                        (* 250 the operand client.stopCh of the select *)
| WPoll (ch : Chan)              (* 250 the non-blocking receive *)
| WReadFile                      (* 254 file.Read(buffer) *)
| WFinished (p : SendPC)         (* 257 sendStatusMessage *)
| WFinishedSet                   (* 263 client.streaming = false; return *)
| WReadErr (p : SendPC)          (* 268 sendStatusMessage *)
| WReadErrSet                    (* 270 client.streaming = false; return *)
| WChunkLock (chunk : list byte) (* 274 *)
| WChunkWrite (chunk : list byte) (* 275 conn.WriteMessage(BinaryMessage, buffer[:n]) *)
| WChunkUnlock (err : bool)      (* 276 *)
| WWriteErrSet                   (* 281 client.streaming = false; return *)
| WSleep                         (* 290 time.Sleep *)
| WDone.                         (* returned *)

(** A [streamAudio] goroutine: its argument, where it is, and the bytes of
    the opened file it has not read yet. *)
Record WorkerState := {
  filename : string;
  wpc : WorkerPC;
  file : list byte
}.

(** ** State of one connection *)

Record State := {
  streaming : bool;           (* client.streaming *)
  stopCh : Chan;              (* client.stopCh *)
  mu : option Tid;            (* client.mu: who holds it *)
  closedCh : gset Chan;       (* the channels closed so far *)
  nextCh : Chan;              (* the next channel make returns *)
  inbound : list Inbound;     (* what conn.ReadMessage will return *)
  connClosed : bool;          (* conn.Close() was called *)
  trace : list Event;
  hpc : HandlerPC;
  workers : list WorkerState
}.

Definition set_streaming (b : bool) (s : State) : State :=
  {| streaming := b; stopCh := stopCh s; mu := mu s; closedCh := closedCh s;
     nextCh := nextCh s; inbound := inbound s; connClosed := connClosed s;
     trace := trace s; hpc := hpc s; workers := workers s |}.

Definition set_stopCh (c : Chan) (s : State) : State :=
  {| streaming := streaming s; stopCh := c; mu := mu s; closedCh := closedCh s;
     nextCh := nextCh s; inbound := inbound s; connClosed := connClosed s;
     trace := trace s; hpc := hpc s; workers := workers s |}.

Definition set_mu (m : option Tid) (s : State) : State :=
  {| streaming := streaming s; stopCh := stopCh s; mu := m; closedCh := closedCh s;
     nextCh := nextCh s; inbound := inbound s; connClosed := connClosed s;
     trace := trace s; hpc := hpc s; workers := workers s |}.

Definition set_closedCh (c : gset Chan) (s : State) : State :=
  {| streaming := streaming s; stopCh := stopCh s; mu := mu s; closedCh := c;
     nextCh := nextCh s; inbound := inbound s; connClosed := connClosed s;
     trace := trace s; hpc := hpc s; workers := workers s |}.

Definition set_nextCh (c : Chan) (s : State) : State :=
  {| streaming := streaming s; stopCh := stopCh s; mu := mu s; closedCh := closedCh s;
     nextCh := c; inbound := inbound s; connClosed := connClosed s;
     trace := trace s; hpc := hpc s; workers := workers s |}.

Definition set_inbound (l : list Inbound) (s : State) : State :=
  {| streaming := streaming s; stopCh := stopCh s; mu := mu s; closedCh := closedCh s;
     nextCh := nextCh s; inbound := l; connClosed := connClosed s;
     trace := trace s; hpc := hpc s; workers := workers s |}.

Definition set_connClosed (b : bool) (s : State) : State :=
  {| streaming := streaming s; stopCh := stopCh s; mu := mu s; closedCh := closedCh s;
     nextCh := nextCh s; inbound := inbound s; connClosed := b;
     trace := trace s; hpc := hpc s; workers := workers s |}.

Definition set_trace (t : list Event) (s : State) : State :=
  {| streaming := streaming s; stopCh := stopCh s; mu := mu s; closedCh := closedCh s;
     nextCh := nextCh s; inbound := inbound s; connClosed := connClosed s;
     trace := t; hpc := hpc s; workers := workers s |}.

Definition set_hpc (p : HandlerPC) (s : State) : State :=
  {| streaming := streaming s; stopCh := stopCh s; mu := mu s; closedCh := closedCh s;
     nextCh := nextCh s; inbound := inbound s; connClosed := connClosed s;
     trace := trace s; hpc := p; workers := workers s |}.

Definition set_workers (w : list WorkerState) (s : State) : State :=
  {| streaming := streaming s; stopCh := stopCh s; mu := mu s; closedCh := closedCh s;
     nextCh := nextCh s; inbound := inbound s; connClosed := connClosed s;
     trace := trace s; hpc := hpc s; workers := w |}.

Definition emit (e : Event) (s : State) : State :=
  set_trace (trace s ++ [e]) s.

(** [client := &Client{conn: conn, streaming: false, stopCh: make(chan struct{})}]
    at the head of the receive loop. *)
Definition init (frames : list Inbound) : State :=
  {| streaming := false; stopCh := 0; mu := None; closedCh := ∅; nextCh := 1;
     inbound := frames; connClosed := false; trace := []; hpc := HRead;
     workers := [] |}.

(** ** The environment *)

(** The directory [resource]: the content of [resource/<name>], for the
    names that exist. *)
Definition Resources := gmap string (list byte).

(** [buffer := make([]byte, 8192)]. *)
Definition bufferSize : nat := 8192.

(** A step of the schedule: the goroutine that runs, and whether the system
    call it makes there (open, read, write on the connection) succeeds. *)
Record Choice := { who : Tid; sys_ok : bool }.

(** ** sendStatusMessage *)

(** One step of [sendStatusMessage(client, status)] run by goroutine [t]:
    the new state and where the call is next, [None] once it has returned.
    No step at [SLock] while the mutex is held.  A write on a closed
    connection fails. *)
Definition sendStatusMessage (t : Tid) (status : string) (ok : bool)
    (p : SendPC) (s : State) : option (State * option SendPC) :=
  match p with
  | SLock =>
      match mu s with
      | None => Some (emit (EvLock t) (set_mu (Some t) s), Some SWrite)
      | Some _ => None
      end
  | SWrite =>
      let sent := ok && negb (connClosed s) in
      let data := Marshal {| Type' := "status"; Data := status |} in
      let s1 := emit (EvWrite t (TextMessage data) sent) s in
      Some (if sent then s1 else emit (EvLog t LogSendStatus) s1, Some SUnlock)
  | SUnlock => Some (emit (EvUnlock t) (set_mu None s), None)
  end.

(** ** handleWebSocket: the receive loop *)

Definition handler_step (ok : bool) (s : State) : option State :=
  let goto p s := set_hpc p s in
  match hpc s with
  | HRead =>
      match inbound s with
      | [] => None
      | InError :: rest =>
          Some (goto HClosed (set_connClosed true
                  (emit (EvLog Handler LogReadMessage) (set_inbound rest s))))
      | InBinary :: rest => Some (set_inbound rest s)
      | InText None :: rest =>
          Some (emit (EvLog Handler LogUnmarshal) (set_inbound rest s))
      | InText (Some msg) :: rest =>
          let s := set_inbound rest s in
          if String.eqb (Action msg) "start" then
            if String.eqb (Filename msg) "" then Some (goto (HNoFilename SLock) s)
            else Some (goto (HStartCheck (Filename msg)) s)
          else if String.eqb (Action msg) "stop" then Some (goto HStopCheck s)
          else Some s
      end
  | HNoFilename p =>
      '(s, p) ← sendStatusMessage Handler "Error: No filename provided" ok p s;
      Some (goto (match p with Some p => HNoFilename p | None => HRead end) s)
  | HStartCheck f =>
      Some (goto (if streaming s then HStartLock f else HStartSet f) s)
  | HStartLock f =>
      match mu s with
      | None => Some (goto (HStartClose f) (emit (EvLock Handler) (set_mu (Some Handler) s)))
      | Some _ => None
      end
  | HStartClose f =>
      if decide (stopCh s ∈ closedCh s)
      then Some (goto HPanic (set_connClosed true s))
      else Some (goto (HStartMake f) (set_closedCh ({[stopCh s]} ∪ closedCh s) s))
  | HStartMake f =>
      Some (goto (HStartUnlock f) (set_nextCh (S (nextCh s)) (set_stopCh (nextCh s) s)))
  | HStartUnlock f =>
      Some (goto (HStartSet f) (emit (EvUnlock Handler) (set_mu None s)))
  | HStartSet f => Some (goto (HSpawn f) (set_streaming true s))
  | HSpawn f =>
      Some (goto HRead
              (set_workers (workers s ++ [{| filename := f; wpc := WStat; file := [] |}]) s))
  | HStopCheck => Some (goto (if streaming s then HStopLock else HRead) s)
  | HStopLock =>
      match mu s with
      | None => Some (goto HStopClose (emit (EvLock Handler) (set_mu (Some Handler) s)))
      | Some _ => None
      end
  | HStopClose =>
      if decide (stopCh s ∈ closedCh s)
      then Some (goto HPanic (set_connClosed true s))
      else Some (goto HStopMake (set_closedCh ({[stopCh s]} ∪ closedCh s) s))
  | HStopMake =>
      Some (goto HStopSet (set_nextCh (S (nextCh s)) (set_stopCh (nextCh s) s)))
  | HStopSet => Some (goto HStopUnlock (set_streaming false s))
  | HStopUnlock => Some (goto (HStopped SLock) (emit (EvUnlock Handler) (set_mu None s)))
  | HStopped p =>
      '(s, p) ← sendStatusMessage Handler "Streaming stopped" ok p s;
      Some (goto (match p with Some p => HStopped p | None => HRead end) s)
  | HClosed => None
  | HPanic => None
  end.

(** ** streamAudio: the transfer worker *)

Section Worker.

Variable resource : Resources.

Definition worker_step (i : nat) (ok : bool) (s : State) : option State :=
  w ← workers s !! i;
  let t := Worker i in
  let f := filename w in
  let goto p s :=
    set_workers (<[i := {| filename := f; wpc := p; file := file w |}]> (workers s)) s in
  let send status p next after :=
    '(s, p) ← sendStatusMessage t status ok p s;
    Some (goto (match p with Some p => next p | None => after end) s) in
  match wpc w with
  | WStat =>
      Some (goto (match resource !! f with
                  | None => WNotFound SLock
                  | Some _ => WStarted SLock
                  end) s)
  | WNotFound p => send ("Error: File " +:+ f +:+ " not found") p WNotFound WDone
  | WStarted p => send ("Streaming " +:+ f) p WStarted WOpen
  | WOpen =>
      match resource !! f with
      | Some content =>
          if ok then
            Some (set_workers
                    (<[i := {| filename := f; wpc := WSelect; file := content |}]> (workers s))
                    (emit (EvLog t (LogStreamingFile f (length content))) s))
          else Some (goto (WOpenErr SLock) (emit (EvLog t LogOpen) s))
      | None => Some (goto (WOpenErr SLock) (emit (EvLog t LogOpen) s))
      end
  | WOpenErr p => send "Error opening audio file" p WOpenErr WDone
  | WSelect => Some (goto (WPoll (stopCh s)) s)
  | WPoll ch =>
      if decide (ch ∈ closedCh s)
      then Some (goto WDone (emit (EvLog t (LogStopped f)) s))
      else Some (goto WReadFile s)
  | WReadFile =>
      if ok then
        match file w with
        | [] => Some (goto (WFinished SLock) (emit (EvLog t (LogFinished f)) s))
        | _ =>
            Some (set_workers
                    (<[i := {| filename := f; wpc := WChunkLock (take bufferSize (file w));
                               file := drop bufferSize (file w) |}]> (workers s)) s)
        end
      else Some (goto (WReadErr SLock) (emit (EvLog t LogReadFile) s))
  | WFinished p => send "Streaming finished" p WFinished WFinishedSet
  | WFinishedSet => Some (goto WDone (set_streaming false s))
  | WReadErr p => send "Error reading audio file" p WReadErr WReadErrSet
  | WReadErrSet => Some (goto WDone (set_streaming false s))
  | WChunkLock chunk =>
      match mu s with
      | None => Some (goto (WChunkWrite chunk) (emit (EvLock t) (set_mu (Some t) s)))
      | Some _ => None
      end
  | WChunkWrite chunk =>
      let sent := ok && negb (connClosed s) in
      Some (goto (WChunkUnlock (negb sent)) (emit (EvWrite t (BinaryMessage chunk) sent) s))
  | WChunkUnlock err =>
      let s := emit (EvUnlock t) (set_mu None s) in
      if err then Some (goto WWriteErrSet (emit (EvLog t LogWrite) s))
      else Some (goto WSleep s)
  | WWriteErrSet => Some (goto WDone (set_streaming false s))
  | WSleep => Some (goto WSelect s)
  | WDone => None
  end.

(** ** Schedules *)

Definition step (c : Choice) (s : State) : option State :=
  match who c with
  | Handler => handler_step (sys_ok c) s
  | Worker i => worker_step i (sys_ok c) s
  end.

Fixpoint run (sched : list Choice) (s : State) : option State :=
  match sched with
  | [] => Some s
  | c :: sched => s ← step c s; run sched s
  end.

(** The states of a connection: some frames arrive, some schedule runs. *)
Definition reachable (s : State) : Prop :=
  ∃ frames sched, run sched (init frames) = Some s.

End Worker.

(** ** Reading a trace *)

(** The text frame [sendStatusMessage(client, msg)] writes. *)
Definition status (msg : string) : Frame :=
  TextMessage (Marshal {| Type' := "status"; Data := msg |}).

(** The frames the connection accepted, in order: what the client receives. *)
Definition frames_sent (tr : list Event) : list Frame :=
  omap (λ e, match e with EvWrite _ f true => Some f | _ => None end) tr.

(** The frames goroutine [t] handed to [conn.WriteMessage], accepted or not. *)
Definition writes_by (t : Tid) (tr : list Event) : list Frame :=
  omap (λ e, match e with
             | EvWrite t' f _ => if decide (t = t') then Some f else None
             | _ => None
             end) tr.

(** The events of one call of [sendStatusMessage(client, msg)] by [t] whose
    write is accepted ([sent]) or fails. *)
Definition send_events (t : Tid) (msg : string) (sent : bool) : list Event :=
  [EvLock t; EvWrite t (status msg) sent]
  ++ (if sent then [] else [EvLog t LogSendStatus])
  ++ [EvUnlock t].

(** The schedule in which goroutine [t] alone takes [n] steps. *)
Definition solo (t : Tid) (ok : bool) (n : nat) : list Choice :=
  replicate n {| who := t; sys_ok := ok |}.

(** The control messages. *)
Definition start (f : string) : Inbound :=
  InText (Some {| Action := "start"; Filename := f |}).

Definition stop : Inbound :=
  InText (Some {| Action := "stop"; Filename := "" |}).

(** ** The send lock *)

(** Where a goroutine is between [client.mu.Lock()] and [client.mu.Unlock()],
    and where it is there after its call of [conn.WriteMessage]. *)
Definition send_holds (p : SendPC) : bool :=
  match p with SLock => false | SWrite | SUnlock => true end.

Definition send_wrote (p : SendPC) : bool :=
  match p with SUnlock => true | SLock | SWrite => false end.

Definition handler_holds (p : HandlerPC) : bool :=
  match p with
  | HNoFilename p | HStopped p => send_holds p
  | HStartClose _ | HStartMake _ | HStartUnlock _
  | HStopClose | HStopMake | HStopSet | HStopUnlock | HPanic => true
  | _ => false
  end.

Definition handler_wrote (p : HandlerPC) : bool :=
  match p with
  | HNoFilename p | HStopped p => send_wrote p
  | _ => false
  end.

Definition worker_holds (p : WorkerPC) : bool :=
  match p with
  | WNotFound p | WStarted p | WOpenErr p | WFinished p | WReadErr p => send_holds p
  | WChunkWrite _ | WChunkUnlock _ => true
  | _ => false
  end.

Definition worker_wrote (p : WorkerPC) : bool :=
  match p with
  | WNotFound p | WStarted p | WOpenErr p | WFinished p | WReadErr p => send_wrote p
  | WChunkUnlock _ => true
  | _ => false
  end.

Definition holds (t : Tid) (s : State) : bool :=
  match t with
  | Handler => handler_holds (hpc s)
  | Worker i => from_option (λ w, worker_holds (wpc w)) false (workers s !! i)
  end.

Definition wrote (t : Tid) (s : State) : bool :=
  match t with
  | Handler => handler_wrote (hpc s)
  | Worker i => from_option (λ w, worker_wrote (wpc w)) false (workers s !! i)
  end.

(** Goroutine [t] is at its call of [conn.WriteMessage]: the write is in
    flight. *)
Definition send_writing (p : SendPC) : bool :=
  match p with SWrite => true | SLock | SUnlock => false end.

Definition writing (t : Tid) (s : State) : bool :=
  match t with
  | Handler =>
      match hpc s with
      | HNoFilename p | HStopped p => send_writing p
      | _ => false
      end
  | Worker i =>
      match wpc <$> workers s !! i with
      | Some (WNotFound p) | Some (WStarted p) | Some (WOpenErr p)
      | Some (WFinished p) | Some (WReadErr p) => send_writing p
      | Some (WChunkWrite _) => true
      | _ => false
      end
  end.

(** The mutex as a trace shows it: [None] if it is free, else its holder and
    whether the holder has written a frame since it locked.  An operation
    that the discipline forbids has no successor: a lock while the mutex is
    held, an unlock by another goroutine than the holder, a write by a
    goroutine that does not hold the mutex or that has already written
    under this acquisition. *)
Inductive LockOp := OpLock | OpWrite | OpUnlock.

Definition lock_op (st : option (Tid * bool)) (t : Tid) (o : LockOp)
    : option (option (Tid * bool)) :=
  match o, st with
  | OpLock, None => Some (Some (t, false))
  | OpWrite, Some (t', false) => if decide (t = t') then Some (Some (t, true)) else None
  | OpUnlock, Some (t', _) => if decide (t = t') then Some None else None
  | _, _ => None
  end.

Definition lock_event (st : option (Tid * bool)) (e : Event)
    : option (option (Tid * bool)) :=
  match e with
  | EvLock t => lock_op st t OpLock
  | EvWrite t _ _ => lock_op st t OpWrite
  | EvUnlock t => lock_op st t OpUnlock
  | EvLog _ _ => Some st
  end.

Definition lock_from (st : option (option (Tid * bool))) (tr : list Event)
    : option (option (Tid * bool)) :=
  foldl (λ st e, st ≫= λ st, lock_event st e) st tr.

(** [Some st] if the trace keeps the discipline, with [st] the mutex at its
    end. *)
Definition lock_discipline (tr : list Event) : option (option (Tid * bool)) :=
  lock_from (Some None) tr.

(** The mutex as the state shows it. *)
Definition lock_view (s : State) : option (Tid * bool) :=
  match mu s with
  | None => None
  | Some t => Some (t, wrote t s)
  end.

Definition mutex_inv (s : State) : Prop :=
  (∀ t, holds t s = true ↔ mu s = Some t)
  ∧ lock_discipline (trace s) = Some (lock_view s).

(** What a step does to the lock, seen from the goroutine that takes it. *)
Definition lock_effect (t : Tid) (s s' : State) : Prop :=
  let ld := lock_discipline (trace s) in
  let ld' := lock_discipline (trace s') in
  match holds t s, holds t s' with
  | false, false => mu s' = mu s ∧ ld' = ld
  | false, true =>
      mu s = None ∧ mu s' = Some t ∧ wrote t s' = false
      ∧ ld' = ld ≫= λ st, lock_op st t OpLock
  | true, false => mu s' = None ∧ ld' = ld ≫= λ st, lock_op st t OpUnlock
  | true, true =>
      mu s' = mu s
      ∧ ((wrote t s' = wrote t s ∧ ld' = ld)
         ∨ (wrote t s = false ∧ wrote t s' = true
            ∧ ld' = ld ≫= λ st, lock_op st t OpWrite))
  end.

(** ** The cancellation channel *)

(** [client.stopCh] is a channel that [make] has returned and, outside the
    two statements between [close] and the assignment of its replacement, an
    open one; the receive loop never closes a closed channel; the
    connection is closed only once the loop has ended. *)
Definition chan_inv (s : State) : Prop :=
  stopCh s < nextCh s
  ∧ (∀ c, c ∈ closedCh s → c < nextCh s)
  ∧ hpc s ≠ HPanic
  ∧ (stopCh s ∈ closedCh s → hpc s = HStopMake ∨ ∃ f, hpc s = HStartMake f)
  ∧ (connClosed s = true → hpc s = HClosed).

(** ** The transfer as the client sees it *)

(** The successive results of [file.Read(buffer)] on a regular file that
    holds [l]: full buffers, then what is left.  Every chunk takes at least
    one byte, so [length l] rounds are enough. *)
Fixpoint chunks_fuel (fuel : nat) (l : list byte) : list (list byte) :=
  match fuel with
  | 0 => []
  | S fuel =>
      match l with
      | [] => []
      | _ :: _ => take bufferSize l :: chunks_fuel fuel (drop bufferSize l)
      end
  end.

Definition chunks (l : list byte) : list (list byte) :=
  chunks_fuel (length l) l.

(** [ceil(n / c)]. *)
Definition ceil_div (n c : nat) : nat := (n + c - 1) / c.

(** The events of one iteration of the loop that sends [chunk], and of the
    whole loop on a file read as the chunks [cs], when every write is
    accepted. *)
Definition chunk_events (t : Tid) (chunk : list byte) : list Event :=
  [EvLock t; EvWrite t (BinaryMessage chunk) true; EvUnlock t].

Definition loop_events (t : Tid) (f : string) (cs : list (list byte)) : list Event :=
  concat (chunk_events t <$> cs)
  ++ [EvLog t (LogFinished f)] ++ send_events t "Streaming finished" true.

(** ** The status messages *)

(** The kinds of status message the wire protocol enumerates. *)
Inductive StatusKind :=
| FileNotFound
| StreamStarted
| StreamFinished
| StreamStopped
| ReadError
| WriteError
| NoFilenameProvided.

(** The texts of main.go by kind.  No text has the kind [WriteError]: a
    failed write is only logged (lines 279 and 312). *)
Inductive status_kind : string → StatusKind → Prop :=
| KFileNotFound f : status_kind ("Error: File " +:+ f +:+ " not found") FileNotFound
| KStreamStarted f : status_kind ("Streaming " +:+ f) StreamStarted
| KStreamFinished : status_kind "Streaming finished" StreamFinished
| KStreamStopped : status_kind "Streaming stopped" StreamStopped
| KReadError : status_kind "Error reading audio file" ReadError
| KNoFilenameProvided : status_kind "Error: No filename provided" NoFilenameProvided.

(** An event is a status message of an enumerated kind, if it is a text
    frame at all. *)
Definition enumerated_status (e : Event) : Prop :=
  match e with
  | EvWrite _ (TextMessage j) _ =>
      ∃ m k, j = Marshal {| Type' := "status"; Data := m |} ∧ status_kind m k
  | _ => True
  end.

(** The same, with the text of line 233 allowed. *)
Definition emitted_status (e : Event) : Prop :=
  match e with
  | EvWrite _ (TextMessage j) _ =>
      ∃ m, j = Marshal {| Type' := "status"; Data := m |}
           ∧ ((∃ k, status_kind m k ∧ k ≠ WriteError)
              ∨ m = "Error opening audio file")
  | _ => True
  end.

(** ** After a failed write *)

(** Where a worker is once [conn.WriteMessage] has failed on a chunk:
    before the unlock, before clearing [client.streaming], or gone. *)
Definition gave_up (p : WorkerPC) : bool :=
  match p with
  | WChunkUnlock true | WWriteErrSet | WDone => true
  | _ => false
  end.

(** ** Schedules that leave no choice *)

(** No goroutine can take a step. *)
Definition final (resource : Resources) (s : State) : Prop :=
  ∀ c, step resource c s = None.

(** Along [path] from [s], the goroutine that takes the step is the only
    one that can. *)
Fixpoint forced (resource : Resources) (path : list Choice) (s : State) : Prop :=
  match path with
  | [] => True
  | c :: path =>
      (∀ c', who c' ≠ who c → step resource c' s = None)
      ∧ match step resource c s with
        | Some s1 => forced resource path s1
        | None => False
        end
  end.

(** Once the receive loop waits for a frame that does not come and every
    other worker has returned, only worker [i] can take a step, and its
    steps keep it so. *)
Definition alone (i : nat) (s : State) : Prop :=
  hpc s = HRead ∧ inbound s = []
  ∧ ∀ j w, j ≠ i → workers s !! j = Some w → wpc w = WDone.

(** ** The receive loop among the workers *)

(** The number of steps of the receive loop in a schedule. *)
Definition handler_steps (sched : list Choice) : nat :=
  length (filter (λ c, who c = Handler) sched).

(** What only the receive loop changes, and what a worker can do to the
    rest: clear [client.streaming] and append events of its own. *)
Definition worker_moved (s s' : State) : Prop :=
  hpc s' = hpc s ∧ inbound s' = inbound s ∧ stopCh s' = stopCh s
  ∧ closedCh s' = closedCh s ∧ nextCh s' = nextCh s
  ∧ connClosed s' = connClosed s
  ∧ length (workers s') = length (workers s)
  ∧ (streaming s' = streaming s ∨ streaming s' = false)
  ∧ ∃ evs, trace s' = trace s ++ evs ∧ writes_by Handler evs = [].

(** The receive loop on a stop message that found [client.streaming] true,
    by the number of steps it has taken since it read the message: where it
    is and what it has done by then to the state [s0] it started from. *)
Definition stop_pc (k : nat) : HandlerPC :=
  match k with
  | 0 => HStopCheck
  | 1 => HStopLock
  | 2 => HStopClose
  | 3 => HStopMake
  | 4 => HStopSet
  | 5 => HStopUnlock
  | 6 => HStopped SLock
  | 7 => HStopped SWrite
  | 8 => HStopped SUnlock
  | _ => HRead
  end.

Definition stopping (s0 : State) (k : nat) (s : State) : Prop :=
  hpc s = stop_pc k
  ∧ inbound s = inbound s0
  ∧ length (workers s) = length (workers s0)
  ∧ closedCh s = (if decide (3 ≤ k) then {[stopCh s0]} ∪ closedCh s0 else closedCh s0)
  ∧ stopCh s = (if decide (4 ≤ k) then nextCh s0 else stopCh s0)
  ∧ nextCh s = (if decide (4 ≤ k) then S (nextCh s0) else nextCh s0)
  ∧ (5 ≤ k → streaming s = false)
  ∧ ∃ evs, trace s = trace s0 ++ evs
           ∧ writes_by Handler evs
             = if decide (8 ≤ k) then [status "Streaming stopped"] else [].

(** The same for a start message without a file name. *)
Definition refuse_pc (k : nat) : HandlerPC :=
  match k with
  | 1 => HNoFilename SLock
  | 2 => HNoFilename SWrite
  | 3 => HNoFilename SUnlock
  | _ => HRead
  end.

Definition refusing (s0 : State) (rest : list Inbound) (k : nat) (s : State) : Prop :=
  hpc s = refuse_pc k
  ∧ inbound s = (if decide (1 ≤ k) then rest else inbound s0)
  ∧ length (workers s) = length (workers s0)
  ∧ closedCh s = closedCh s0 ∧ stopCh s = stopCh s0 ∧ nextCh s = nextCh s0
  ∧ (streaming s = streaming s0 ∨ streaming s = false)
  ∧ ∃ evs, trace s = trace s0 ++ evs
           ∧ writes_by Handler evs
             = if decide (3 ≤ k) then [status "Error: No filename provided"] else [].

(** The same for a stop message that finds [client.streaming] false. *)
Definition idle_pc (k : nat) : HandlerPC :=
  match k with
  | 1 => HStopCheck
  | _ => HRead
  end.

Definition idling (s0 : State) (rest : list Inbound) (k : nat) (s : State) : Prop :=
  hpc s = idle_pc k
  ∧ inbound s = (if decide (1 ≤ k) then rest else inbound s0)
  ∧ length (workers s) = length (workers s0)
  ∧ closedCh s = closedCh s0 ∧ stopCh s = stopCh s0 ∧ nextCh s = nextCh s0
  ∧ streaming s = false
  ∧ ∃ evs, trace s = trace s0 ++ evs ∧ writes_by Handler evs = [].

(** ** Example connections *)

(** A [resource] directory: a.mp3 of one full buffer and one byte more,
    b.mp3 of one byte. *)
Definition example_resource : Resources :=
  {[ "a.mp3" := replicate bufferSize x41 ++ [x42]; "b.mp3" := [x43] ]}.

(** The events of [s'] that [s] does not have yet. *)
Definition after (s s' : State) : list Event :=
  drop (length (trace s)) (trace s').

(** Worker [t] logged "Streaming stopped for file": it saw its channel
    closed. *)
Definition logged_stop (t : Tid) (tr : list Event) : bool :=
  existsb (λ e, match e with
                | EvLog t' (LogStopped _) => bool_decide (t = t')
                | _ => false
                end) tr.

(** The state some frames and a schedule lead to. *)
Definition state_after (resource : Resources) (frames : list Inbound)
    (sched : list Choice) : State :=
  default (init frames) (run resource sched (init frames)).

(** start(a.mp3), then start(b.mp3) once the first chunk of a.mp3 is out. *)
Definition supersede_frames : list Inbound := [start "a.mp3"; start "b.mp3"].

Definition supersede_before : list Choice :=
  solo Handler true 4 ++ solo (Worker 0) true 12.

Definition supersede_start : list Choice := solo Handler true 8.

Definition supersede_after : list Choice :=
  solo (Worker 1) true 5 ++ solo (Worker 0) true 7 ++ solo (Worker 1) true 7
  ++ solo (Worker 0) true 7 ++ solo (Worker 1) true 7.

(** start(b.mp3) where [os.Open] fails on the file that [os.Stat] found. *)
Definition open_error_sched : list Choice :=
  solo Handler true 4 ++ solo (Worker 0) true 4
  ++ [{| who := Worker 0; sys_ok := false |}] ++ solo (Worker 0) true 3.

(** ** Events by goroutine *)

(** The goroutine an event belongs to. *)
Definition event_tid (e : Event) : Tid :=
  match e with
  | EvLock t | EvUnlock t | EvWrite t _ _ | EvLog t _ => t
  end.

(** The events of goroutine [t], in order. *)
Definition events_of (t : Tid) (tr : list Event) : list Event :=
  filter (λ e, event_tid e = t) tr.

(** ** What a worker delivers *)

(** The chunks the connection accepted, among some events. *)
Definition chunks_delivered (tr : list Event) : list (list byte) :=
  omap (λ e, match e with
             | EvWrite _ (BinaryMessage d) true => Some d
             | _ => None
             end) tr.

(** "Finished streaming file" was logged. *)
Definition finished_logged (tr : list Event) : bool :=
  existsb (λ e, match e with EvLog _ (LogFinished _) => true | _ => false end) tr.

(** The chunk a worker has read from the file and not handed over yet. *)
Definition in_flight (p : WorkerPC) : list (list byte) :=
  match p with
  | WChunkLock c | WChunkWrite c => [c]
  | _ => []
  end.

(** Where a worker is in its file, by its program counter: [cs] are the
    chunks of the file, [sent] the chunks the connection accepted from it,
    [rem] the bytes it has not read yet, [fin] whether it logged the end. *)
Definition transfer_at (cs : list (list byte)) (p : WorkerPC) (rem : list byte)
    (sent : list (list byte)) (fin : bool) : Prop :=
  match p with
  | WStat | WNotFound _ | WStarted _ | WOpen | WOpenErr _ => sent = [] ∧ fin = false
  | WSelect | WPoll _ | WReadFile | WChunkLock _ | WChunkWrite _
  | WChunkUnlock false | WSleep =>
      cs = sent ++ in_flight p ++ chunks rem ∧ fin = false
  | WFinished _ | WFinishedSet => cs = sent
  | WReadErr _ | WReadErrSet | WChunkUnlock true | WWriteErrSet =>
      sent `prefix_of` cs ∧ fin = false
  | WDone => sent `prefix_of` cs ∧ (fin = true → cs = sent)
  end.

(** A worker past [os.Open]. *)
Definition opened (p : WorkerPC) : bool :=
  match p with
  | WStat | WNotFound _ | WStarted _ | WOpen | WOpenErr _ | WDone => false
  | _ => true
  end.

Definition transfer_inv (resource : Resources) (w : WorkerState) (own : list Event)
    : Prop :=
  transfer_at (chunks (default [] (resource !! filename w))) (wpc w) (file w)
    (chunks_delivered own) (finished_logged own)
  ∧ (opened (wpc w) || finished_logged own = true → is_Some (resource !! filename w)).

(** ** The frames of a worker *)

(** The frames handed to [conn.WriteMessage], accepted or not, among some
    events. *)
Definition frames_handed (tr : list Event) : list Frame :=
  omap (λ e, match e with EvWrite _ f _ => Some f | _ => None end) tr.

(** What one call of [streamAudio(client, f)] hands to [conn.WriteMessage]
    from its start to its return, or up to some point before: nothing yet;
    the not-found status alone; the start status and then the open error;
    the start status and some chunks; the same closed by the finish status
    or by the read error. *)
Inductive worker_writes (f : string) : list Frame → Prop :=
| ww_none : worker_writes f []
| ww_not_found : worker_writes f [status ("Error: File " +:+ f +:+ " not found")]
| ww_open_error :
    worker_writes f [status ("Streaming " +:+ f); status "Error opening audio file"]
| ww_chunks cs : worker_writes f (status ("Streaming " +:+ f) :: (BinaryMessage <$> cs))
| ww_finished cs :
    worker_writes f (status ("Streaming " +:+ f)
                       :: (BinaryMessage <$> cs) ++ [status "Streaming finished"])
| ww_read_error cs :
    worker_writes f (status ("Streaming " +:+ f)
                       :: (BinaryMessage <$> cs) ++ [status "Error reading audio file"]).

(** The same by the program counter of the worker. *)
Definition protocol_at (f : string) (p : WorkerPC) (l : list Frame) : Prop :=
  let started := status ("Streaming " +:+ f) in
  match p with
  | WStat | WNotFound SLock | WNotFound SWrite | WStarted SLock | WStarted SWrite =>
      l = []
  | WNotFound SUnlock => l = [status ("Error: File " +:+ f +:+ " not found")]
  | WStarted SUnlock | WOpen | WOpenErr SLock | WOpenErr SWrite => l = [started]
  | WOpenErr SUnlock => l = [started; status "Error opening audio file"]
  | WFinished SUnlock | WFinishedSet =>
      ∃ cs, l = started :: (BinaryMessage <$> cs) ++ [status "Streaming finished"]
  | WReadErr SUnlock | WReadErrSet =>
      ∃ cs, l = started :: (BinaryMessage <$> cs) ++ [status "Error reading audio file"]
  | WDone => worker_writes f l
  | _ => ∃ cs, l = started :: (BinaryMessage <$> cs)
  end.

Definition protocol_inv (w : WorkerState) (own : list Event) : Prop :=
  protocol_at (filename w) (wpc w) (frames_handed own).

(** A chunk as [file.Read] returns it into a buffer of [bufferSize] bytes
    when it does not return [io.EOF]. *)
Definition chunk_ok (c : list byte) : Prop := 0 < length c ≤ bufferSize.

Definition frame_ok (e : Event) : Prop :=
  match e with
  | EvWrite t (BinaryMessage d) _ => chunk_ok d ∧ t ≠ Handler
  | _ => True
  end.

Definition size_inv (w : WorkerState) (own : list Event) : Prop :=
  Forall chunk_ok (in_flight (wpc w)) ∧ Forall frame_ok own.

(** ** Failures of the file system *)

(** The number of steps of worker [i] in a schedule. *)
Definition worker_steps (i : nat) (sched : list Choice) : nat :=
  length (filter (λ c, who c = Worker i) sched).

(** A worker whose [file.Read] failed, by the number of steps it has taken
    since. *)
Definition read_failed_pc (k : nat) : WorkerPC :=
  match k with
  | 0 => WReadErr SLock
  | 1 => WReadErr SWrite
  | 2 => WReadErr SUnlock
  | 3 => WReadErrSet
  | _ => WDone
  end.

(** The same for a worker whose [os.Open] failed. *)
Definition open_failed_pc (k : nat) : WorkerPC :=
  match k with
  | 0 => WOpenErr SLock
  | 1 => WOpenErr SWrite
  | 2 => WOpenErr SUnlock
  | _ => WDone
  end.

(** Worker [i] after [k] steps on the path [pcs] that sends the status
    [msg]: where it is, and what it has handed to [conn.WriteMessage] since
    the state with trace [tr0]. *)
Definition failing (pcs : nat → WorkerPC) (msg : string) (i : nat) (tr0 : list Event)
    (k : nat) (s : State) : Prop :=
  wpc <$> workers s !! i = Some (pcs k)
  ∧ ∃ evs, trace s = tr0 ++ evs
           ∧ writes_by (Worker i) evs = if decide (2 ≤ k) then [status msg] else [].

(** ** The steps a worker has left *)

(** The steps a worker has left at most, by where it is: [n] is the number
    of chunks of the bytes it has not read yet, [total] that of the whole
    file. *)
Definition send_left (p : SendPC) : nat :=
  match p with SLock => 3 | SWrite => 2 | SUnlock => 1 end.

Definition steps_left_at (total n : nat) (p : WorkerPC) : nat :=
  match p with
  | WStat => 12 + 7 * total
  | WNotFound p => send_left p
  | WStarted p => 8 + send_left p + 7 * total
  | WOpen => 8 + 7 * total
  | WOpenErr p => send_left p
  | WSelect => 7 + 7 * n
  | WPoll _ => 6 + 7 * n
  | WReadFile => 5 + 7 * n
  | WFinished p => 1 + send_left p
  | WFinishedSet => 1
  | WReadErr p => 1 + send_left p
  | WReadErrSet => 1
  | WChunkLock _ => 11 + 7 * n
  | WChunkWrite _ => 10 + 7 * n
  | WChunkUnlock _ => 9 + 7 * n
  | WWriteErrSet => 1
  | WSleep => 8 + 7 * n
  | WDone => 0
  end.

Definition steps_left (resource : Resources) (w : WorkerState) : nat :=
  steps_left_at (length (chunks (default [] (resource !! filename w))))
    (length (chunks (file w))) (wpc w).

(** ** Start messages and workers *)

(** The file name for which the receive loop spawns a worker when it reads
    the frame: a text frame that decodes to the action "start" with a file
    name that is not empty (lines 170, 171 and 197). *)
Definition accepted (m : Inbound) : option string :=
  match m with
  | InText (Some m) =>
      if String.eqb (Action m) "start" && negb (String.eqb (Filename m) "")
      then Some (Filename m) else None
  | _ => None
  end.

(** The file name of a start message that the receive loop has read and
    for which it has not spawned the worker yet. *)
Definition pending (p : HandlerPC) : list string :=
  match p with
  | HStartCheck f | HStartLock f | HStartClose f | HStartMake f | HStartUnlock f
  | HStartSet f | HSpawn f => [f]
  | _ => []
  end.

(** The receive loop is between [close(client.stopCh)] and the assignment
    of the channel that replaces it. *)
Definition between_close_and_make (p : HandlerPC) : bool :=
  match p with
  | HStartMake _ | HStopMake => true
  | _ => false
  end.

(** The receive loop is between [close(client.stopCh)] and the assignment
    of the new channel in the state [s], or in a state that the schedule
    passes through from there. *)
Fixpoint window_along (resource : Resources) (sched : list Choice) (s : State) : bool :=
  between_close_and_make (hpc s)
  || match sched with
     | [] => false
     | c :: sched =>
         match step resource c s with
         | Some s' => window_along resource sched s'
         | None => false
         end
     end.

(** ** A start message with a file name *)

(** The receive loop on a start message with the file name [f], by the
    number of steps it has taken since it tested [client.streaming] and
    found it [b]: where it is. *)
Definition start_pc (b : bool) (f : string) (k : nat) : HandlerPC :=
  if b then
    match k with
    | 0 => HStartLock f
    | 1 => HStartClose f
    | 2 => HStartMake f
    | 3 => HStartUnlock f
    | 4 => HStartSet f
    | 5 => HSpawn f
    | _ => HRead
    end
  else
    match k with
    | 0 => HStartSet f
    | 1 => HSpawn f
    | _ => HRead
    end.

(** The number of these steps. *)
Definition start_steps (b : bool) : nat := if b then 6 else 2.

(** What the loop has done by then to the state [s0] in which it made the
    test: the workers by their file names, the channels, and what it has
    handed to [conn.WriteMessage]. *)
Definition starting (s0 : State) (b : bool) (f : string) (k : nat) (s : State) : Prop :=
  hpc s = start_pc b f k
  ∧ inbound s = inbound s0
  ∧ filename <$> workers s
    = (filename <$> workers s0) ++ (if decide (start_steps b ≤ k) then [f] else [])
  ∧ closedCh s = (if b && bool_decide (2 ≤ k)
                  then {[stopCh s0]} ∪ closedCh s0 else closedCh s0)
  ∧ stopCh s = (if b && bool_decide (3 ≤ k) then nextCh s0 else stopCh s0)
  ∧ nextCh s = (if b && bool_decide (3 ≤ k) then S (nextCh s0) else nextCh s0)
  ∧ ∃ evs, trace s = trace s0 ++ evs ∧ writes_by Handler evs = [].

(** * main.go: the list of audio files

    The handler of /audios that [main] registers (lines 97 to 113), as a
    function of what [os.ReadDir] returns. *)

(** A [fs.DirEntry], as far as the handler reads it. *)
Record DirEntry := { Name : string; IsDir : bool }.

(** [filepath.Ext(path)]: the loop of the standard library,
    [for i := len(path) - 1; i >= 0 && !os.IsPathSeparator(path[i]); i--],
    which returns [path[i:]] at the first ['.'] it meets and [""] if it
    meets none; [i] here is the index plus one.  The separator is ['/']. *)
Fixpoint Ext_loop (path : list Ascii.ascii) (i : nat) : list Ascii.ascii :=
  match i with
  | 0 => []
  | S j =>
      match path !! j with
      | Some c =>
          if Ascii.eqb c "/"%char then []
          else if Ascii.eqb c "."%char then drop j path
          else Ext_loop path j
      | None => []
      end
  end.

Definition Ext (path : string) : string :=
  let l := String.list_ascii_of_string path in
  String.string_of_list_ascii (Ext_loop l (length l)).

(** A slice of strings: [None] is the nil slice that [var audioFiles
    []string] declares, and [append] returns a slice that is not nil. *)
Definition Slice := option (list string).

Definition append (s : Slice) (x : string) : Slice := Some (default [] s ++ [x]).

(** What [json.NewEncoder(w).Encode] writes for a slice of strings: [null]
    for the nil slice, an array otherwise. *)
Inductive Encoded :=
| JNull
| JArray (elems : list string).

Definition Encode (s : Slice) : Encoded :=
  match s with
  | None => JNull
  | Some l => JArray l
  end.

Inductive Body :=
| BodyText (text : string)
| BodyJSON (j : Encoded).

Record Response := { Code : nat; ContentType : string; Content : Body }.

(** The condition of line 106. *)
Definition isAudio (file : DirEntry) : bool :=
  negb (IsDir file)
  && (String.eqb (Ext (Name file)) ".mp3" || String.eqb (Ext (Name file)) ".wav").

(** The handler on the result of [os.ReadDir("./resource")], [None] if it
    returns an error; [http.Error] ends the text with a newline. *)
Definition audios (dir : option (list DirEntry)) : Response :=
  match dir with
  | None =>
      {| Code := 500; ContentType := "text/plain; charset=utf-8";
         Content := BodyText ("Failed to read audio directory"
                                +:+ String "010"%char "") |}
  | Some files =>
      let audioFiles :=
        foldl (λ audioFiles file,
                 if isAudio file then append audioFiles (Name file) else audioFiles)
          None files in
      {| Code := 200; ContentType := "application/json";
         Content := BodyJSON (Encode audioFiles) |}
  end.

(** * backend/main.go: one file per connection

    [streamAudio] of backend/main.go serves the endpoint /ws/stream: it
    reads one message, the name of a file of static/audio, sends the file
    in binary frames of at most 4096 bytes and closes the connection.  It
    is sequential; its environment is what its system calls return. *)

Module Backend.

(** What [conn.WriteMessage] is given: the payload of a text frame is the
    text itself here, not a JSON object. *)
Inductive Frame :=
| TextMessage (text : string)
| BinaryMessage (data : list byte).

Inductive LogLine :=
| LogUpgrade      (* 118 "WebSocket upgrade error:" *)
| LogRead         (* 126 "WebSocket read error:" *)
| LogWrite.       (* 163 "WebSocket write error:" *)

Inductive Event :=
| EvWrite (f : Frame) (ok : bool)   (* conn.WriteMessage, ok: err == nil *)
| EvLog (l : LogLine)
| EvClose.                          (* the deferred conn.Close() *)

(** The results of the system calls of one request.  The iterations of the
    loop are numbered from 0, and so are its calls of [file.Read] and of
    [conn.WriteMessage]. *)
Record Env := {
  upgrade_ok : bool;                (* upgrader.Upgrade *)
  message : option string;          (* conn.ReadMessage: the payload *)
  audio : gmap string (list byte);  (* the file static/audio/<name>, if os.Stat finds one *)
  open_ok : bool;                   (* os.Open on a file that os.Stat found *)
  read_ok : nat → bool;             (* file.Read returns nil or io.EOF *)
  write_ok : nat → bool             (* conn.WriteMessage returns nil *)
}.

(** [buffer := make([]byte, 4096)]. *)
Definition bufferSize : nat := 4096.

(** The loop of lines 150 to 169 at its [k]-th iteration, with [rem] the
    bytes of the file not read yet.  Every iteration that goes on takes at
    least one byte, so [length rem + 1] rounds reach the end of the file. *)
Fixpoint sendLoop (env : Env) (fuel k : nat) (rem : list byte) : list Event :=
  match fuel with
  | 0 => []
  | S fuel =>
      if read_ok env k then
        match rem with
        | [] => []
        | _ :: _ =>
            let chunk := take bufferSize rem in
            if write_ok env k
            then EvWrite (BinaryMessage chunk) true
                   :: sendLoop env fuel (S k) (drop bufferSize rem)
            else [EvWrite (BinaryMessage chunk) false; EvLog LogWrite]
        end
      else [EvWrite (TextMessage "Error reading file") (write_ok env k)]
  end.

Definition streamAudio (env : Env) : list Event :=
  if upgrade_ok env then
    match message env with
    | None => [EvLog LogRead]
    | Some fileName =>
        match audio env !! fileName with
        | None => [EvWrite (TextMessage "Error: File not found") (write_ok env 0)]
        | Some content =>
            if open_ok env
            then sendLoop env (S (length content)) 0 content
            else [EvWrite (TextMessage "Error opening file") (write_ok env 0)]
        end
    end ++ [EvClose]
  else [EvLog LogUpgrade].

(** The successive results of [file.Read(buffer)] on a file that holds
    [l]. *)
Fixpoint chunks_fuel (fuel : nat) (l : list byte) : list (list byte) :=
  match fuel with
  | 0 => []
  | S fuel =>
      match l with
      | [] => []
      | _ :: _ => take bufferSize l :: chunks_fuel fuel (drop bufferSize l)
      end
  end.

Definition chunks (l : list byte) : list (list byte) := chunks_fuel (length l) l.

(** The binary frames the connection accepted, and the text frames handed
    to it. *)
Definition delivered (tr : list Event) : list (list byte) :=
  omap (λ e, match e with EvWrite (BinaryMessage d) true => Some d | _ => None end) tr.

Definition texts (tr : list Event) : list string :=
  omap (λ e, match e with EvWrite (TextMessage t) _ => Some t | _ => None end) tr.

(** ** extractDurationFromFilename *)

(** [strings.Split(s, sep)] for a separator of one byte: the parts of [s]
    between the occurrences of [sep], one more than there are
    occurrences. *)
Fixpoint Split (s : string) (sep : Ascii.ascii) : list string :=
  match s with
  | EmptyString => [""]
  | String c rest =>
      if Ascii.eqb c sep then "" :: Split rest sep
      else match Split rest sep with
           | p :: ps => String c p :: ps
           | [] => [String c ""]
           end
  end.

(** [strings.HasSuffix] and [strings.TrimSuffix]. *)
Definition HasSuffix (s suffix : string) : bool :=
  (String.length suffix <=? String.length s)
  && String.eqb (String.substring (String.length s - String.length suffix)
                   (String.length suffix) s) suffix.

Definition TrimSuffix (s suffix : string) : string :=
  if HasSuffix s suffix
  then String.substring 0 (String.length s - String.length suffix) s
  else s.

Section Duration.

(** [fmt.Sscanf(str, "%d", &duration)]: the number it scans, [None] if it
    returns an error.  The function is taken as it is, whatever it scans. *)
Variable Sscanf_d : string → option Z.

Definition extractDurationFromFilename (filename : string) : Z :=
  let parts := Split filename "-"%char in
  if 2 <=? length parts then
    let durationPart := default "" (last parts) in
    let durationPart := TrimSuffix durationPart "s.mp3" in
    match Sscanf_d durationPart with
    | Some duration => duration
    | None => 0%Z
    end
  else 0%Z.

End Duration.

End Backend.

(** The byte [c] occurs in [s]. *)
Fixpoint occurs (c : Ascii.ascii) (s : string) : bool :=
  match s with
  | EmptyString => false
  | String c' s => Ascii.eqb c' c || occurs c s
  end.

(** ** More example connections *)

(** A request of backend/main.go for b.mp3 in which every system call
    succeeds. *)
Definition example_env : Backend.Env :=
  {| Backend.upgrade_ok := true; Backend.message := Some "b.mp3";
     Backend.audio := {[ "b.mp3" := [x43] ]}; Backend.open_ok := true;
     Backend.read_ok := λ _, true; Backend.write_ok := λ _, true |}.

(** A scanner that knows one input. *)
Definition example_scan (s : string) : option Z :=
  if String.eqb s "003" then Some 3%Z else None.

(** start(b.mp3) run to its end. *)
Definition example_transfer : list Choice :=
  solo Handler true 4 ++ solo (Worker 0) true 19.

(** Four frames, two of them start messages with a file name, handled one
    after the other with no worker running in between. *)
Definition example_frames : list Inbound :=
  [start "a.mp3"; stop; start ""; start "b.mp3"].

Definition example_frames_sched : list Choice := solo Handler true 22.

(** A stop message that arrives while worker 0 is at its select. *)
Definition window_frames : list Inbound := [start "b.mp3"; stop].

Definition window_before : list Choice :=
  solo Handler true 4 ++ solo (Worker 0) true 5 ++ solo Handler true 3.

(** start(a.mp3), then start(b.mp3) as the last frame, handled when
    worker 0 has polled its channel, has read the first chunk of a.mp3 and
    is about to lock the mutex for it; afterwards worker 1 sends its
    status, worker 0 runs to its return, then worker 1. *)
Definition joined_before : list Choice :=
  solo Handler true 4 ++ solo (Worker 0) true 8.

Definition joined_sched : list Choice :=
  solo Handler true 8 ++ solo (Worker 1) true 4 ++ solo (Worker 0) true 18
  ++ solo (Worker 1) true 15.

(** * Proofs *)

#[local] Opaque bufferSize.

(** Reduction of the state's fields and of the lock bookkeeping only. *)
Ltac st_simpl :=
  cbn [streaming stopCh mu closedCh nextCh inbound connClosed trace hpc workers
       set_streaming set_stopCh set_mu set_closedCh set_nextCh set_inbound
       set_connClosed set_trace set_hpc set_workers emit
       holds wrote handler_holds handler_wrote send_holds send_wrote
       worker_holds worker_wrote wpc filename file from_option
       mbind option_bind andb negb] in *.

(** A state built by the setters, as a record. *)
Ltac st_norm :=
  cbv beta iota delta
    [set_streaming set_stopCh set_mu set_closedCh set_nextCh set_inbound
     set_connClosed set_trace set_hpc set_workers emit
     streaming stopCh mu closedCh nextCh inbound connClosed trace hpc workers].

Ltac red_in H :=
  cbn [mbind option_bind sendStatusMessage andb negb] in H.

(** Case analysis on whatever a step's equation still branches on. *)
Ltac cases_in H :=
  repeat (red_in H;
          match type of H with
          | context [match ?x with _ => _ end] => destruct x eqn:?
          end);
  red_in H; simplify_eq.

Ltac handler_cases H :=
  unfold handler_step in H;
  match type of H with
  | context [hpc ?s] =>
      let Hpc := fresh "Hpc" in
      destruct (hpc s) as [|[]| | | | | | | | | | | | | |[]| |] eqn:Hpc
  end; cases_in H.

Ltac worker_cases H :=
  unfold worker_step in H;
  match type of H with
  | context [workers ?s !! ?i] =>
      let w := fresh "w" in
      let Hi := fresh "Hi" in
      let Hpc := fresh "Hpc" in
      destruct (workers s !! i) as [w|] eqn:Hi; [|done]; red_in H;
      destruct (wpc w) as [|[]|[]| |[]| | | |[]| |[]| | | |[]| | |] eqn:Hpc
  end; cases_in H.

Section Reachable.

Variable resource : Resources.

Lemma run_app (a b : list Choice) (s : State) :
  run resource (a ++ b) s = run resource a s ≫= run resource b.
Proof.
  revert s. induction a as [|c a IH]; intros s; simpl.
  - reflexivity.
  - destruct (step resource c s); simpl; auto.
Qed.

Lemma run_cons (c : Choice) (l : list Choice) (s : State) :
  run resource (c :: l) s = step resource c s ≫= run resource l.
Proof. reflexivity. Qed.

Lemma reachable_init (frames : list Inbound) : reachable resource (init frames).
Proof. exists frames, []. reflexivity. Qed.

Lemma reachable_step (c : Choice) (s s' : State) :
  reachable resource s → step resource c s = Some s' → reachable resource s'.
Proof.
  intros (frames & sched & Hrun) Hstep.
  exists frames, (sched ++ [c]).
  rewrite run_app, Hrun. simpl. by rewrite Hstep.
Qed.

Lemma reachable_run (sched : list Choice) (s s' : State) :
  reachable resource s → run resource sched s = Some s' → reachable resource s'.
Proof.
  intros (frames & sched0 & Hrun) Hs.
  exists frames, (sched0 ++ sched).
  rewrite run_app, Hrun. done.
Qed.

Lemma reachable_induction (P : State → Prop) :
  (∀ frames, P (init frames)) →
  (∀ c s s', reachable resource s → P s → step resource c s = Some s' → P s') →
  ∀ s, reachable resource s → P s.
Proof.
  intros Hinit Hstep s (frames & sched & Hrun).
  revert s Hrun. induction sched as [|c sched IH] using rev_ind; intros s Hrun.
  - simpl in Hrun. by simplify_eq.
  - rewrite run_app in Hrun.
    destruct (run resource sched (init frames)) as [s0|] eqn:E; [|done].
    simpl in Hrun. destruct (step resource c s0) as [s1|] eqn:E1; [|done].
    simpl in Hrun. simplify_eq.
    eapply (Hstep c s0); [by exists frames, sched|by apply IH|done].
Qed.

(** What a step of a worker leaves alone: the variables of the receive loop.
    A worker writes [client.streaming] only to clear it. *)
Lemma worker_step_frame (i : nat) (ok : bool) (s s' : State) :
  worker_step resource i ok s = Some s' →
  hpc s' = hpc s ∧ inbound s' = inbound s ∧ stopCh s' = stopCh s
  ∧ closedCh s' = closedCh s ∧ nextCh s' = nextCh s
  ∧ connClosed s' = connClosed s
  ∧ length (workers s') = length (workers s)
  ∧ (streaming s' = streaming s ∨ streaming s' = false).
Proof.
  intros H. worker_cases H; st_simpl; rewrite ?length_insert; auto 10.
Qed.

(** ** The mutex invariant *)

Lemma lock_discipline_app (tr evs : list Event) :
  lock_discipline (tr ++ evs) = lock_from (lock_discipline tr) evs.
Proof. unfold lock_discipline, lock_from. by rewrite foldl_app. Qed.

Ltac lock_solve :=
  rewrite ?app_nil_r, <- ?app_assoc, ?lock_discipline_app;
  match goal with
  | |- context [lock_discipline ?tr] => destruct (lock_discipline tr) as [[[? []]|]|]
  end;
  cbn [lock_from foldl lock_event mbind option_bind app lock_op];
  repeat case_decide; cbn [mbind option_bind]; auto 10.

Lemma handler_step_others (ok : bool) (s s' : State) (i : nat) :
  handler_step ok s = Some s' →
  holds (Worker i) s' = holds (Worker i) s ∧ wrote (Worker i) s' = wrote (Worker i) s.
Proof.
  intros H. handler_cases H; try done.
  st_simpl. destruct (workers s !! i) as [w|] eqn:Hi.
  - by rewrite (lookup_app_l_Some _ _ _ _ Hi).
  - apply lookup_ge_None in Hi.
    destruct (decide (i = length (workers s))) as [->|].
    + by rewrite list_lookup_middle.
    + rewrite lookup_ge_None_2; [done|]. rewrite length_app. simpl. lia.
Qed.

Lemma handler_step_lock (ok : bool) (s s' : State) :
  handler_step ok s = Some s' → lock_effect Handler s s'.
Proof.
  intros H. handler_cases H; unfold lock_effect; st_simpl; rewrite ?Hpc; st_simpl.
  all: lock_solve.
Qed.

Lemma worker_step_others (i : nat) (ok : bool) (s s' : State) (t : Tid) :
  worker_step resource i ok s = Some s' → t ≠ Worker i →
  holds t s' = holds t s ∧ wrote t s' = wrote t s.
Proof.
  intros H Ht.
  assert (hpc s' = hpc s ∧ ∃ w, workers s' = <[i := w]> (workers s)) as [Hh [w Hw]].
  { worker_cases H; st_simpl; eauto. }
  destruct t as [|j]; st_simpl.
  - by rewrite Hh.
  - rewrite Hw, list_lookup_insert_ne by congruence. done.
Qed.

Lemma worker_step_lock (i : nat) (ok : bool) (s s' : State) :
  worker_step resource i ok s = Some s' → lock_effect (Worker i) s s'.
Proof.
  intros H. worker_cases H; unfold lock_effect; st_simpl;
    pose proof (lookup_lt_Some _ _ _ Hi) as Hlt;
    rewrite ?Hi, ?list_lookup_insert_eq by done; st_simpl; rewrite ?Hpc; st_simpl.
  all: lock_solve.
Qed.

Lemma step_lock (c : Choice) (s s' : State) :
  step resource c s = Some s' →
  lock_effect (who c) s s'
  ∧ ∀ t, t ≠ who c → holds t s' = holds t s ∧ wrote t s' = wrote t s.
Proof.
  unfold step. destruct c as [[|i] ok]; cbn [who sys_ok]; intros H.
  - split; [by eapply handler_step_lock|].
    intros [|j] Hj; [done|]. by eapply handler_step_others.
  - split; [by eapply worker_step_lock|].
    intros t Hj. by eapply worker_step_others.
Qed.

Lemma mutex_inv_init (frames : list Inbound) : mutex_inv (init frames).
Proof.
  split; [|done]. by intros [|i].
Qed.

Lemma mutex_inv_step (c : Choice) (s s' : State) :
  mutex_inv s → step resource c s = Some s' → mutex_inv s'.
Proof.
  intros [Hmu Hld] [Heff Hoth]%step_lock.
  set (t := who c) in *. unfold lock_effect in Heff. rewrite Hld in Heff.
  unfold mutex_inv, lock_view in *. cbn [mbind option_bind] in Heff.
  assert (∀ t', t' ≠ t → holds t' s' = true ↔ mu s = Some t') as Hother.
  { intros t' Hne. destruct (Hoth t' Hne) as [-> _]. apply Hmu. }
  destruct (holds t s) eqn:Hs, (holds t s') eqn:Hs'.
  - destruct Heff as [Hm Hw]. apply Hmu in Hs. rewrite Hm, Hs in *. split.
    + intros t'. destruct (decide (t' = t)) as [->|Hne]; [by rewrite Hs'|].
      by apply Hother.
    + destruct Hw as [[-> <-]|(Hw & -> & ->)]; [done|].
      rewrite Hw. cbn. by rewrite decide_True.
  - destruct Heff as [Hm ->]. apply Hmu in Hs. rewrite Hm, Hs in *. split.
    + intros t'. destruct (decide (t' = t)) as [->|Hne]; [by rewrite Hs'|].
      rewrite Hother by done. split; [congruence|done].
    + cbn. by rewrite decide_True.
  - destruct Heff as (Hm & Hm' & Hw & ->). rewrite Hm, Hm' in *. split.
    + intros t'. destruct (decide (t' = t)) as [->|Hne]; [by rewrite Hs'|].
      rewrite Hother by done. split; [done|congruence].
    + cbn. by rewrite Hw.
  - destruct Heff as [Hm ->].
    assert (mu s ≠ Some t) as Hn by (rewrite <- Hmu, Hs; done).
    rewrite Hm. split.
    + intros t'. destruct (decide (t' = t)) as [->|Hne]; [|by apply Hother].
      rewrite Hs'. split; [done|]. intros Heq. by destruct Hn.
    + f_equal. destruct (mu s) as [t'|]; [|done].
      destruct (Hoth t') as [_ ->]; [congruence|done].
Qed.

(** In every state of a connection the mutex is held by exactly the
    goroutine that is between its Lock and its Unlock, and the trace kept
    the lock discipline. *)
Lemma reachable_mutex_inv (s : State) : reachable resource s → mutex_inv s.
Proof.
  apply reachable_induction.
  - apply mutex_inv_init.
  - intros c s0 s1 _ IH Hstep. by eapply mutex_inv_step.
Qed.

(** ** The channel invariant *)

Lemma chan_inv_step (c : Choice) (s s' : State) :
  chan_inv s → step resource c s = Some s' → chan_inv s'.
Proof.
  intros (Hlt & Hcl & Hp & Hst & Hcc). unfold step.
  destruct c as [[|i] ok]; cbn [who sys_ok]; intros H.
  - handler_cases H; unfold chan_inv; st_simpl; rewrite ?Hpc in *.
    all: try (exfalso;
              match goal with
              | e : stopCh _ ∈ closedCh _ |- _ =>
                  destruct (Hst e) as [?|[? ?]]; congruence
              end).
    all: split_and!; try done; try lia; eauto.
    all: try (intros c' [->%elem_of_singleton|Hc']%elem_of_union;
              [lia|apply Hcl in Hc'; lia]).
    all: try (intros c' Hc'; apply Hcl in Hc'; lia).
    all: try (intros Hx; destruct (Hst Hx) as [?|[? ?]]; congruence).
    all: try (intros Hx; apply Hcc in Hx; congruence).
    all: try (intros Hx; apply Hcl in Hx; lia).
  - unfold chan_inv.
    destruct (worker_step_frame _ _ _ _ H) as (-> & _ & -> & -> & -> & -> & _).
    auto.
Qed.

Lemma reachable_chan_inv (s : State) : reachable resource s → chan_inv s.
Proof.
  apply reachable_induction.
  - intros frames. unfold chan_inv. simpl. split_and!; try done; [lia|set_solver..].
  - intros c s0 s1 _ IH Hstep. by eapply chan_inv_step.
Qed.

(** ** At most one write in flight *)

Lemma writing_holds (t : Tid) (s : State) :
  writing t s = true → holds t s = true.
Proof.
  destruct t as [|i]; simpl.
  - by destruct (hpc s) as [|[]| | | | | | | | | | | | | |[]| |].
  - destruct (workers s !! i) as [w|]; [|done]. simpl.
    by destruct (wpc w) as [|[]|[]| |[]| | | |[]| |[]| | | | | | |].
Qed.

(** C4. In every state of a connection, whatever frames arrived and
    however the goroutines were scheduled: a goroutine that is at its call
    of [conn.WriteMessage] holds [client.mu]; no two goroutines are there at
    once, so no two workers are; and in the trace every write was made by
    the goroutine that held the mutex then, as the only write between that
    Lock and its Unlock. *)
Theorem one_write_in_flight (s : State) :
  reachable resource s →
  (∀ t, writing t s = true → mu s = Some t)
  ∧ (∀ t1 t2, writing t1 s = true → writing t2 s = true → t1 = t2)
  ∧ (∀ i j, writing (Worker i) s = true → writing (Worker j) s = true → i = j)
  ∧ is_Some (lock_discipline (trace s)).
Proof.
  intros [Hmu Hld]%reachable_mutex_inv.
  assert (∀ t, writing t s = true → mu s = Some t) as Hw.
  { intros t Ht. by apply Hmu, writing_holds. }
  split_and!; [done| | |by rewrite Hld].
  - intros t1 t2 H1%Hw H2%Hw. congruence.
  - intros i j H1%Hw H2%Hw. congruence.
Qed.

End Reachable.

(** Symbolic execution of one step of the receive loop on a state given as
    a record. *)
Ltac hstep :=
  rewrite run_cons;
  cbn [step who sys_ok handler_step sendStatusMessage mbind option_bind andb negb
       Action Filename streaming stopCh mu closedCh nextCh inbound connClosed
       trace hpc workers String.eqb Ascii.eqb Bool.eqb];
  repeat match goal with
         | H : String.eqb ?a ?b = _ |- context [String.eqb ?a ?b] => rewrite H
         end;
  rewrite ?decide_False by done;
  cbn [mbind option_bind];
  st_norm.

(** Symbolic execution of one step of worker [length pre] on a state whose
    workers are [pre ++ w :: post]. *)
Lemma insert_middle {A} (l1 l2 : list A) (x y : A) :
  <[length l1 := y]> (l1 ++ x :: l2) = l1 ++ y :: l2.
Proof. by rewrite insert_app_r_alt, Nat.sub_diag. Qed.

Lemma lookup_middle {A} (l1 l2 : list A) (x : A) :
  (l1 ++ x :: l2) !! length l1 = Some x.
Proof. by apply list_lookup_middle. Qed.

Ltac wstep :=
  rewrite run_cons;
  cbn [step who sys_ok]; unfold worker_step; cbn [workers];
  rewrite lookup_middle;
  cbn [mbind option_bind wpc filename file sendStatusMessage andb negb
       streaming stopCh mu closedCh nextCh inbound connClosed trace hpc workers];
  repeat match goal with
         | H : ?r !! ?f = _ |- context [?r !! ?f] => rewrite H
         end;
  rewrite ?decide_False by done;
  cbn [mbind option_bind];
  st_norm;
  rewrite ?insert_middle.


Lemma bufferSize_pos : 0 < bufferSize.
Proof. apply Nat.ltb_lt. vm_compute. reflexivity. Qed.

Lemma solo_add t ok a b : solo t ok (a + b) = solo t ok a ++ solo t ok b.
Proof. apply replicate_add. Qed.

(** While every worker has returned, only the receive loop can take a
    step. *)
Lemma workers_done_lone (resource : Resources) (s : State) (c : Choice) :
  (∀ w, w ∈ workers s → wpc w = WDone) → who c ≠ Handler →
  step resource c s = None.
Proof.
  intros Hdone Hc. unfold step. destruct c as [[|j] ok]; cbn [who sys_ok] in *; [done|].
  unfold worker_step. destruct (workers s !! j) as [w|] eqn:Hj; [|done].
  cbn [mbind option_bind]. rewrite (Hdone w); [done|].
  by eapply list_elem_of_lookup_2.
Qed.

(** One step of a forced path of the receive loop. *)
Ltac fstep :=
  cbn [forced]; split; [intros ? ?; by apply workers_done_lone|];
  cbn [step who sys_ok handler_step sendStatusMessage mbind option_bind andb negb
       Action Filename streaming stopCh mu closedCh nextCh inbound connClosed
       trace hpc workers String.eqb Ascii.eqb Bool.eqb];
  repeat match goal with
         | H : String.eqb ?a ?b = _ |- context [String.eqb ?a ?b] => rewrite H
         end;
  rewrite ?decide_False by done;
  st_norm.

Section Session.

Variable resource : Resources.

(** ** A transfer, step by step *)

Lemma worker_eof (pre post : list WorkerState) (f : string)
    (str : bool) (ch : Chan) (cl : gset Chan) (nx : Chan) (inb : list Inbound)
    (hp : HandlerPC) (tr : list Event) :
  ch ∉ cl →
  run resource (solo (Worker (length pre)) true 7)
    (Build_State str ch None cl nx inb false tr hp
       (pre ++ {| filename := f; wpc := WSelect; file := [] |} :: post))
  = Some (Build_State false ch None cl nx inb false
            (tr ++ loop_events (Worker (length pre)) f []) hp
            (pre ++ {| filename := f; wpc := WDone; file := [] |} :: post)).
Proof.
  intros Hch. unfold solo; cbn [replicate]. do 7 wstep. cbn [run].
  unfold loop_events, send_events. cbn [fmap list_fmap concat app].
  rewrite <- ?app_assoc. reflexivity.
Qed.

Lemma worker_chunk (pre post : list WorkerState) (f : string)
    (str : bool) (ch : Chan) (cl : gset Chan) (nx : Chan) (inb : list Inbound)
    (hp : HandlerPC) (tr : list Event) (b : byte) (rem : list byte) :
  ch ∉ cl →
  run resource (solo (Worker (length pre)) true 7)
    (Build_State str ch None cl nx inb false tr hp
       (pre ++ {| filename := f; wpc := WSelect; file := b :: rem |} :: post))
  = Some (Build_State str ch None cl nx inb false
            (tr ++ chunk_events (Worker (length pre)) (take bufferSize (b :: rem))) hp
            (pre ++ {| filename := f; wpc := WSelect;
                       file := drop bufferSize (b :: rem) |} :: post)).
Proof.
  intros Hch. unfold solo; cbn [replicate]. do 7 wstep. cbn [run].
  unfold chunk_events. rewrite <- ?app_assoc. reflexivity.
Qed.

Lemma worker_loop (pre post : list WorkerState) (f : string)
    (str : bool) (ch : Chan) (cl : gset Chan) (nx : Chan) (inb : list Inbound)
    (hp : HandlerPC) (fuel : nat) :
  ch ∉ cl →
  ∀ (rem : list byte) (tr : list Event),
  length rem ≤ fuel →
  run resource (solo (Worker (length pre)) true
                  (7 * length (chunks_fuel fuel rem) + 7))
    (Build_State str ch None cl nx inb false tr hp
       (pre ++ {| filename := f; wpc := WSelect; file := rem |} :: post))
  = Some (Build_State false ch None cl nx inb false
            (tr ++ loop_events (Worker (length pre)) f (chunks_fuel fuel rem)) hp
            (pre ++ {| filename := f; wpc := WDone; file := [] |} :: post)).
Proof.
  intros Hch.
  induction fuel as [|fuel IH]; intros rem tr Hlen.
  - destruct rem; [|simpl in Hlen; lia]. by apply worker_eof.
  - destruct rem as [|b rem]; [by apply worker_eof|].
    cbn [chunks_fuel length].
    replace (7 * S (length (chunks_fuel fuel (drop bufferSize (b :: rem)))) + 7)
      with (7 + (7 * length (chunks_fuel fuel (drop bufferSize (b :: rem))) + 7)) by lia.
    rewrite solo_add, run_app, worker_chunk by done. cbn [mbind option_bind].
    rewrite IH.
    + unfold loop_events. cbn [fmap list_fmap concat].
      rewrite <- ?app_assoc. reflexivity.
    + rewrite length_drop. pose proof bufferSize_pos. simpl in *. lia.
Qed.

Lemma worker_not_found (pre post : list WorkerState) (f : string) (rem : list byte)
    (str : bool) (ch : Chan) (cl : gset Chan) (nx : Chan) (inb : list Inbound)
    (tr : list Event) (hp : HandlerPC) (ok : bool) :
  resource !! f = None →
  let i := length pre in
  run resource (solo (Worker i) ok 4)
    (Build_State str ch None cl nx inb false tr hp
       (pre ++ {| filename := f; wpc := WStat; file := rem |} :: post))
  = Some (Build_State str ch None cl nx inb false
            (tr ++ send_events (Worker i) ("Error: File " +:+ f +:+ " not found") ok) hp
            (pre ++ {| filename := f; wpc := WDone; file := rem |} :: post)).
Proof.
  intros Hres i. subst i. unfold solo; cbn [replicate].
  destruct ok; do 4 wstep; cbn [run]; unfold send_events; rewrite <- ?app_assoc;
    reflexivity.
Qed.

Lemma worker_prologue (pre post : list WorkerState) (f : string) (content rem : list byte)
    (str : bool) (ch : Chan) (cl : gset Chan) (nx : Chan) (inb : list Inbound)
    (hp : HandlerPC) (tr : list Event) :
  resource !! f = Some content →
  run resource (solo (Worker (length pre)) true 5)
    (Build_State str ch None cl nx inb false tr hp
       (pre ++ {| filename := f; wpc := WStat; file := rem |} :: post))
  = Some (Build_State str ch None cl nx inb false
            (tr ++ send_events (Worker (length pre)) ("Streaming " +:+ f) true
                ++ [EvLog (Worker (length pre)) (LogStreamingFile f (length content))]) hp
            (pre ++ {| filename := f; wpc := WSelect; file := content |} :: post)).
Proof.
  intros Hres. unfold solo; cbn [replicate]. do 5 wstep. cbn [run].
  unfold send_events. rewrite <- ?app_assoc. reflexivity.
Qed.

(* the receive loop on a start message *)
Lemma handler_start (m : Message) (rest : list Inbound) (ok : bool)
    (str : bool) (ch : Chan) (cl : gset Chan) (nx : Chan)
    (tr : list Event) (ws : list WorkerState) :
  Action m = "start" → Filename m ≠ "" → ch ∉ cl →
  run resource (solo Handler ok (if str then 8 else 4))
    (Build_State str ch None cl nx (InText (Some m) :: rest) false tr HRead ws)
  = Some (Build_State true (if str then nx else ch) None
            (if str then {[ch]} ∪ cl else cl) (if str then S nx else nx) rest false
            (tr ++ if str then [EvLock Handler; EvUnlock Handler] else []) HRead
            (ws ++ [{| filename := Filename m; wpc := WStat; file := [] |}])).
Proof.
  intros Hact Hfn%String.eqb_neq Hch. destruct m as [act fn].
  cbn [Action Filename] in *. subst act.
  unfold solo. destruct str; cbn [replicate].
  - do 8 hstep. cbn [run]. rewrite <- ?app_assoc. reflexivity.
  - do 4 hstep. cbn [run]. rewrite app_nil_r. reflexivity.
Qed.

Lemma chunks_fuel_concat (fuel : nat) (l : list byte) :
  length l ≤ fuel → concat (chunks_fuel fuel l) = l.
Proof.
  revert l. induction fuel as [|fuel IH]; intros l Hl.
  - destruct l; [done|simpl in Hl; lia].
  - destruct l as [|b l]; [done|]. cbn [chunks_fuel concat].
    rewrite IH.
    + apply take_drop.
    + rewrite length_drop. pose proof bufferSize_pos. simpl in *. lia.
Qed.

Lemma ceil_div_step (n c : nat) :
  0 < c → 0 < n → ceil_div n c = S (ceil_div (n - c) c).
Proof.
  intros Hc Hn. unfold ceil_div.
  destruct (decide (n ≤ c)) as [Hle|Hgt].
  - replace (n - c) with 0 by lia. cbn [Nat.add].
    rewrite (Nat.div_small (c - 1) c) by lia.
    symmetry. apply (Nat.div_unique _ _ 1 (n - 1)); lia.
  - replace (n + c - 1) with ((n - c + c - 1) + 1 * c) by lia.
    rewrite Nat.div_add by lia. lia.
Qed.

Lemma chunks_fuel_length (fuel : nat) (l : list byte) :
  length l ≤ fuel → length (chunks_fuel fuel l) = ceil_div (length l) bufferSize.
Proof.
  pose proof bufferSize_pos as Hpos.
  revert l. induction fuel as [|fuel IH]; intros l Hl.
  - destruct l; [|simpl in Hl; lia]. cbn [chunks_fuel length]. unfold ceil_div.
    symmetry. apply Nat.div_small. lia.
  - destruct l as [|b l].
    + cbn [chunks_fuel length]. unfold ceil_div. symmetry. apply Nat.div_small. lia.
    + cbn [chunks_fuel]. rewrite (length_cons (take bufferSize (b :: l))), IH.
      * rewrite length_drop. symmetry. apply ceil_div_step; [done|simpl; lia].
      * rewrite length_drop. simpl in *. lia.
Qed.

Lemma frames_sent_app (a b : list Event) :
  frames_sent (a ++ b) = frames_sent a ++ frames_sent b.
Proof. apply omap_app. Qed.

Lemma frames_sent_chunks (t : Tid) (cs : list (list byte)) :
  frames_sent (concat (chunk_events t <$> cs)) = BinaryMessage <$> cs.
Proof.
  induction cs as [|c cs IH]; [done|].
  cbn [fmap list_fmap concat]. rewrite frames_sent_app, IH. reflexivity.
Qed.

(** ** Schedules that leave no choice *)

Lemma forced_app (p q : list Choice) (s s1 : State) :
  forced resource p s → run resource p s = Some s1 → forced resource q s1 →
  forced resource (p ++ q) s.
Proof.
  revert s. induction p as [|c p IH]; intros s Hp Hrun Hq.
  - cbn in Hrun. by simplify_eq.
  - cbn [app forced] in *. destruct Hp as [Hlone Hp]. split; [done|].
    rewrite run_cons in Hrun.
    destruct (step resource c s) as [s2|]; [|done]. by apply IH.
Qed.

(** Every schedule of successful system calls that runs from [s] to a
    final state is the forced path. *)
Lemma forced_unique (path sched : list Choice) (s s1 s2 : State) :
  forced resource path s →
  Forall (λ c, sys_ok c = true) path →
  Forall (λ c, sys_ok c = true) sched →
  run resource path s = Some s1 → final resource s1 →
  run resource sched s = Some s2 → final resource s2 →
  sched = path ∧ s2 = s1.
Proof.
  revert sched s. induction path as [|c path IH]; intros sched s Hf Hok Hok' Hp Hf1 Hs Hf2.
  - cbn in Hp. simplify_eq. destruct sched as [|c' sched]; [by cbn in Hs; simplify_eq|].
    rewrite run_cons, Hf1 in Hs. done.
  - destruct sched as [|c' sched].
    + cbn in Hs. simplify_eq. rewrite run_cons, Hf2 in Hp. done.
    + cbn [forced] in Hf. destruct Hf as [Hlone Hf].
      rewrite run_cons in Hp, Hs.
      apply Forall_cons in Hok as [Hc Hok]. apply Forall_cons in Hok' as [Hc' Hok'].
      assert (c' = c) as ->.
      { destruct (decide (who c' = who c)) as [Hw|Hw].
        - destruct c, c'. cbn in *. congruence.
        - rewrite (Hlone c' Hw) in Hs. done. }
      destruct (step resource c s) as [s3|]; [|done].
      cbn [mbind option_bind] in *.
      destruct (IH sched s3) as [-> ->]; done.
Qed.

Lemma alone_lone (i : nat) (s : State) (c : Choice) :
  alone i s → who c ≠ Worker i → step resource c s = None.
Proof.
  intros (Hpc & Hin & Hw) Hc. unfold step. destruct c as [[|j] ok]; cbn [who sys_ok] in *.
  - unfold handler_step. by rewrite Hpc, Hin.
  - unfold worker_step. destruct (workers s !! j) as [w|] eqn:Hj; [|done].
    cbn [mbind option_bind]. rewrite (Hw j w); [done|by intros ->|done].
Qed.

Lemma alone_step (i : nat) (ok : bool) (s s' : State) :
  alone i s → worker_step resource i ok s = Some s' → alone i s'.
Proof.
  intros (Hpc & Hin & Hw) H.
  destruct (worker_step_frame _ _ _ _ _ H) as (Hpc' & Hin' & _).
  split_and!; [congruence|congruence|].
  intros j w Hj Hl. apply (Hw j w Hj).
  assert (∃ w', workers s' = <[i := w']> (workers s)) as [w' Hw'].
  { worker_cases H; st_simpl; eauto. }
  rewrite Hw', list_lookup_insert_ne in Hl by done. done.
Qed.

Lemma alone_forced (i : nat) (n : nat) (s s' : State) :
  alone i s → run resource (solo (Worker i) true n) s = Some s' →
  forced resource (solo (Worker i) true n) s.
Proof.
  revert s. induction n as [|n IH]; intros s Ha Hrun; [done|].
  unfold solo in *. cbn [replicate forced] in *. split.
  - intros c' Hc'. by eapply alone_lone.
  - rewrite run_cons in Hrun.
    destruct (step resource _ s) as [s1|] eqn:Hs; [|done].
    cbn [mbind option_bind] in Hrun.
    eapply IH; [|done]. exact (alone_step i true s s1 Ha Hs).
Qed.

Lemma handler_start_forced (m : Message) (rest : list Inbound)
    (str : bool) (ch : Chan) (cl : gset Chan) (nx : Chan)
    (tr : list Event) (ws : list WorkerState) :
  Action m = "start" → Filename m ≠ "" → ch ∉ cl →
  (∀ w, w ∈ ws → wpc w = WDone) →
  forced resource (solo Handler true (if str then 8 else 4))
    (Build_State str ch None cl nx (InText (Some m) :: rest) false tr HRead ws).
Proof.
  intros Hact Hfn%String.eqb_neq Hch Hdone. destruct m as [act fn].
  cbn [Action Filename] in *. subst act.
  unfold solo. destruct str; cbn [replicate].
  - do 8 fstep. done.
  - do 4 fstep. done.
Qed.

(** C2, amended.  A start message for a file of [resource], on a session
    on which every earlier worker has returned and which receives nothing
    more, with every system call succeeding.  The receive loop and the worker it spawns run
    to a state in which no goroutine has a step left, and every schedule
    that runs to such a state is this one.  The frames sent are the status
    "Streaming <name>", then one binary frame per chunk of the file,
    [ceil(N / 8192)] of them, whose concatenation is the file, then the
    status "Streaming finished"; [client.streaming] is false at the end. *)
Theorem complete_transfer (s : State) (m : Message) (content : list byte) :
  reachable resource s →
  hpc s = HRead →
  inbound s = [InText (Some m)] →
  Action m = "start" →
  Filename m ≠ "" →
  (∀ w, w ∈ workers s → wpc w = WDone) →
  resource !! Filename m = Some content →
  let t := Worker (length (workers s)) in
  ∃ s' evs,
    run resource (solo Handler true (if streaming s then 8 else 4)
                  ++ solo t true (5 + (7 * length (chunks content) + 7))) s = Some s'
    ∧ final resource s'
    ∧ (∀ sched s'',
         Forall (λ c, sys_ok c = true) sched →
         run resource sched s = Some s'' → final resource s'' → s'' = s')
    ∧ trace s' = trace s ++ evs
    ∧ frames_sent evs
      = [status ("Streaming " +:+ Filename m)]
        ++ (BinaryMessage <$> chunks content) ++ [status "Streaming finished"]
    ∧ length (chunks content) = ceil_div (length content) bufferSize
    ∧ bufferSize = 8192
    ∧ concat (chunks content) = content
    ∧ streaming s' = false
    ∧ workers s' !! length (workers s)
      = Some {| filename := Filename m; wpc := WDone; file := [] |}.
Proof.
  intros Hr Hpc Hin Hact Hfn Hdone Hres t.
  destruct (reachable_chan_inv _ _ Hr) as (Hlt & Hcl & Hp & Hst & Hcc).
  destruct (reachable_mutex_inv _ _ Hr) as [Hmu _].
  assert (stopCh s ∉ closedCh s) as Hopen.
  { intros [?|[? ?]]%Hst; congruence. }
  assert (connClosed s = false) as Hconn.
  { destruct (connClosed s); [|done]. rewrite Hcc in Hpc; done. }
  assert (mu s = None) as Hfree.
  { destruct (mu s) as [t0|]; [exfalso|done].
    assert (holds t0 s = true) as Hm by (by apply Hmu).
    destruct t0 as [|j]; cbn [holds] in Hm.
    - by rewrite Hpc in Hm.
    - destruct (workers s !! j) as [w|] eqn:Hj; [|done].
      cbn [from_option] in Hm.
      rewrite (Hdone w) in Hm; [done|]. by eapply list_elem_of_lookup_2. }
  subst t. clear Hr Hmu.
  destruct s as [str ch m0 cl nx inb cc tr hp ws].
  cbn [hpc inbound streaming mu stopCh closedCh nextCh connClosed workers trace] in *.
  subst.
  assert ((if str then nx else ch) ∉ (if str then {[ch]} ∪ cl else cl)) as Hopen'.
  { destruct str; [|done].
    intros [Hx%elem_of_singleton|Hx%Hcl]%elem_of_union; lia. }
  pose proof (handler_start m [] true str ch cl nx tr ws Hact Hfn Hopen) as Hstart.
  set (s2 := Build_State true (if str then nx else ch) None
               (if str then {[ch]} ∪ cl else cl) (if str then S nx else nx) [] false
               (tr ++ (if str then [EvLock Handler; EvUnlock Handler] else [])) HRead
               (ws ++ [{| filename := Filename m; wpc := WStat; file := [] |}]))
    in *.
  set (n := 5 + (7 * length (chunks content) + 7)).
  assert (∃ s', run resource (solo (Worker (length ws)) true n) s2 = Some s'
                ∧ s' = Build_State false (if str then nx else ch) None
                         (if str then {[ch]} ∪ cl else cl) (if str then S nx else nx)
                         [] false
                         (((tr ++ (if str then [EvLock Handler; EvUnlock Handler] else []))
                           ++ send_events (Worker (length ws))
                                ("Streaming " +:+ Filename m) true
                           ++ [EvLog (Worker (length ws))
                                 (LogStreamingFile (Filename m) (length content))])
                          ++ loop_events (Worker (length ws)) (Filename m)
                               (chunks content)) HRead
                         (ws ++ [{| filename := Filename m; wpc := WDone; file := [] |}]))
    as (s' & Hwork & Hs').
  { eexists. split; [|reflexivity]. subst n s2.
    rewrite solo_add, run_app.
    rewrite (worker_prologue ws [] _ content) by done. cbn [mbind option_bind].
    unfold chunks. by rewrite (worker_loop ws []). }
  assert (run resource (solo Handler true (if str then 8 else 4)
                        ++ solo (Worker (length ws)) true n)
            (Build_State str ch None cl nx [InText (Some m)] false tr HRead ws)
          = Some s') as Hrun.
  { by rewrite run_app, Hstart. }
  assert (final resource s') as Hfinal.
  { subst s'. intros [[|j] ok]; unfold step; cbn [who sys_ok]; [done|].
    unfold worker_step. cbn [workers].
    destruct ((ws ++ _) !! j) as [w|] eqn:Hj; [|done]. cbn [mbind option_bind].
    apply lookup_app_Some in Hj as [Hj|[_ Hj]].
    + rewrite (Hdone w); [done|]. by eapply list_elem_of_lookup_2.
    + apply list_lookup_singleton_Some in Hj as [_ <-]. done. }
  exists s'. eexists. split; [exact Hrun|]. split; [exact Hfinal|]. split.
  { intros sched s'' Hok Hrun'' Hfinal''.
    eapply (forced_unique _ sched); [|..|exact Hrun|exact Hfinal|exact Hrun''|exact Hfinal''].
    - eapply forced_app; [by apply handler_start_forced|exact Hstart|].
      eapply alone_forced; [|exact Hwork].
      subst s2. split_and!; [done|done|]. cbn [workers].
      intros j w Hj [Hw|[Hle Hw]]%lookup_app_Some.
      + apply Hdone. by eapply list_elem_of_lookup_2.
      + apply list_lookup_singleton_Some in Hw as [Hw _]. lia.
    - apply Forall_app. split; by apply Forall_replicate.
    - done. }
  subst s'. cbn [trace streaming workers].
  split_and!.
  - rewrite <- !app_assoc. reflexivity.
  - rewrite !frames_sent_app. unfold loop_events.
    rewrite !frames_sent_app, frames_sent_chunks. by destruct str.
  - by apply chunks_fuel_length.
  - with_strategy transparent [bufferSize] reflexivity.
  - by apply chunks_fuel_concat.
  - reflexivity.
  - by apply list_lookup_middle.
Qed.

(** ** A file that does not exist *)

(** C1, as the code has it.  A start message for a file that is not in
    [resource], on an idle session with no other transfer under way: the
    worker writes the status "Error: File <name> not found", once, and
    returns; then no goroutine can take a step, and [client.streaming] is
    still true, as line 189 set it. *)
Theorem missing_file (s : State) (m : Message) (ok : bool) :
  reachable resource s →
  hpc s = HRead →
  inbound s = [InText (Some m)] →
  Action m = "start" →
  Filename m ≠ "" →
  streaming s = false →
  (∀ w, w ∈ workers s → wpc w = WDone) →
  resource !! Filename m = None →
  let t := Worker (length (workers s)) in
  let evs := send_events t ("Error: File " +:+ Filename m +:+ " not found") ok in
  ∃ s',
    run resource (solo Handler ok 4 ++ solo t ok 4) s = Some s'
    ∧ trace s' = trace s ++ evs
    ∧ writes_by t evs = [status ("Error: File " +:+ Filename m +:+ " not found")]
    ∧ workers s' !! length (workers s)
      = Some {| filename := Filename m; wpc := WDone; file := [] |}
    ∧ final resource s'
    ∧ streaming s' = true.
Proof.
  intros Hr Hpc Hin Hact Hfn Hstr Hdone Hres t evs.
  destruct (reachable_chan_inv _ _ Hr) as (Hlt & Hcl & Hp & Hst & Hcc).
  destruct (reachable_mutex_inv _ _ Hr) as [Hmu _].
  assert (stopCh s ∉ closedCh s) as Hopen.
  { intros [?|[? ?]]%Hst; congruence. }
  assert (connClosed s = false) as Hconn.
  { destruct (connClosed s); [|done]. rewrite Hcc in Hpc; done. }
  assert (mu s = None) as Hfree.
  { destruct (mu s) as [t0|]; [exfalso|done].
    assert (holds t0 s = true) as Hm by (by apply Hmu).
    destruct t0 as [|j]; cbn [holds] in Hm.
    - by rewrite Hpc in Hm.
    - destruct (workers s !! j) as [w|] eqn:Hj; [|done].
      cbn [from_option] in Hm.
      rewrite (Hdone w) in Hm; [done|]. by eapply list_elem_of_lookup_2. }
  subst t evs.
  destruct s as [str ch m0 cl nx inb cc tr hp ws].
  cbn [hpc inbound streaming mu stopCh closedCh nextCh connClosed workers trace] in *.
  subst.
  eexists. split.
  { rewrite run_app, (handler_start m _ _ false) by done. cbn [mbind option_bind].
    rewrite app_nil_r. by rewrite (worker_not_found ws []). }
  cbn [trace streaming workers]. split_and!; try done.
  - destruct ok; cbn; by rewrite decide_True.
  - by apply list_lookup_middle.
  - intros [[|j] ok']; unfold step; cbn [who sys_ok]; [done|].
    unfold worker_step. cbn [workers].
    destruct ((ws ++ _) !! j) as [w|] eqn:Hj; [|done]. cbn [mbind option_bind].
    apply lookup_app_Some in Hj as [Hj|[_ Hj]].
    + rewrite (Hdone w); [done|]. by eapply list_elem_of_lookup_2.
    + apply list_lookup_singleton_Some in Hj as [_ <-]. done.
Qed.

(** ** The events of a step *)

Lemma step_events (c : Choice) (s s' : State) :
  step resource c s = Some s' →
  ∃ evs, trace s' = trace s ++ evs
         ∧ Forall emitted_status evs
         ∧ ∀ t, t ≠ who c → writes_by t evs = [].
Proof.
  unfold step. destruct c as [[|i] ok]; cbn [who sys_ok]; intros H.
  - handler_cases H; st_simpl.
    all: first [ exists []; split; [by rewrite app_nil_r|]
               | eexists; split; [rewrite <- ?app_assoc; reflexivity|] ].
    all: split; [repeat constructor|intros t Ht; cbn; by rewrite ?decide_False by done].
    all: eexists; split; [reflexivity|left; eexists; split; [constructor|done]].
  - worker_cases H; st_simpl.
    all: first [ exists []; split; [by rewrite app_nil_r|]
               | eexists; split; [rewrite <- ?app_assoc; reflexivity|] ].
    all: split; [repeat constructor|intros t Ht; cbn; by rewrite ?decide_False by done].
    all: eexists; split; [reflexivity|].
    all: first [ right; reflexivity | left; eexists; split; [constructor|done] ].
Qed.

(** C8, amended.  Every text frame handed to [conn.WriteMessage], in every
    state of a connection, is the JSON object [{"type":"status","data":m}]
    where [m] is one of the texts with an enumerated kind, never the
    write-error kind, or is "Error opening audio file". *)
Theorem status_frames (s : State) :
  reachable resource s → Forall emitted_status (trace s).
Proof.
  revert s. apply (reachable_induction resource (λ s, Forall emitted_status (trace s))).
  - intros frames. constructor.
  - intros c s0 s1 _ IH (evs & -> & Hevs & _)%step_events.
    by apply Forall_app.
Qed.

Lemma step_other_worker (c : Choice) (s s' : State) (i : nat) (w : WorkerState) :
  step resource c s = Some s' → who c ≠ Worker i →
  workers s !! i = Some w → workers s' !! i = Some w.
Proof.
  unfold step. destruct c as [[|j] ok]; cbn [who sys_ok]; intros H Hne Hw.
  - handler_cases H; st_simpl; try done. by apply lookup_app_l_Some.
  - worker_cases H; st_simpl; rewrite list_lookup_insert_ne by congruence; done.
Qed.

Lemma step_gave_up (c : Choice) (s s' : State) (i : nat) (w : WorkerState) :
  step resource c s = Some s' →
  workers s !! i = Some w → gave_up (wpc w) = true →
  ∃ w' evs, workers s' !! i = Some w' ∧ gave_up (wpc w') = true
            ∧ trace s' = trace s ++ evs ∧ writes_by (Worker i) evs = [].
Proof.
  intros H Hw Hg. destruct (decide (who c = Worker i)) as [Hc|Hc].
  - destruct c as [t ok]. cbn [who] in Hc. subst t.
    unfold step in H. cbn [who sys_ok] in H.
    pose proof (lookup_lt_Some _ _ _ Hw) as Hlt.
    worker_cases H; rewrite Hpc in Hg; try done; st_simpl;
      rewrite list_lookup_insert_eq by done.
    + eexists _, _. split_and!; [done|done|by rewrite <- app_assoc|done].
    + eexists _, []. split_and!; [done|done|by rewrite app_nil_r|done].
  - destruct (step_events _ _ _ H) as (evs & Htr & _ & Hwr).
    exists w, evs. split_and!; [|done|done|by apply Hwr].
    by eapply step_other_worker.
Qed.

Lemma run_gave_up (sched : list Choice) (s s' : State) (i : nat) (w : WorkerState) :
  run resource sched s = Some s' →
  workers s !! i = Some w → gave_up (wpc w) = true →
  ∃ evs, trace s' = trace s ++ evs ∧ writes_by (Worker i) evs = [].
Proof.
  revert s w. induction sched as [|c sched IH]; intros s w Hrun Hw Hg.
  - cbn in Hrun. simplify_eq. exists []. by rewrite app_nil_r.
  - rewrite run_cons in Hrun.
    destruct (step resource c s) as [s1|] eqn:Hstep; [|done].
    cbn [mbind option_bind] in Hrun.
    destruct (step_gave_up _ _ _ _ _ Hstep Hw Hg) as (w' & evs & Hw' & Hg' & Htr & Hwr).
    destruct (IH _ _ Hrun Hw' Hg') as (evs' & Htr' & Hwr').
    exists (evs ++ evs'). split.
    + by rewrite Htr', Htr, app_assoc.
    + unfold writes_by in *. by rewrite omap_app, Hwr, Hwr'.
Qed.

(** C10.  A worker whose [conn.WriteMessage] fails on a chunk, because the
    system call fails or the connection is closed: the failed write is the
    only event of that step; the worker's next two steps unlock, log, clear
    [client.streaming] and return, after which it has no step left; and
    however the goroutines are scheduled from the failure on, the worker
    hands nothing more to [conn.WriteMessage], neither the chunk again nor
    a status message. *)
Theorem chunk_write_failure (s : State) (i : nat) (w : WorkerState)
    (chunk : list byte) (ok : bool) :
  workers s !! i = Some w →
  wpc w = WChunkWrite chunk →
  ok && negb (connClosed s) = false →
  ∃ s1,
    step resource {| who := Worker i; sys_ok := ok |} s = Some s1
    ∧ trace s1 = trace s ++ [EvWrite (Worker i) (BinaryMessage chunk) false]
    ∧ (∀ ok', ∃ s3,
         run resource (solo (Worker i) ok' 2) s1 = Some s3
         ∧ trace s3 = trace s1 ++ [EvUnlock (Worker i); EvLog (Worker i) LogWrite]
         ∧ streaming s3 = false
         ∧ wpc <$> workers s3 !! i = Some WDone
         ∧ ∀ ok'', step resource {| who := Worker i; sys_ok := ok'' |} s3 = None)
    ∧ (∀ sched s2,
         run resource sched s1 = Some s2 →
         ∃ evs, trace s2 = trace s1 ++ evs ∧ writes_by (Worker i) evs = []).
Proof.
  intros Hw Hpc Hfail.
  apply list_elem_of_split_length in Hw as (pre & post & Hws & ->).
  destruct s as [str ch m0 cl nx inb cc tr hp ws], w as [f p rem].
  cbn [workers wpc connClosed] in *. subst.
  eexists. split.
  { unfold step; cbn [who sys_ok]. unfold worker_step. cbn [workers].
    rewrite lookup_middle. cbn [mbind option_bind wpc filename file connClosed].
    rewrite Hfail. st_norm. rewrite insert_middle. reflexivity. }
  cbn [trace negb]. split_and!.
  - reflexivity.
  - intros ok'. eexists. split.
    { unfold solo; cbn [replicate]. do 2 wstep. cbn [run]. reflexivity. }
    cbn [trace streaming workers]. split_and!.
    + by rewrite <- !app_assoc.
    + reflexivity.
    + by rewrite lookup_middle.
    + intros ok''. unfold step; cbn [who sys_ok]. unfold worker_step. cbn [workers].
      by rewrite lookup_middle.
  - intros sched s2 Hrun.
    exact (run_gave_up sched _ s2 (length pre) _ Hrun (lookup_middle _ _ _) eq_refl).
Qed.

(** ** The receive loop among the workers *)

Lemma worker_step_moved (i : nat) (ok : bool) (s s' : State) :
  worker_step resource i ok s = Some s' → worker_moved s s'.
Proof.
  intros H. unfold worker_moved.
  destruct (worker_step_frame _ _ _ _ _ H) as (? & ? & ? & ? & ? & ? & ? & ?).
  split_and!; try done.
  destruct (step_events {| who := Worker i; sys_ok := ok |} s s' H)
    as (evs & Htr & _ & Hwr).
  exists evs. split; [done|]. by apply Hwr.
Qed.

(** A property indexed by the number of steps the receive loop has taken:
    if the steps of the workers keep it and the [k]-th step of the loop
    leads from [P k] to [P (S k)], a schedule with [n] steps of the loop
    leads from [P k] to [P (k + n)]. *)
Lemma handler_path (P : nat → State → Prop) (bound : nat) :
  (∀ k s s', P k s → worker_moved s s' → P k s') →
  (∀ k s ok s', k < bound → P k s → handler_step ok s = Some s' → P (S k) s') →
  ∀ sched n k s s',
    P k s → run resource sched s = Some s' → handler_steps sched = n →
    k + n ≤ bound → P (k + n) s'.
Proof.
  intros HW HH sched.
  induction sched as [|[[|i] ok] sched IH]; intros n k s s' HP Hrun Hn Hb.
  - cbn in Hrun, Hn. simplify_eq. by rewrite Nat.add_0_r.
  - rewrite run_cons in Hrun. unfold step in Hrun. cbn [who sys_ok] in Hrun.
    destruct (handler_step ok s) as [s1|] eqn:Hs; [|done].
    cbn [mbind option_bind] in Hrun.
    unfold handler_steps in Hn. rewrite filter_cons_True in Hn by done.
    cbn [length] in Hn. destruct n as [|n]; [done|].
    replace (k + S n) with (S k + n) by lia.
    eapply IH; [eapply HH; [|done..]|done| |]; unfold handler_steps; lia.
  - rewrite run_cons in Hrun. unfold step in Hrun. cbn [who sys_ok] in Hrun.
    destruct (worker_step resource i ok s) as [s1|] eqn:Hs; [|done].
    cbn [mbind option_bind] in Hrun.
    unfold handler_steps in Hn. rewrite filter_cons_False in Hn by done.
    eapply IH; [|done|done|done]. eapply HW; [done|]. by eapply worker_step_moved.
Qed.

Lemma writes_by_app (t : Tid) (a b : list Event) :
  writes_by t (a ++ b) = writes_by t a ++ writes_by t b.
Proof. apply omap_app. Qed.

Lemma stopping_worker (s0 : State) (k : nat) (s s' : State) :
  stopping s0 k s → worker_moved s s' → stopping s0 k s'.
Proof.
  unfold stopping.
  intros (Hpc & Hin & Hlen & Hcl & Hch & Hnx & Hstr & evs & Htr & Hwr)
         (-> & -> & -> & -> & -> & _ & -> & Hs & evs' & -> & Hwr').
  split_and!; try done.
  - intros Hk. destruct Hs as [->| ->]; auto.
  - exists (evs ++ evs'). rewrite Htr, <- app_assoc, writes_by_app, Hwr, Hwr'.
    by rewrite app_nil_r.
Qed.

Lemma stopping_handler (s0 : State) (k : nat) (s : State) (ok : bool) (s' : State) :
  stopCh s0 ∉ closedCh s0 →
  1 ≤ k < 9 → stopping s0 k s → handler_step ok s = Some s' → stopping s0 (S k) s'.
Proof.
  intros Hopen Hk (Hpc & Hin & Hlen & Hcl & Hch & Hnx & Hstr & evs & Htr & Hwr) H.
  unfold handler_step in H. rewrite Hpc in H.
  assert (k = 1 ∨ k = 2 ∨ k = 3 ∨ k = 4 ∨ k = 5 ∨ k = 6 ∨ k = 7 ∨ k = 8) as Hk'
    by lia.
  clear Hk. destruct_or! Hk'; subst k.
  all: repeat (rewrite decide_True in * by lia).
  all: repeat (rewrite decide_False in * by lia).
  all: cbn [stop_pc] in H; cases_in H.
  all: try (exfalso; rewrite Hch, Hcl in *; done).
  all: unfold stopping; st_simpl.
  all: repeat (rewrite decide_True by lia).
  all: repeat (rewrite decide_False by lia).
  all: split_and!; try done; try lia; try congruence.
  all: try (intros _; apply Hstr; lia).
  all: eexists; split; [rewrite Htr, <- ?app_assoc; reflexivity|].
  all: rewrite ?writes_by_app, Hwr; reflexivity.
Qed.

Lemma handler_steps_solo (ok : bool) (n : nat) : handler_steps (solo Handler ok n) = n.
Proof.
  unfold handler_steps, solo. induction n as [|n IH]; [done|].
  cbn [replicate]. rewrite filter_cons_True by done. cbn [length]. by rewrite IH.
Qed.

Lemma refusing_worker (s0 : State) (rest : list Inbound) (k : nat) (s s' : State) :
  refusing s0 rest k s → worker_moved s s' → refusing s0 rest k s'.
Proof.
  unfold refusing.
  intros (Hpc & Hin & Hlen & Hcl & Hch & Hnx & Hstr & evs & Htr & Hwr)
         (-> & -> & -> & -> & -> & _ & -> & Hs & evs' & -> & Hwr').
  split_and!; try done.
  - destruct Hs as [->| ->]; auto.
  - exists (evs ++ evs'). rewrite Htr, <- app_assoc, writes_by_app, Hwr, Hwr'.
    by rewrite app_nil_r.
Qed.

Lemma refusing_handler (s0 : State) (m : Message) (rest : list Inbound) (k : nat)
    (s : State) (ok : bool) (s' : State) :
  inbound s0 = InText (Some m) :: rest → Action m = "start" → Filename m = "" →
  k < 4 → refusing s0 rest k s → handler_step ok s = Some s' →
  refusing s0 rest (S k) s'.
Proof.
  intros Hin0 Hact Hfn Hk
    (Hpc & Hin & Hlen & Hcl & Hch & Hnx & Hstr & evs & Htr & Hwr) H.
  unfold handler_step in H. rewrite Hpc in H.
  assert (k = 0 ∨ k = 1 ∨ k = 2 ∨ k = 3) as Hk' by lia.
  clear Hk. destruct_or! Hk'; subst k.
  all: repeat (rewrite decide_True in * by lia).
  all: repeat (rewrite decide_False in * by lia).
  all: cbn [refuse_pc] in H.
  all: try (rewrite Hin, Hin0, Hact, Hfn in H; cbn [String.eqb Ascii.eqb Bool.eqb] in H).
  all: cases_in H.
  all: unfold refusing; st_simpl.
  all: repeat (rewrite decide_True by lia).
  all: repeat (rewrite decide_False by lia).
  all: split_and!; try done; try lia; try congruence.
  all: eexists; split; [rewrite Htr, <- ?app_assoc; reflexivity|].
  all: rewrite ?writes_by_app, Hwr; reflexivity.
Qed.

Lemma idling_worker (s0 : State) (rest : list Inbound) (k : nat) (s s' : State) :
  idling s0 rest k s → worker_moved s s' → idling s0 rest k s'.
Proof.
  unfold idling.
  intros (Hpc & Hin & Hlen & Hcl & Hch & Hnx & Hstr & evs & Htr & Hwr)
         (-> & -> & -> & -> & -> & _ & -> & Hs & evs' & -> & Hwr').
  split_and!; try done.
  - destruct Hs as [->| ->]; auto.
  - exists (evs ++ evs'). rewrite Htr, <- app_assoc, writes_by_app, Hwr, Hwr'.
    done.
Qed.

Lemma idling_handler (s0 : State) (m : Message) (rest : list Inbound) (k : nat)
    (s : State) (ok : bool) (s' : State) :
  inbound s0 = InText (Some m) :: rest → Action m = "stop" →
  k < 2 → idling s0 rest k s → handler_step ok s = Some s' →
  idling s0 rest (S k) s'.
Proof.
  intros Hin0 Hact Hk
    (Hpc & Hin & Hlen & Hcl & Hch & Hnx & Hstr & evs & Htr & Hwr) H.
  unfold handler_step in H. rewrite Hpc in H.
  assert (k = 0 ∨ k = 1) as Hk' by lia.
  clear Hk. destruct_or! Hk'; subst k.
  all: repeat (rewrite decide_True in * by lia).
  all: repeat (rewrite decide_False in * by lia).
  all: cbn [idle_pc] in H.
  all: try (rewrite Hin, Hin0, Hact in H; cbn [String.eqb Ascii.eqb Bool.eqb] in H).
  all: try rewrite Hstr in H.
  all: cases_in H.
  all: unfold idling; st_simpl.
  all: repeat (rewrite decide_True by lia).
  all: repeat (rewrite decide_False by lia).
  all: split_and!; try done; try lia; try congruence.
  all: eexists; split; [rewrite Htr, <- ?app_assoc; reflexivity|].
  all: rewrite ?writes_by_app, Hwr; reflexivity.
Qed.

(** ** The receive loop on one message *)

(** C5. A stop message that finds [client.streaming] true.  Alone, once
    the mutex is free, the receive loop goes from this [conn.ReadMessage]
    to the next in ten steps.  Under every schedule in which it takes these
    ten steps, the workers running in between as they may: it has closed
    the current [client.stopCh], stored in its place a channel that [make]
    just returned (another one, and open), cleared [client.streaming], and
    called [conn.WriteMessage] exactly once, with the status
    "Streaming stopped". *)
Theorem stop_when_streaming (s : State) (m : Message) (rest : list Inbound) (ok : bool) :
  reachable resource s →
  hpc s = HRead →
  inbound s = InText (Some m) :: rest →
  Action m = "stop" →
  streaming s = true →
  (mu s = None →
   ∃ s', run resource (solo Handler ok 10) s = Some s'
         ∧ trace s' = trace s ++ [EvLock Handler; EvUnlock Handler]
                      ++ send_events Handler "Streaming stopped" ok)
  ∧ ∀ sched s',
      run resource (solo Handler ok 2 ++ sched) s = Some s' →
      handler_steps sched = 8 →
      closedCh s' = {[stopCh s]} ∪ closedCh s
      ∧ streaming s' = false
      ∧ stopCh s' = nextCh s ∧ stopCh s' ≠ stopCh s ∧ (stopCh s' ∉ closedCh s')
      ∧ (∃ evs, trace s' = trace s ++ evs
                ∧ writes_by Handler evs = [status "Streaming stopped"])
      ∧ hpc s' = HRead ∧ inbound s' = rest
      ∧ length (workers s') = length (workers s).
Proof.
  intros Hr Hpc Hin Hact Hstr.
  destruct (reachable_chan_inv _ _ Hr) as (Hlt & Hcl & Hp & Hst & Hcc).
  assert (stopCh s ∉ closedCh s) as Hopen.
  { intros [?|[? ?]]%Hst; congruence. }
  assert (connClosed s = false) as Hconn.
  { destruct (connClosed s); [|done]. rewrite Hcc in Hpc; done. }
  assert (run resource (solo Handler ok 2) s
          = Some (set_hpc HStopLock (set_inbound rest s))) as Hfirst.
  { clear Hr. destruct s as [str ch m0 cl nx inb cc tr hp ws], m as [act fn].
    cbn [hpc inbound Action streaming] in *. subst.
    unfold solo; cbn [replicate]. do 2 hstep. reflexivity. }
  split.
  - intros Hmu. clear Hr Hfirst.
    destruct s as [str ch m0 cl nx inb cc tr hp ws], m as [act fn].
    cbn [hpc inbound Action streaming mu stopCh closedCh nextCh connClosed trace] in *.
    subst.
    exists (Build_State false nx None ({[ch]} ∪ cl) (S nx) rest false
              (tr ++ [EvLock Handler; EvUnlock Handler]
                  ++ send_events Handler "Streaming stopped" ok) HRead ws).
    split; [|reflexivity].
    unfold solo; cbn [replicate]. destruct ok; do 10 hstep; cbn [run];
      unfold send_events; rewrite <- ?app_assoc; reflexivity.
  - intros sched s' Hrun Hn.
    rewrite run_app, Hfirst in Hrun. cbn [mbind option_bind] in Hrun.
    set (s0 := set_inbound rest s).
    assert (stopCh s0 ∉ closedCh s0) as Hopen0 by done.
    pose proof (handler_path (λ k s, 1 ≤ k ∧ stopping s0 k s) 9) as Hpath.
    destruct (Hpath) with (sched := sched) (n := 8) (k := 1)
                          (s := set_hpc HStopLock s0) (s' := s')
      as [_ (Hpc' & Hin' & Hlen & Hcl' & Hch' & Hnx' & Hstr' & evs & Htr & Hwr)];
      try done; try lia.
    + intros k s1 s2 [Hk Hs1] Hmv. split; [done|]. by eapply stopping_worker.
    + intros k s1 ok1 s2 Hk [Hk1 Hs1] Hstep. split; [lia|].
      eapply stopping_handler; [done| |done..]. lia.
    + split; [done|]. unfold stopping. subst s0. st_simpl.
      split_and!; try done; try lia.
      exists []. by rewrite app_nil_r.
    + rewrite !decide_True in * by lia. subst s0. st_simpl. cbn [stop_pc] in Hpc'.
      split_and!; try done; try lia.
      * apply Hstr'. lia.
      * rewrite Hch', Hcl'.
        intros [Hx%elem_of_singleton|Hx%Hcl]%elem_of_union; lia.
      * by exists evs.
Qed.

(** C6. A stop message that finds [client.streaming] false.  Alone, the
    receive loop is back at [conn.ReadMessage] after the check, in the
    state it started from minus the frame it consumed.  Under every
    schedule in which it takes these two steps: it has handed nothing to
    [conn.WriteMessage], [client.streaming] is still false, and
    [client.stopCh] and the closed channels are as before. *)
Theorem stop_when_idle (s : State) (m : Message) (rest : list Inbound) (ok : bool) :
  hpc s = HRead →
  inbound s = InText (Some m) :: rest →
  Action m = "stop" →
  streaming s = false →
  run resource (solo Handler ok 2) s = Some (set_inbound rest s)
  ∧ ∀ sched s',
      run resource sched s = Some s' →
      handler_steps sched = 2 →
      (∃ evs, trace s' = trace s ++ evs ∧ writes_by Handler evs = [])
      ∧ streaming s' = false
      ∧ stopCh s' = stopCh s ∧ closedCh s' = closedCh s ∧ nextCh s' = nextCh s
      ∧ length (workers s') = length (workers s)
      ∧ hpc s' = HRead ∧ inbound s' = rest.
Proof.
  intros Hpc Hin Hact Hstr. split.
  - destruct s as [str ch m0 cl nx inb cc tr hp ws], m as [act fn].
    cbn [hpc inbound Action streaming] in *. subst.
    unfold solo; cbn [replicate]. do 2 hstep. reflexivity.
  - intros sched s' Hrun Hn.
    destruct (handler_path (idling s rest) 2) with (sched := sched) (n := 2) (k := 0)
                                                   (s := s) (s' := s')
      as (Hpc' & Hin' & Hlen & Hcl' & Hch' & Hnx' & Hstr' & evs & Htr & Hwr);
      try done; try lia.
    + intros k s1 s2 Hs1 Hmv. by eapply idling_worker.
    + intros k s1 ok1 s2 Hk Hs1 Hstep. by eapply idling_handler.
    + unfold idling. split_and!; try done.
      exists []. by rewrite app_nil_r.
    + rewrite decide_True in Hin' by lia.
      split_and!; try done. by exists evs.
Qed.

(** C7. A start message with an empty file name.  Alone, once the mutex
    is free, the receive loop is back at [conn.ReadMessage] after four
    steps, in the state it started from minus the frame, plus the events
    of one [sendStatusMessage].  Under every schedule in which it takes
    these four steps: it has called [conn.WriteMessage] exactly once, with
    the status "Error: No filename provided"; no worker was spawned;
    [client.streaming] is as it was, unless a worker cleared it meanwhile;
    [client.stopCh] and the closed channels are as before. *)
Theorem start_without_filename (s : State) (m : Message) (rest : list Inbound)
    (ok : bool) :
  hpc s = HRead →
  inbound s = InText (Some m) :: rest →
  Action m = "start" →
  Filename m = "" →
  (mu s = None →
   run resource (solo Handler ok 4) s
   = Some (set_trace (trace s ++ send_events Handler "Error: No filename provided"
                                   (ok && negb (connClosed s)))
             (set_inbound rest s)))
  ∧ ∀ sched s',
      run resource sched s = Some s' →
      handler_steps sched = 4 →
      (∃ evs, trace s' = trace s ++ evs
              ∧ writes_by Handler evs = [status "Error: No filename provided"])
      ∧ length (workers s') = length (workers s)
      ∧ (streaming s' = streaming s ∨ streaming s' = false)
      ∧ stopCh s' = stopCh s ∧ closedCh s' = closedCh s ∧ nextCh s' = nextCh s
      ∧ hpc s' = HRead ∧ inbound s' = rest.
Proof.
  intros Hpc Hin Hact Hfn. split.
  - intros Hmu. destruct s as [str ch m0 cl nx inb cc tr hp ws], m as [act fn].
    cbn [hpc inbound Action Filename mu connClosed trace] in *. subst.
    unfold solo; cbn [replicate].
    destruct ok, cc; do 4 hstep; cbn [run]; st_norm; unfold send_events;
      rewrite <- ?app_assoc; reflexivity.
  - intros sched s' Hrun Hn.
    destruct (handler_path (refusing s rest) 4) with (sched := sched) (n := 4) (k := 0)
                                                     (s := s) (s' := s')
      as (Hpc' & Hin' & Hlen & Hcl' & Hch' & Hnx' & Hstr' & evs & Htr & Hwr);
      try done; try lia.
    + intros k s1 s2 Hs1 Hmv. by eapply refusing_worker.
    + intros k s1 ok1 s2 Hk Hs1 Hstep. by eapply refusing_handler.
    + unfold refusing. split_and!; try done; [by left|].
      exists []. by rewrite app_nil_r.
    + rewrite decide_True in Hin' by lia. rewrite decide_True in Hwr by lia.
      split_and!; try done. by exists evs.
Qed.

(** C9. A text frame on which [json.Unmarshal] fails, as it does on a
    payload that is not well-formed JSON: one step logs the error and the
    loop is at [conn.ReadMessage] again, with the frames that follow still
    to be read; nothing was written and no field of the session changed. *)
Theorem malformed_is_ignored (s : State) (rest : list Inbound) (ok : bool) :
  hpc s = HRead →
  inbound s = InText None :: rest →
  let s' := emit (EvLog Handler LogUnmarshal) (set_inbound rest s) in
  run resource (solo Handler ok 1) s = Some s'
  ∧ frames_sent (trace s') = frames_sent (trace s)
  ∧ (∀ t, writes_by t (trace s') = writes_by t (trace s))
  ∧ streaming s' = streaming s ∧ stopCh s' = stopCh s
  ∧ closedCh s' = closedCh s ∧ nextCh s' = nextCh s ∧ mu s' = mu s
  ∧ workers s' = workers s ∧ connClosed s' = connClosed s
  ∧ hpc s' = HRead ∧ inbound s' = rest
  ∧ ∀ sched, run resource (solo Handler ok 1 ++ sched) s = run resource sched s'.
Proof.
  intros Hpc Hin s'.
  assert (run resource (solo Handler ok 1) s = Some s') as Hrun.
  { subst s'. destruct s. cbn [hpc inbound] in *. subst.
    unfold solo; cbn [replicate]. hstep. reflexivity. }
  split_and!; try done.
  - unfold frames_sent. subst s'. st_norm. rewrite omap_app.
    apply app_nil_r.
  - intros t. unfold writes_by. subst s'. st_norm. rewrite omap_app.
    apply app_nil_r.
  - intros sched. by rewrite run_app, Hrun.
Qed.

End Session.

Lemma reachable_state_after (resource : Resources) (frames : list Inbound)
    (sched : list Choice) :
  is_Some (run resource sched (init frames)) →
  reachable resource (state_after resource frames sched).
Proof.
  intros [s Hs]. exists frames, sched. unfold state_after. by rewrite Hs.
Defined.

(** ** A start that supersedes a transfer *)

(** C3, as the code has it.  [example_resource], start(a.mp3), and
    start(b.mp3) handled once worker 0 has sent the first chunk of a.mp3
    and sleeps.  The receive loop closes the channel that was
    [client.stopCh] and stores a new one; worker 0 reads [client.stopCh]
    again at its next select, finds the new channel open, and goes on: the
    second chunk of a.mp3 and its "Streaming finished" reach the client
    after "Streaming b.mp3", the chunk of b.mp3 between them, and worker 0
    never logs that it was stopped. *)
Theorem superseded_worker_keeps_sending :
  ∃ s1 s2 s3,
    run example_resource supersede_before (init supersede_frames) = Some s1
    ∧ frames_sent (trace s1)
      = [status "Streaming a.mp3"; BinaryMessage (replicate bufferSize x41)]
    ∧ run example_resource supersede_start s1 = Some s2
    ∧ bool_decide (stopCh s1 ∈ closedCh s2) = true
    ∧ workers s2 !! 1 = Some {| filename := "b.mp3"; wpc := WStat; file := [] |}
    ∧ run example_resource supersede_after s2 = Some s3
    ∧ frames_sent (after s2 s3)
      = [status "Streaming b.mp3"; BinaryMessage [x42]; BinaryMessage [x43];
         status "Streaming finished"; status "Streaming finished"]
    ∧ writes_by (Worker 0) (after s2 s3)
      = [BinaryMessage [x42]; status "Streaming finished"]
    ∧ logged_stop (Worker 0) (trace s3) = false
    ∧ wpc <$> workers s3 !! 0 = Some WDone.
Proof.
  eexists _, _, _.
  repeat (split; [vm_compute; reflexivity|]).
  vm_compute; reflexivity.
Qed.

(** ** Counterexample and instances *)

(** C2 as stated fails: a start message that arrives while the worker of
    an earlier start is still running.  [example_resource], start(a.mp3),
    then start(b.mp3), the last frame, read when worker 0 is past its poll
    of [client.stopCh] with the first chunk of a.mp3 in its buffer.
    Nothing follows the start, every system call succeeds and the run ends
    with no goroutine left to step and [client.streaming] false; but
    between "Streaming b.mp3" and the chunk of b.mp3 the client gets the
    two chunks of a.mp3 and a "Streaming finished" of worker 0: three
    binary frames and not one, and their concatenation is not b.mp3. *)
Lemma start_beside_running_worker :
  let s := state_after example_resource supersede_frames joined_before in
  reachable example_resource s
  ∧ hpc s = HRead
  ∧ inbound s = [start "b.mp3"]
  ∧ example_resource !! "b.mp3" = Some [x43]
  ∧ wpc <$> workers s !! 0 = Some (WChunkLock (replicate bufferSize x41))
  ∧ Forall (λ c, sys_ok c = true) joined_sched
  ∧ ∃ s',
      run example_resource joined_sched s = Some s'
      ∧ final example_resource s'
      ∧ streaming s' = false
      ∧ frames_sent (after s s')
        = [status "Streaming b.mp3"; BinaryMessage (replicate bufferSize x41);
           BinaryMessage [x42]; status "Streaming finished";
           BinaryMessage [x43]; status "Streaming finished"]
      ∧ frames_sent (after s s')
        ≠ [status "Streaming b.mp3"] ++ (BinaryMessage <$> chunks [x43])
          ++ [status "Streaming finished"].
Proof.
  intros s.
  split; [apply reachable_state_after; vm_compute; eexists; reflexivity|].
  do 4 (split; [vm_compute; reflexivity|]).
  split; [repeat constructor|].
  set (s' := state_after example_resource supersede_frames
               (joined_before ++ joined_sched)).
  assert (run example_resource joined_sched s = Some s') as Hrun
    by (vm_compute; reflexivity).
  assert (hpc s' = HRead) as Hpc by (vm_compute; reflexivity).
  assert (inbound s' = []) as Hin by (vm_compute; reflexivity).
  assert (wpc <$> workers s' = [WDone; WDone]) as Hws by (vm_compute; reflexivity).
  assert (streaming s' = false) as Hstr by (vm_compute; reflexivity).
  assert (frames_sent (after s s')
          = [status "Streaming b.mp3"; BinaryMessage (replicate bufferSize x41);
             BinaryMessage [x42]; status "Streaming finished";
             BinaryMessage [x43]; status "Streaming finished"]) as Hfr
    by (vm_compute; reflexivity).
  clearbody s' s.
  exists s'. split; [exact Hrun|]. split; [|split; [exact Hstr|split; [exact Hfr|]]].
  - intros [[|j] ok].
    + unfold step, handler_step. cbn [who sys_ok]. rewrite Hpc, Hin. reflexivity.
    + apply workers_done_lone; [|discriminate].
      intros w Hw. apply (list_elem_of_fmap_2 wpc) in Hw. rewrite Hws in Hw.
      inversion Hw as [|? ? ? Hw1]; subst; [done|clear Hw; rename Hw1 into Hw].
      inversion Hw as [|? ? ? Hw1]; subst; [done|clear Hw; rename Hw1 into Hw].
      inversion Hw.
  - rewrite Hfr. intros Heq. apply (f_equal length) in Heq.
    vm_compute in Heq. discriminate.
Qed.

(** C8 as stated fails: on start(b.mp3) with an [os.Open] that fails, the
    worker sends "Error opening audio file", which is none of the texts of
    an enumerated kind. *)
Lemma open_error_not_enumerated :
  ∃ s,
    run example_resource open_error_sched (init [start "b.mp3"]) = Some s
    ∧ EvWrite (Worker 0) (status "Error opening audio file") true ∈ trace s
    ∧ ¬ Forall enumerated_status (trace s).
Proof.
  eexists. split; [vm_compute; reflexivity|].
  assert (EvWrite (Worker 0) (status "Error opening audio file") true
          ∈ [EvLock (Worker 0); EvWrite (Worker 0) (status "Streaming b.mp3") true;
             EvUnlock (Worker 0); EvLog (Worker 0) LogOpen; EvLock (Worker 0);
             EvWrite (Worker 0) (status "Error opening audio file") true;
             EvUnlock (Worker 0)]) as Hin.
  { repeat first [apply list_elem_of_here|apply list_elem_of_further]. }
  split; [exact Hin|].
  intros Hall. rewrite Forall_forall in Hall.
  destruct (Hall _ Hin) as (m & k & Hm & Hk).
  injection Hm as <-. inversion Hk; discriminate.
Qed.

Lemma complete_transfer_witness :
  ∃ s' evs,
    run example_resource (solo Handler true 4 ++ solo (Worker 0) true (5 + (7 * 1 + 7)))
      (init [start "b.mp3"]) = Some s'
    ∧ trace s' = evs
    ∧ frames_sent evs
      = [status "Streaming b.mp3"; BinaryMessage [x43]; status "Streaming finished"]
    ∧ streaming s' = false.
Proof.
  destruct (complete_transfer example_resource (init [start "b.mp3"])
              {| Action := "start"; Filename := "b.mp3" |} [x43])
    as (s' & evs & Hrun & _ & _ & Htr & Hfr & _ & _ & _ & Hstr & _).
  - apply reachable_init.
  - reflexivity.
  - reflexivity.
  - reflexivity.
  - discriminate.
  - intros w Hw. inversion Hw.
  - vm_compute. reflexivity.
  - exists s', evs. split; [exact Hrun|]. split; [exact Htr|].
    split; [exact Hfr|exact Hstr].
Defined.

Lemma missing_file_witness :
  example_resource !! "missing.mp3" = None
  ∧ ∃ s',
      run example_resource (solo Handler true 4 ++ solo (Worker 0) true 4)
        (init [start "missing.mp3"]) = Some s'
      ∧ frames_sent (trace s') = [status "Error: File missing.mp3 not found"]
      ∧ wpc <$> workers s' !! 0 = Some WDone
      ∧ streaming s' = true.
Proof.
  split; [vm_compute; reflexivity|].
  destruct (missing_file example_resource (init [start "missing.mp3"])
              {| Action := "start"; Filename := "missing.mp3" |} true)
    as (s' & Hrun & Htr & _ & Hw & _ & Hstr).
  - apply reachable_init.
  - reflexivity.
  - reflexivity.
  - reflexivity.
  - discriminate.
  - reflexivity.
  - intros w Hw. inversion Hw.
  - vm_compute. reflexivity.
  - exists s'. split; [exact Hrun|]. split; [by rewrite Htr|].
    split; [|exact Hstr].
    change (workers s' !! 0) with (workers s' !! length (workers (init [start "missing.mp3"]))).
    by rewrite Hw.
Defined.

Lemma one_write_in_flight_witness :
  let s := state_after example_resource [start "b.mp3"]
             (solo Handler true 4 ++ solo (Worker 0) true 2) in
  writing (Worker 0) s = true
  ∧ mu s = Some (Worker 0)
  ∧ is_Some (lock_discipline (trace s)).
Proof.
  intros s.
  destruct (one_write_in_flight example_resource s) as (Hmu & _ & _ & Hld).
  - apply reachable_state_after. vm_compute. eexists. reflexivity.
  - split; [vm_compute; reflexivity|]. split; [|exact Hld].
    apply Hmu. vm_compute. reflexivity.
Defined.

Lemma stop_when_streaming_witness :
  let s := state_after example_resource [start "b.mp3"; stop] (solo Handler true 4) in
  streaming s = true
  ∧ ∃ s', run example_resource (solo Handler true 2 ++ solo Handler true 8) s = Some s'
          ∧ streaming s' = false
          ∧ stopCh s ∈ closedCh s'
          ∧ (stopCh s' ∉ closedCh s')
          ∧ writes_by Handler (after s s') = [status "Streaming stopped"].
Proof.
  intros s. split; [vm_compute; reflexivity|].
  destruct (stop_when_streaming example_resource s
              {| Action := "stop"; Filename := "" |} [] true)
    as [_ Hany].
  - apply reachable_state_after. vm_compute. eexists. reflexivity.
  - vm_compute. reflexivity.
  - vm_compute. reflexivity.
  - reflexivity.
  - vm_compute. reflexivity.
  - assert (is_Some (run example_resource
                       (solo Handler true 2 ++ solo Handler true 8) s)) as [s' Hrun].
    { vm_compute. eexists. reflexivity. }
    destruct (Hany _ s' Hrun) as (Hcl & Hstr & _ & _ & Hopen & (evs & Htr & Hw) & _).
    { vm_compute. reflexivity. }
    exists s'. split; [exact Hrun|]. split; [exact Hstr|].
    split; [rewrite Hcl; set_solver|]. split; [exact Hopen|].
    unfold after. rewrite Htr, drop_app_length. exact Hw.
Defined.

Lemma stop_when_idle_witness :
  run example_resource (solo Handler true 2) (init [stop]) = Some (init []).
Proof.
  destruct (stop_when_idle example_resource (init [stop])
              {| Action := "stop"; Filename := "" |} [] true) as [Hrun _];
    [reflexivity..|].
  exact Hrun.
Defined.

Lemma start_without_filename_witness :
  ∃ s', run example_resource (solo Handler true 4) (init [start ""]) = Some s'
        ∧ frames_sent (trace s') = [status "Error: No filename provided"]
        ∧ workers s' = [] ∧ streaming s' = false.
Proof.
  destruct (start_without_filename example_resource (init [start ""])
              {| Action := "start"; Filename := "" |} [] true) as [Hrun _];
    [reflexivity..|].
  eexists. split; [exact (Hrun eq_refl)|]. split_and!; reflexivity.
Defined.

Lemma status_frames_witness :
  Forall emitted_status
    (trace (state_after example_resource [start "b.mp3"] open_error_sched)).
Proof.
  apply (status_frames example_resource).
  apply reachable_state_after. vm_compute. eexists. reflexivity.
Defined.

Lemma malformed_is_ignored_witness :
  ∃ s', run example_resource (solo Handler true 1) (init [InText None; stop]) = Some s'
        ∧ frames_sent (trace s') = []
        ∧ streaming s' = false ∧ hpc s' = HRead ∧ inbound s' = [stop].
Proof.
  destruct (malformed_is_ignored example_resource (init [InText None; stop]) [stop] true)
    as (Hrun & Hfr & _ & Hstr & _ & _ & _ & _ & _ & _ & Hpc & Hin & _);
    [reflexivity..|].
  eexists. split; [exact Hrun|]. split_and!; reflexivity.
Defined.

Lemma chunk_write_failure_witness :
  let s := state_after example_resource [start "b.mp3"]
             (solo Handler true 4 ++ solo (Worker 0) true 9) in
  wpc <$> workers s !! 0 = Some (WChunkWrite [x43])
  ∧ ∃ s1 s3,
      step example_resource {| who := Worker 0; sys_ok := false |} s = Some s1
      ∧ run example_resource (solo (Worker 0) true 2) s1 = Some s3
      ∧ after s s3 = [EvWrite (Worker 0) (BinaryMessage [x43]) false;
                      EvUnlock (Worker 0); EvLog (Worker 0) LogWrite]
      ∧ streaming s3 = false
      ∧ wpc <$> workers s3 !! 0 = Some WDone.
Proof.
  intros s. split; [vm_compute; reflexivity|].
  destruct (chunk_write_failure example_resource s 0
              {| filename := "b.mp3"; wpc := WChunkWrite [x43]; file := [] |}
              [x43] false)
    as (s1 & Hstep & Htr & Hnext & _).
  - vm_compute. reflexivity.
  - reflexivity.
  - reflexivity.
  - destruct (Hnext true) as (s3 & Hrun & Htr3 & Hstr & Hw & _).
    exists s1, s3. split; [exact Hstep|]. split; [exact Hrun|].
    split; [|split; [exact Hstr|exact Hw]].
    unfold after. rewrite Htr3, Htr, <- app_assoc, drop_app_length. reflexivity.
Defined.

(** * More of the session

    Invariants of a connection and of its workers beyond the claims above,
    and the paths of the receive loop and of a worker that the claims leave
    out. *)

(** ** Events by goroutine *)

Section Own.

Variable resource : Resources.

Lemma step_own_events (c : Choice) (s s' : State) :
  step resource c s = Some s' →
  ∃ evs, trace s' = trace s ++ evs ∧ Forall (λ e, event_tid e = who c) evs.
Proof.
  unfold step. destruct c as [[|i] ok]; cbn [who sys_ok]; intros H.
  - handler_cases H; st_simpl.
    all: first [ exists []; split; [by rewrite app_nil_r|]
               | eexists; split; [rewrite <- ?app_assoc; reflexivity|] ].
    all: repeat constructor.
  - worker_cases H; st_simpl.
    all: first [ exists []; split; [by rewrite app_nil_r|]
               | eexists; split; [rewrite <- ?app_assoc; reflexivity|] ].
    all: repeat constructor.
Qed.

Lemma events_of_app (t : Tid) (a b : list Event) :
  events_of t (a ++ b) = events_of t a ++ events_of t b.
Proof. apply filter_app. Qed.

Lemma events_of_other (t : Tid) (t' : Tid) (evs : list Event) :
  Forall (λ e, event_tid e = t') evs → t ≠ t' → events_of t evs = [].
Proof.
  intros Hall Hne. induction Hall as [|e evs He _ IH]; [done|].
  unfold events_of in *. rewrite filter_cons_False; [done|]. congruence.
Qed.

Lemma events_of_own (t : Tid) (evs : list Event) :
  Forall (λ e, event_tid e = t) evs → events_of t evs = evs.
Proof.
  intros Hall. induction Hall as [|e evs He _ IH]; [done|].
  unfold events_of in *. rewrite filter_cons_True by done. by rewrite IH.
Qed.

(** What a step of worker [i] does to worker [i]. *)
Lemma worker_step_own (i : nat) (ok : bool) (s s' : State) (w : WorkerState) :
  workers s !! i = Some w → worker_step resource i ok s = Some s' →
  ∃ w' evs, workers s' = <[i := w']> (workers s) ∧ filename w' = filename w
            ∧ trace s' = trace s ++ evs
            ∧ events_of (Worker i) (trace s') = events_of (Worker i) (trace s) ++ evs.
Proof.
  intros Hw H.
  destruct (step_own_events {| who := Worker i; sys_ok := ok |} s s' H) as (evs & Htr & Hevs).
  assert (∃ w', workers s' = <[i := w']> (workers s) ∧ filename w' = filename w)
    as (w' & Hw' & Hf).
  { worker_cases H; st_simpl; eauto. }
  exists w', evs. split_and!; try done.
  rewrite Htr, events_of_app. f_equal. by apply events_of_own.
Qed.

(** A property of a worker and of the events of its own is an invariant of
    the connection once it holds of a worker that was just spawned and
    every step of the worker keeps it. *)
Lemma worker_invariant (P : WorkerState → list Event → Prop) :
  (∀ f, P {| filename := f; wpc := WStat; file := [] |} []) →
  (∀ i ok s s' w w',
     reachable resource s →
     workers s !! i = Some w → worker_step resource i ok s = Some s' →
     workers s' !! i = Some w' →
     P w (events_of (Worker i) (trace s)) →
     P w' (events_of (Worker i) (trace s'))) →
  ∀ s, reachable resource s →
  ∀ i, match workers s !! i with
       | Some w => P w (events_of (Worker i) (trace s))
       | None => events_of (Worker i) (trace s) = []
       end.
Proof.
  intros Hnew Hstep.
  apply (reachable_induction resource
           (λ s, ∀ i, match workers s !! i with
                      | Some w => P w (events_of (Worker i) (trace s))
                      | None => events_of (Worker i) (trace s) = []
                      end)).
  - intros frames i. cbn. done.
  - intros c s s' Hr IH Hs i. specialize (IH i).
    destruct (decide (who c = Worker i)) as [Hc|Hc].
    + destruct c as [t ok]. cbn [who] in Hc. subst t.
      unfold step in Hs. cbn [who sys_ok] in Hs.
      destruct (workers s !! i) as [w|] eqn:Hw.
      * destruct (worker_step_own i ok s s' w Hw Hs) as (w' & evs & Hw' & _ & _ & _).
        assert (workers s' !! i = Some w') as Hi.
        { rewrite Hw'. apply list_lookup_insert_eq. by eapply lookup_lt_Some. }
        rewrite Hi. by eapply Hstep.
      * unfold worker_step in Hs. by rewrite Hw in Hs.
    + destruct (step_own_events c s s' Hs) as (evs & Htr & Hevs).
      assert (events_of (Worker i) (trace s') = events_of (Worker i) (trace s)) as ->.
      { rewrite Htr, events_of_app, (events_of_other _ (who c) evs) by done.
        apply app_nil_r. }
      destruct (workers s !! i) as [w|] eqn:Hw.
      * by rewrite (step_other_worker resource c s s' i w Hs Hc Hw).
      * unfold step in Hs. destruct c as [[|j] ok]; cbn [who sys_ok] in *.
        -- handler_cases Hs; st_simpl; rewrite ?Hw; try done.
           destruct (decide (i = length (workers s))) as [->|Hne].
           ++ rewrite list_lookup_middle by done. rewrite IH. apply Hnew.
           ++ apply lookup_ge_None in Hw.
              rewrite lookup_ge_None_2; [done|]. rewrite length_app. simpl. lia.
        -- worker_cases Hs; st_simpl.
           all: rewrite list_lookup_insert_ne by congruence; by rewrite Hw.
Qed.

(** X1.  The receive loop never closes a closed channel, so its [close]
    never panics: whenever the loop is about to close [client.stopCh], and
    whenever it waits in [conn.ReadMessage], the channel in
    [client.stopCh] is open. *)
Theorem close_never_panics (s : State) :
  reachable resource s →
  hpc s ≠ HPanic
  ∧ ((hpc s = HStopClose ∨ ∃ f, hpc s = HStartClose f) → stopCh s ∉ closedCh s)
  ∧ (hpc s = HRead → stopCh s ∉ closedCh s).
Proof.
  intros (Hlt & Hcl & Hp & Hst & Hcc)%reachable_chan_inv.
  split_and!; [done| |].
  - intros Hpc Hin. destruct (Hst Hin) as [?|[? ?]], Hpc as [?|[? ?]]; congruence.
  - intros Hpc Hin. destruct (Hst Hin) as [?|[? ?]]; congruence.
Qed.

End Own.

(** ** What a worker delivers *)

Section Transfer.

Variable resource : Resources.

Lemma worker_invariant' (P : WorkerState → list Event → Prop) :
  (∀ f, P {| filename := f; wpc := WStat; file := [] |} []) →
  (∀ i ok s s' w own,
     workers s !! i = Some w → worker_step resource i ok s = Some s' →
     P w own →
     ∃ w' evs, workers s' !! i = Some w' ∧ trace s' = trace s ++ evs
               ∧ P w' (own ++ evs)) →
  ∀ s i w, reachable resource s → workers s !! i = Some w →
           P w (events_of (Worker i) (trace s)).
Proof.
  intros Hnew Hstep s i w Hr Hw.
  pose proof (worker_invariant resource P Hnew) as Hinv.
  specialize (Hinv) with (s := s) (i := i).
  rewrite Hw in Hinv. apply Hinv; [|done].
  clear s i w Hr Hw Hinv.
  intros i ok s s' w w' _ Hw H Hw' HP.
  destruct (Hstep i ok s s' w _ Hw H HP) as (w1 & evs & Hw1 & Htr & HP').
  destruct (worker_step_own resource i ok s s' w Hw H) as (_ & evs' & _ & _ & Htr' & ->).
  rewrite Htr in Htr'. apply app_inv_head in Htr'. subst evs'.
  congruence.
Qed.

Lemma chunks_fuel_enough (fuel1 fuel2 : nat) (l : list byte) :
  length l ≤ fuel1 → length l ≤ fuel2 → chunks_fuel fuel1 l = chunks_fuel fuel2 l.
Proof.
  pose proof bufferSize_pos as Hpos.
  revert fuel2 l. induction fuel1 as [|fuel1 IH]; intros fuel2 l H1 H2.
  - destruct l; [|simpl in H1; lia]. by destruct fuel2.
  - destruct l as [|b l]; [by destruct fuel2|].
    destruct fuel2 as [|fuel2]; [simpl in H2; lia|].
    cbn [chunks_fuel]. f_equal.
    apply IH; rewrite length_drop; simpl in *; lia.
Qed.

Lemma chunks_nil : chunks [] = [].
Proof. reflexivity. Qed.

Lemma chunks_cons (b : byte) (l : list byte) :
  chunks (b :: l) = take bufferSize (b :: l) :: chunks (drop bufferSize (b :: l)).
Proof.
  pose proof bufferSize_pos as Hpos.
  unfold chunks. cbn [length chunks_fuel]. f_equal.
  apply chunks_fuel_enough; rewrite ?length_drop; simpl; lia.
Qed.

Lemma chunks_delivered_app (a b : list Event) :
  chunks_delivered (a ++ b) = chunks_delivered a ++ chunks_delivered b.
Proof. apply omap_app. Qed.

Lemma finished_logged_app (a b : list Event) :
  finished_logged (a ++ b) = finished_logged a || finished_logged b.
Proof. apply existsb_app. Qed.

Lemma transfer_inv_step (i : nat) (ok : bool) (s s' : State) (w : WorkerState)
    (own : list Event) :
  workers s !! i = Some w → worker_step resource i ok s = Some s' →
  transfer_inv resource w own →
  ∃ w' evs, workers s' !! i = Some w' ∧ trace s' = trace s ++ evs
            ∧ transfer_inv resource w' (own ++ evs).
Proof.
  intros Hw H [HP Hs]. pose proof (lookup_lt_Some _ _ _ Hw) as Hlt.
  unfold transfer_inv in *.
  worker_cases H; rewrite Hpc in HP, Hs; st_simpl.
  all: eexists _, _; split; [by apply list_lookup_insert_eq|].
  all: split; [first [exact (eq_sym (app_nil_r _)) | rewrite <- ?app_assoc; reflexivity]|].
  all: split;
    [|cbn [filename wpc file opened orb] in *;
      rewrite ?finished_logged_app; cbn [finished_logged existsb orb];
      rewrite ?orb_false_r;
      first [ by intros _; apply Hs
            | by intros _; eexists
            | destruct HP as [_ ->]; done
            | done ] ].
  all: try destruct (ok && negb (connClosed s)).
  all: cbn [filename wpc file transfer_at in_flight negb] in *.
  all: rewrite ?chunks_delivered_app, ?finished_logged_app.
  all: cbn [chunks_delivered omap finished_logged existsb orb app] in *.
  all: rewrite ?app_nil_r, ?orb_false_r.
  all: try match goal with
         | H : resource !! _ = Some _ |- _ => rewrite H in *; cbn [default] in *
         end.
  all: try match goal with
         | H : file _ = _ |- _ => rewrite H in *
         end.
  all: rewrite ?chunks_nil, ?chunks_cons, ?app_nil_r in *.
  all: try match type of HP with _ ∧ _ => destruct HP as [HP1 HP2] end.
  all: try rewrite HP2.
  all: try done.
  all: try (split; [|done]).
  all: try (rewrite HP1; done).
  all: try (rewrite HP1, <- ?app_assoc; done).
  all: try (rewrite HP1; by apply prefix_app_r).
  all: try (rewrite HP1; apply prefix_nil).
  all: try (rewrite HP; done).
Qed.

Lemma reachable_transfer_inv (s : State) (i : nat) (w : WorkerState) :
  reachable resource s → workers s !! i = Some w →
  transfer_inv resource w (events_of (Worker i) (trace s)).
Proof.
  apply (worker_invariant' (transfer_inv resource)).
  - intros f. unfold transfer_inv. cbn. split; [done|]. intros [=].
  - intros. by eapply transfer_inv_step.
Qed.

Lemma transfer_at_prefix (cs : list (list byte)) (p : WorkerPC) (rem : list byte)
    (sent : list (list byte)) (fin : bool) :
  transfer_at cs p rem sent fin →
  sent `prefix_of` cs ∧ (fin = true → cs = sent).
Proof.
  destruct p as [|[]|[]| |[]| | | |[]| |[]| | | |[]| | |]; cbn [transfer_at].
  all: try (intros [-> ->]; split; [by apply prefix_nil|done]).
  all: try (intros [-> ->]; split; [by apply prefix_app_r|done]).
  all: try (intros ->; done).
  all: try (intros [? ->]; done).
  all: try done.
Qed.

(** X2.  Whatever the schedule and whatever else happens on the
    connection, the chunks the client got from one worker are the first
    chunks of the worker's file, in order and as [file.Read] cuts them; a
    worker whose file does not exist delivers none. *)
Theorem delivered_is_prefix (s : State) (i : nat) (w : WorkerState) :
  reachable resource s → workers s !! i = Some w →
  let sent := chunks_delivered (events_of (Worker i) (trace s)) in
  let content := default [] (resource !! filename w) in
  sent `prefix_of` chunks content
  ∧ concat sent `prefix_of` content
  ∧ length sent ≤ ceil_div (length content) bufferSize
  ∧ (resource !! filename w = None → sent = []).
Proof.
  intros Hr Hw sent content.
  destruct (reachable_transfer_inv s i w Hr Hw) as [[Hpre _]%transfer_at_prefix _].
  fold sent content in Hpre.
  split_and!; [done| | |].
  - destruct Hpre as [k Hk].
    rewrite <- (chunks_fuel_concat (length content) content) by done.
    fold (chunks content). rewrite Hk, concat_app. by apply prefix_app_r.
  - rewrite <- (chunks_fuel_length (length content) content) by done.
    by apply prefix_length.
  - intros Hnone. subst content. rewrite Hnone in Hpre. cbn in Hpre.
    by apply prefix_nil_inv.
Qed.

(** X3.  A worker that logged "Finished streaming file" has delivered its
    whole file: the connection accepted every chunk, in order. *)
Theorem finished_means_delivered (s : State) (i : nat) (w : WorkerState) :
  reachable resource s → workers s !! i = Some w →
  finished_logged (events_of (Worker i) (trace s)) = true →
  ∃ content,
    resource !! filename w = Some content
    ∧ chunks_delivered (events_of (Worker i) (trace s)) = chunks content
    ∧ concat (chunks_delivered (events_of (Worker i) (trace s))) = content.
Proof.
  intros Hr Hw Hfin.
  destruct (reachable_transfer_inv s i w Hr Hw) as [[_ Hall]%transfer_at_prefix Hs].
  destruct Hs as [content Hc]; [rewrite Hfin; apply orb_true_r|].
  rewrite Hc in Hall. cbn [default] in Hall.
  exists content. split; [done|]. rewrite <- Hall by done. split; [done|].
  by apply chunks_fuel_concat.
Qed.

End Transfer.

Section Layout.

Variable resource : Resources.

Lemma chunks_fuel_lookup (fuel : nat) :
  ∀ (l : list byte) (k : nat) (c : list byte),
    length l ≤ fuel →
    chunks_fuel fuel l !! k = Some c →
    c = take bufferSize (drop (k * bufferSize) l) ∧ k * bufferSize < length l.
Proof.
  pose proof bufferSize_pos as Hpos.
  induction fuel as [|fuel IH]; intros l k c Hl Hk; [done|].
  destruct l as [|b l]; [done|]. cbn [chunks_fuel] in Hk.
  destruct k as [|k].
  - cbn in Hk. simplify_eq. cbn [Nat.mul drop length]. split; [done|lia].
  - cbn [lookup list_lookup] in Hk.
    change (list_lookup k (chunks_fuel fuel (drop bufferSize (b :: l))))
      with (chunks_fuel fuel (drop bufferSize (b :: l)) !! k) in Hk.
    apply IH in Hk as [-> Hlt]; [|rewrite length_drop; simpl in *; lia].
    rewrite length_drop in Hlt. rewrite drop_drop.
    replace (bufferSize + k * bufferSize) with (S k * bufferSize) by lia.
    split; [done|lia].
Qed.

(** X20.  The [k]-th binary frame that a client gets from a worker is the
    [k]-th slice of 8192 bytes of the worker's file, bytes [8192 * k] up to
    [8192 * (k + 1)] or the end of the file, and it is not empty: frame
    boundaries do not depend on the schedule. *)
Theorem delivered_frame_is_slice (s : State) (i : nat) (w : WorkerState) (k : nat)
    (c : list byte) :
  reachable resource s →
  workers s !! i = Some w →
  chunks_delivered (events_of (Worker i) (trace s)) !! k = Some c →
  ∃ content,
    resource !! filename w = Some content
    ∧ c = take bufferSize (drop (k * bufferSize) content)
    ∧ k * bufferSize < length content
    ∧ bufferSize = 8192.
Proof.
  intros Hr Hw Hk.
  destruct (reachable_transfer_inv resource s i w Hr Hw) as [Hat _].
  apply transfer_at_prefix in Hat as [[rest Hrest] _].
  assert (chunks (default [] (resource !! filename w)) !! k = Some c) as Hc.
  { rewrite Hrest. by apply lookup_app_l_Some. }
  destruct (resource !! filename w) as [content|]; [|done].
  cbn [default] in Hc. apply chunks_fuel_lookup in Hc as [-> Hlt]; [|done].
  exists content. split_and!; [done..|].
  with_strategy transparent [bufferSize] reflexivity.
Qed.

End Layout.

(** ** The frames of a worker *)

Section Protocol.

Variable resource : Resources.

Lemma frames_handed_app (a b : list Event) :
  frames_handed (a ++ b) = frames_handed a ++ frames_handed b.
Proof. apply omap_app. Qed.

Lemma writes_by_events_of (t : Tid) (tr : list Event) :
  writes_by t tr = frames_handed (events_of t tr).
Proof.
  induction tr as [|e tr IH]; [done|].
  change (e :: tr) with ([e] ++ tr).
  rewrite events_of_app, frames_handed_app, <- IH.
  unfold writes_by. rewrite omap_app. f_equal.
  unfold events_of. rewrite filter_cons, filter_nil.
  destruct e as [t'|t'|t' f ok|t' l]; cbn [event_tid omap].
  all: destruct (decide (t' = t)) as [->|Hne]; try done.
  - cbn. by rewrite decide_True.
  - cbn. by rewrite decide_False.
Qed.

Lemma protocol_inv_step (i : nat) (ok : bool) (s s' : State) (w : WorkerState)
    (own : list Event) :
  workers s !! i = Some w → worker_step resource i ok s = Some s' →
  protocol_inv w own →
  ∃ w' evs, workers s' !! i = Some w' ∧ trace s' = trace s ++ evs
            ∧ protocol_inv w' (own ++ evs).
Proof.
  intros Hw H HP. pose proof (lookup_lt_Some _ _ _ Hw) as Hlt.
  unfold protocol_inv in *.
  worker_cases H; rewrite Hpc in HP; st_simpl.
  all: eexists _, _; split; [by apply list_lookup_insert_eq|].
  all: split; [first [exact (eq_sym (app_nil_r _)) | rewrite <- ?app_assoc; reflexivity]|].
  all: cbn [filename wpc file protocol_at] in *.
  all: rewrite ?frames_handed_app.
  all: cbn [frames_handed omap app] in *.
  all: rewrite ?app_nil_r.
  all: try match type of HP with ex _ => destruct HP as [cs HP] end.
  all: try (rewrite HP).
  all: cbn [app].
  all: try done.
  all: try (by exists []).
  all: try (by exists cs).
  all: try (by constructor).
  all: try (eexists (cs ++ [_]); by rewrite fmap_app).
  all: try apply (ww_chunks _ []).
Qed.

Lemma reachable_protocol_inv (s : State) (i : nat) (w : WorkerState) :
  reachable resource s → workers s !! i = Some w →
  protocol_inv w (events_of (Worker i) (trace s)).
Proof.
  apply (worker_invariant' resource protocol_inv).
  - intros f. done.
  - intros. by eapply protocol_inv_step.
Qed.

Lemma protocol_at_writes (f : string) (p : WorkerPC) (l : list Frame) :
  protocol_at f p l → worker_writes f l.
Proof.
  destruct p as [|[]|[]| |[]| | | |[]| |[]| | | |[]| | |]; cbn [protocol_at].
  all: try (intros ->; constructor).
  all: try (intros [cs ->]; constructor).
  all: try done.
  all: intros ->; apply (ww_chunks f []).
Qed.

(** X4.  The frames a worker hands to [conn.WriteMessage], in every state
    of a connection and whatever the schedule: first a status, "Streaming
    <name>" or the not-found error; binary frames only after "Streaming
    <name>"; at most one more status, which is then the last frame of the
    worker.  A worker that was not spawned has written nothing. *)
Theorem worker_protocol (s : State) (i : nat) :
  reachable resource s →
  match workers s !! i with
  | Some w => worker_writes (filename w) (writes_by (Worker i) (trace s))
  | None => writes_by (Worker i) (trace s) = []
  end.
Proof.
  intros Hr. rewrite writes_by_events_of.
  destruct (workers s !! i) as [w|] eqn:Hw.
  - eapply protocol_at_writes. by apply reachable_protocol_inv.
  - pose proof (worker_invariant resource (λ _ _, True)) as Hinv.
    specialize (Hinv (λ _, I) (λ _ _ _ _ _ _ _ _ _ _ _, I) s Hr i).
    rewrite Hw in Hinv. by rewrite Hinv.
Qed.

Lemma size_inv_step (i : nat) (ok : bool) (s s' : State) (w : WorkerState)
    (own : list Event) :
  workers s !! i = Some w → worker_step resource i ok s = Some s' →
  size_inv w own →
  ∃ w' evs, workers s' !! i = Some w' ∧ trace s' = trace s ++ evs
            ∧ size_inv w' (own ++ evs).
Proof.
  intros Hw H [Hc Ho]. pose proof (lookup_lt_Some _ _ _ Hw) as Hlt.
  pose proof bufferSize_pos as Hpos.
  unfold size_inv in *.
  worker_cases H; rewrite Hpc in Hc; st_simpl.
  all: eexists _, _; split; [by apply list_lookup_insert_eq|].
  all: split; [first [exact (eq_sym (app_nil_r _)) | rewrite <- ?app_assoc; reflexivity]|].
  all: cbn [filename wpc file in_flight] in *.
  all: split; [|rewrite ?Forall_app; repeat split; try done; repeat constructor; try done].
  all: try done.
  - apply Forall_singleton. unfold chunk_ok. rewrite length_take. simpl. lia.
  - inversion Hc as [|? ? Hc1 _]. apply Hc1.
  - inversion Hc as [|? ? Hc1 _]. apply Hc1.
Qed.

Lemma reachable_size_inv (s : State) (i : nat) (w : WorkerState) :
  reachable resource s → workers s !! i = Some w →
  size_inv w (events_of (Worker i) (trace s)).
Proof.
  apply (worker_invariant' resource size_inv).
  - intros f. by split.
  - intros. by eapply size_inv_step.
Qed.

Lemma handler_step_frames (ok : bool) (s s' : State) :
  handler_step ok s = Some s' →
  ∃ evs, trace s' = trace s ++ evs ∧ Forall frame_ok evs.
Proof.
  intros H. handler_cases H; st_simpl.
  all: first [ exists []; split; [by rewrite app_nil_r|]
             | eexists; split; [rewrite <- ?app_assoc; reflexivity|] ].
  all: repeat constructor.
Qed.

(** X5.  Every binary frame handed to [conn.WriteMessage] on a connection
    comes from a transfer worker and holds between one byte and a full
    buffer of 8192: the receive loop sends no binary frame, and no worker
    sends an empty one. *)
Theorem binary_frame_sizes (s : State) (t : Tid) (d : list byte) (ok : bool) :
  reachable resource s →
  EvWrite t (BinaryMessage d) ok ∈ trace s →
  0 < length d ≤ bufferSize ∧ bufferSize = 8192 ∧ t ≠ Handler.
Proof.
  intros Hr Hin.
  assert (Forall frame_ok (trace s)) as Hall.
  { clear Hin. revert s Hr.
    apply (reachable_induction resource (λ s, Forall frame_ok (trace s))).
    - intros frames. constructor.
    - intros c s s' Hr IH Hs. unfold step in Hs.
      destruct c as [[|i] ok']; cbn [who sys_ok] in Hs.
      + destruct (handler_step_frames _ _ _ Hs) as (evs & -> & Hevs).
        by apply Forall_app.
      + destruct (workers s !! i) as [w|] eqn:Hw.
        * pose proof (reachable_size_inv s i w Hr Hw) as Hsz.
          destruct (size_inv_step i ok' s s' w _ Hw Hs Hsz)
            as (w' & evs & _ & -> & _ & [_ Hevs]%Forall_app).
          by apply Forall_app.
        * unfold worker_step in Hs. by rewrite Hw in Hs. }
  rewrite Forall_forall in Hall. destruct (Hall _ Hin) as [Hc Ht].
  split; [done|]. split; [|done].
  with_strategy transparent [bufferSize] reflexivity.
Qed.

End Protocol.

(** ** Frames that are dropped, and failures *)

Section Paths.

Variable resource : Resources.

Lemma worker_path (i : nat) (P : nat → State → Prop) (bound : nat) :
  (∀ k c s s', who c ≠ Worker i → P k s → step resource c s = Some s' → P k s') →
  (∀ k s ok s', k < bound → P k s → worker_step resource i ok s = Some s' → P (S k) s') →
  ∀ sched n k s s',
    P k s → run resource sched s = Some s' → worker_steps i sched = n →
    k + n ≤ bound → P (k + n) s'.
Proof.
  intros HO HW sched.
  induction sched as [|c sched IH]; intros n k s s' HP Hrun Hn Hb.
  - cbn in Hrun, Hn. simplify_eq. by rewrite Nat.add_0_r.
  - rewrite run_cons in Hrun.
    destruct (step resource c s) as [s1|] eqn:Hs; [|done].
    cbn [mbind option_bind] in Hrun. unfold worker_steps in Hn.
    destruct (decide (who c = Worker i)) as [Hc|Hc].
    + rewrite filter_cons_True in Hn by done.
      cbn [length] in Hn. destruct n as [|n]; [done|].
      replace (k + S n) with (S k + n) by lia.
      unfold step in Hs. rewrite Hc in Hs.
      eapply IH; [eapply HW; [|done..]|done| |]; unfold worker_steps; lia.
    + rewrite filter_cons_False in Hn by done.
      eapply IH; [|done|done|done]. by eapply HO.
Qed.

Lemma worker_steps_solo (i : nat) (ok : bool) (n : nat) :
  worker_steps i (solo (Worker i) ok n) = n.
Proof.
  unfold worker_steps, solo. induction n as [|n IH]; [done|].
  cbn [replicate]. rewrite filter_cons_True by done. cbn [length]. by rewrite IH.
Qed.

Lemma failing_other (pcs : nat → WorkerPC) (msg : string) (i : nat) (tr0 : list Event)
    (k : nat) (c : Choice) (s s' : State) :
  who c ≠ Worker i → failing pcs msg i tr0 k s → step resource c s = Some s' →
  failing pcs msg i tr0 k s'.
Proof.
  intros Hc (Hw & evs & Htr & Hwr) Hs.
  destruct (workers s !! i) as [w|] eqn:Hi; [|done].
  destruct (step_events resource c s s' Hs) as (evs' & Htr' & _ & Hwr').
  split.
  - by rewrite (step_other_worker resource c s s' i w Hs Hc Hi).
  - exists (evs ++ evs'). rewrite Htr', Htr, <- app_assoc. split; [done|].
    rewrite writes_by_app, Hwr, Hwr' by done. apply app_nil_r.
Qed.

Lemma failing_read_step (msg := "Error reading audio file") (i : nat)
    (tr0 : list Event) (k : nat) (s : State) (ok : bool) (s' : State) :
  k < 4 → failing read_failed_pc msg i tr0 k s →
  worker_step resource i ok s = Some s' →
  failing read_failed_pc msg i tr0 (S k) s'.
Proof.
  intros Hk (Hw & evs & Htr & Hwr) H.
  assert (k = 0 ∨ k = 1 ∨ k = 2 ∨ k = 3) as Hk' by lia.
  clear Hk. destruct (workers s !! i) as [w0|] eqn:Hi0; [|done].
  pose proof (lookup_lt_Some _ _ _ Hi0) as Hlt.
  cbn in Hw. injection Hw as Hw.
  unfold worker_step in H. rewrite Hi0 in H. cbn [mbind option_bind] in H.
  rewrite Hw in H.
  destruct_or! Hk'; subst k; cbn [read_failed_pc] in H; cases_in H.
  all: unfold failing; st_simpl; rewrite list_lookup_insert_eq by done.
  all: repeat (rewrite decide_True in * by lia).
  all: repeat (rewrite decide_False in * by lia).
  all: split; [done|].
  all: first [ exists evs; split; [done|done]
             | eexists; split; [rewrite Htr, <- ?app_assoc; reflexivity|] ].
  all: rewrite ?writes_by_app, Hwr; cbn; rewrite ?decide_True by done;
    reflexivity.
Qed.

Lemma failing_open_step (msg := "Error opening audio file") (i : nat)
    (tr0 : list Event) (k : nat) (s : State) (ok : bool) (s' : State) :
  k < 3 → failing open_failed_pc msg i tr0 k s →
  worker_step resource i ok s = Some s' →
  failing open_failed_pc msg i tr0 (S k) s'.
Proof.
  intros Hk (Hw & evs & Htr & Hwr) H.
  assert (k = 0 ∨ k = 1 ∨ k = 2) as Hk' by lia.
  clear Hk. destruct (workers s !! i) as [w0|] eqn:Hi0; [|done].
  pose proof (lookup_lt_Some _ _ _ Hi0) as Hlt.
  cbn in Hw. injection Hw as Hw.
  unfold worker_step in H. rewrite Hi0 in H. cbn [mbind option_bind] in H.
  rewrite Hw in H.
  destruct_or! Hk'; subst k; cbn [open_failed_pc] in H; cases_in H.
  all: unfold failing; st_simpl; rewrite list_lookup_insert_eq by done.
  all: repeat (rewrite decide_True in * by lia).
  all: repeat (rewrite decide_False in * by lia).
  all: split; [done|].
  all: first [ exists evs; split; [done|done]
             | eexists; split; [rewrite Htr, <- ?app_assoc; reflexivity|] ].
  all: rewrite ?writes_by_app, Hwr; cbn; rewrite ?decide_True by done;
    reflexivity.
Qed.

(** X6.  A binary frame, and a text frame whose action is neither "start"
    nor "stop", are dropped: the receive loop is at [conn.ReadMessage]
    again and nothing else of the session has changed. *)
Theorem other_frames_are_ignored (s : State) (frame : Inbound) (rest : list Inbound)
    (ok : bool) :
  hpc s = HRead →
  inbound s = frame :: rest →
  (frame = InBinary
   ∨ ∃ m, frame = InText (Some m) ∧ Action m ≠ "start" ∧ Action m ≠ "stop") →
  step resource {| who := Handler; sys_ok := ok |} s = Some (set_inbound rest s)
  ∧ hpc (set_inbound rest s) = HRead
  ∧ trace (set_inbound rest s) = trace s.
Proof.
  intros Hpc Hin Hf. split; [|done].
  unfold step; cbn [who sys_ok]. unfold handler_step. rewrite Hpc, Hin.
  destruct Hf as [->|(m & -> & H1%String.eqb_neq & H2%String.eqb_neq)]; [done|].
  by rewrite H1, H2.
Qed.

Lemma closed_worker_step (i : nat) (ok : bool) (s s' : State) :
  connClosed s = true → worker_step resource i ok s = Some s' →
  frames_sent (trace s') = frames_sent (trace s).
Proof.
  intros Hcc H.
  worker_cases H; st_simpl; rewrite ?frames_sent_app; cbn;
    rewrite ?Hcc, ?andb_false_r in *; cbn; rewrite ?app_nil_r; try done.
Qed.

(** X7.  An error of [conn.ReadMessage] ends the receive loop, and the
    deferred [conn.Close()] closes the connection: the loop reads no
    further frame, and whatever the workers still do, no frame reaches the
    client any more. *)
Theorem read_error_ends_session (s : State) (rest : list Inbound) (ok : bool) :
  hpc s = HRead →
  inbound s = InError :: rest →
  ∃ s1,
    step resource {| who := Handler; sys_ok := ok |} s = Some s1
    ∧ trace s1 = trace s ++ [EvLog Handler LogReadMessage]
    ∧ connClosed s1 = true
    ∧ ∀ sched s2,
        run resource sched s1 = Some s2 →
        handler_steps sched = 0
        ∧ hpc s2 = HClosed ∧ inbound s2 = rest ∧ connClosed s2 = true
        ∧ frames_sent (trace s2) = frames_sent (trace s)
        ∧ stopCh s2 = stopCh s ∧ closedCh s2 = closedCh s.
Proof.
  intros Hpc Hin.
  set (s1 := set_hpc HClosed
               (set_connClosed true
                  (emit (EvLog Handler LogReadMessage) (set_inbound rest s)))).
  exists s1. split.
  { unfold step; cbn [who sys_ok]. unfold handler_step. rewrite Hpc, Hin. reflexivity. }
  split_and!; [done..|].
  assert (hpc s1 = HClosed ∧ inbound s1 = rest ∧ connClosed s1 = true
          ∧ frames_sent (trace s1) = frames_sent (trace s)
          ∧ stopCh s1 = stopCh s ∧ closedCh s1 = closedCh s) as Hinv.
  { subst s1. st_simpl. split_and!; try done.
    rewrite frames_sent_app. apply app_nil_r. }
  clearbody s1. intros sched. revert s1 Hinv.
  induction sched as [|[[|i] ok'] sched IH]; intros s1 Hinv s2 Hrun.
  - cbn in Hrun. by simplify_eq.
  - rewrite run_cons in Hrun. unfold step in Hrun. cbn [who sys_ok] in Hrun.
    unfold handler_step in Hrun. destruct Hinv as [Hc _]. by rewrite Hc in Hrun.
  - rewrite run_cons in Hrun. unfold step in Hrun. cbn [who sys_ok] in Hrun.
    destruct (worker_step resource i ok' s1) as [s1'|] eqn:Hs; [|done].
    cbn [mbind option_bind] in Hrun.
    destruct Hinv as (H1 & H2 & H3 & H4 & H5 & H6).
    destruct (worker_step_frame resource _ _ _ _ Hs) as (? & ? & ? & ? & ? & ? & _).
    unfold handler_steps. rewrite filter_cons_False by done.
    apply (IH s1'); [|done].
    split_and!; try congruence.
    rewrite <- H4. by eapply closed_worker_step.
Qed.

(** X8.  An error of [file.Read] other than [io.EOF]: the worker logs it,
    tries to send the status "Error reading audio file", clears
    [client.streaming] and returns.  Alone, once the mutex is free, this
    takes four steps; under every schedule in which the worker takes them,
    the status is the only frame it hands to [conn.WriteMessage]: no chunk
    follows a failed read. *)
Theorem file_read_failure (s : State) (i : nat) (w : WorkerState) (ok : bool) :
  workers s !! i = Some w →
  wpc w = WReadFile →
  ∃ s1,
    step resource {| who := Worker i; sys_ok := false |} s = Some s1
    ∧ trace s1 = trace s ++ [EvLog (Worker i) LogReadFile]
    ∧ (mu s = None →
       ∃ s2, run resource (solo (Worker i) ok 4) s1 = Some s2
             ∧ trace s2 = trace s1 ++ send_events (Worker i) "Error reading audio file"
                                        (ok && negb (connClosed s))
             ∧ streaming s2 = false)
    ∧ ∀ sched s2,
        run resource sched s1 = Some s2 → worker_steps i sched = 4 →
        wpc <$> workers s2 !! i = Some WDone
        ∧ ∃ evs, trace s2 = trace s1 ++ evs
                 ∧ writes_by (Worker i) evs = [status "Error reading audio file"].
Proof.
  intros Hw Hpc.
  pose proof Hw as Hsplit.
  apply list_elem_of_split_length in Hsplit as (pre & post & Hws & ->).
  destruct s as [str ch m0 cl nx inb cc tr hp ws], w as [f p rem].
  cbn [workers wpc connClosed mu] in *. subst.
  eexists. split.
  { unfold step; cbn [who sys_ok]. unfold worker_step. cbn [workers].
    rewrite lookup_middle. cbn [mbind option_bind wpc filename file connClosed].
    st_norm. rewrite insert_middle. reflexivity. }
  cbn [trace]. split_and!.
  - reflexivity.
  - intros ->.
    exists (Build_State false ch None cl nx inb cc
              ((tr ++ [EvLog (Worker (length pre)) LogReadFile])
                 ++ send_events (Worker (length pre)) "Error reading audio file"
                      (ok && negb cc)) hp
              (pre ++ {| filename := f; wpc := WDone; file := rem |} :: post)).
    split; [|done].
    unfold solo; cbn [replicate].
    destruct ok, cc; do 4 wstep; cbn [run]; unfold send_events; cbn [andb negb app];
      rewrite <- ?app_assoc; reflexivity.
  - intros sched s2 Hrun Hn.
    pose proof (worker_path (length pre)
                  (failing read_failed_pc "Error reading audio file" (length pre)
                     (tr ++ [EvLog (Worker (length pre)) LogReadFile])) 4) as Hpath.
    destruct Hpath with (sched := sched) (n := 4) (k := 0) (s' := s2)
                        (s := Build_State str ch m0 cl nx inb cc
                                (tr ++ [EvLog (Worker (length pre)) LogReadFile]) hp
                                (pre ++ {| filename := f; wpc := WReadErr SLock;
                                           file := rem |} :: post))
      as (Hpc' & evs & Htr & Hwr); try done; try lia.
    + intros k c s s' Hc HP Hs. by eapply failing_other.
    + intros k s ok' s' Hk HP Hs. by eapply failing_read_step.
    + split.
      * cbn [workers]. by rewrite lookup_middle.
      * exists []. by rewrite app_nil_r.
    + split; [done|]. by exists evs.
Qed.

(** X9.  An [os.Open] that fails on a file that [os.Stat] found: the
    worker logs it, tries to send the status "Error opening audio file" and
    returns.  It does not clear [client.streaming]: alone, once the mutex
    is free, the worker is gone after three steps and the flag is as it
    was.  Under every schedule in which the worker takes these steps, the
    status is the only frame it hands to [conn.WriteMessage]. *)
Theorem file_open_failure (s : State) (i : nat) (w : WorkerState) (ok : bool) :
  workers s !! i = Some w →
  wpc w = WOpen →
  ∃ s1,
    step resource {| who := Worker i; sys_ok := false |} s = Some s1
    ∧ trace s1 = trace s ++ [EvLog (Worker i) LogOpen]
    ∧ (mu s = None →
       ∃ s2, run resource (solo (Worker i) ok 3) s1 = Some s2
             ∧ trace s2 = trace s1 ++ send_events (Worker i) "Error opening audio file"
                                        (ok && negb (connClosed s))
             ∧ wpc <$> workers s2 !! i = Some WDone
             ∧ streaming s2 = streaming s)
    ∧ ∀ sched s2,
        run resource sched s1 = Some s2 → worker_steps i sched = 3 →
        wpc <$> workers s2 !! i = Some WDone
        ∧ ∃ evs, trace s2 = trace s1 ++ evs
                 ∧ writes_by (Worker i) evs = [status "Error opening audio file"].
Proof.
  intros Hw Hpc.
  pose proof Hw as Hsplit.
  apply list_elem_of_split_length in Hsplit as (pre & post & Hws & ->).
  destruct s as [str ch m0 cl nx inb cc tr hp ws], w as [f p rem].
  cbn [workers wpc connClosed mu streaming] in *. subst.
  eexists. split.
  { unfold step; cbn [who sys_ok]. unfold worker_step. cbn [workers].
    rewrite lookup_middle. cbn [mbind option_bind wpc filename file connClosed].
    instantiate (1 := Build_State str ch m0 cl nx inb cc
                        (tr ++ [EvLog (Worker (length pre)) LogOpen]) hp
                        (pre ++ {| filename := f; wpc := WOpenErr SLock;
                                   file := rem |} :: post)).
    destruct (resource !! f); st_norm; rewrite insert_middle; reflexivity. }
  cbn [trace]. split_and!.
  - reflexivity.
  - intros ->.
    exists (Build_State str ch None cl nx inb cc
              ((tr ++ [EvLog (Worker (length pre)) LogOpen])
                 ++ send_events (Worker (length pre)) "Error opening audio file"
                      (ok && negb cc)) hp
              (pre ++ {| filename := f; wpc := WDone; file := rem |} :: post)).
    split; [|cbn [trace streaming workers]; by rewrite lookup_middle].
    unfold solo; cbn [replicate].
    destruct ok, cc; do 3 wstep; cbn [run]; unfold send_events; cbn [andb negb app];
      rewrite <- ?app_assoc; reflexivity.
  - intros sched s2 Hrun Hn.
    pose proof (worker_path (length pre)
                  (failing open_failed_pc "Error opening audio file" (length pre)
                     (tr ++ [EvLog (Worker (length pre)) LogOpen])) 3) as Hpath.
    destruct Hpath with (sched := sched) (n := 3) (k := 0) (s' := s2)
                        (s := Build_State str ch m0 cl nx inb cc
                                (tr ++ [EvLog (Worker (length pre)) LogOpen]) hp
                                (pre ++ {| filename := f; wpc := WOpenErr SLock;
                                           file := rem |} :: post))
      as (Hpc' & evs & Htr & Hwr); try done; try lia.
    + intros k c s s' Hc HP Hs. by eapply failing_other.
    + intros k s ok' s' Hk HP Hs. by eapply failing_open_step.
    + split.
      * cbn [workers]. by rewrite lookup_middle.
      * exists []. by rewrite app_nil_r.
    + split; [done|]. by exists evs.
Qed.

End Paths.

(** ** Progress *)

Section Progress.

Variable resource : Resources.

Lemma worker_step_left (i : nat) (ok : bool) (s s' : State) (w : WorkerState) :
  workers s !! i = Some w → worker_step resource i ok s = Some s' →
  ∃ w', workers s' !! i = Some w' ∧ S (steps_left resource w') ≤ steps_left resource w.
Proof.
  intros Hw H. pose proof (lookup_lt_Some _ _ _ Hw) as Hlt.
  unfold steps_left.
  worker_cases H; st_simpl.
  all: eexists; split; [by apply list_lookup_insert_eq|].
  all: cbn [filename wpc file steps_left_at send_left]; rewrite ?Hpc.
  all: cbn [steps_left_at send_left].
  all: try match goal with
         | H : resource !! _ = Some _ |- _ => rewrite H in *; cbn [default] in *
         end.
  all: try match goal with
         | H : file _ = _ |- _ => rewrite H in *
         end.
  all: rewrite ?chunks_cons; cbn [length id].
  all: lia.
Qed.

(** X10.  A transfer worker terminates: whatever the schedule and whatever
    the other goroutines do, a worker takes at most [steps_left] steps,
    which for a worker that was just spawned is [12 + 7 * ceil(N / 8192)]
    with [N] the size of its file. *)
Theorem worker_steps_bounded (sched : list Choice) (s s' : State) (i : nat)
    (w : WorkerState) :
  workers s !! i = Some w →
  run resource sched s = Some s' →
  worker_steps i sched ≤ steps_left resource w
  ∧ (wpc w = WStat →
     steps_left resource w
     = 12 + 7 * ceil_div (length (default [] (resource !! filename w))) bufferSize).
Proof.
  intros Hw Hrun. split.
  - revert s w Hw Hrun. induction sched as [|c sched IH]; intros s w Hw Hrun.
    + cbn. lia.
    + rewrite run_cons in Hrun.
      destruct (step resource c s) as [s1|] eqn:Hs; [|done].
      cbn [mbind option_bind] in Hrun. unfold worker_steps in *.
      destruct (decide (who c = Worker i)) as [Hc|Hc].
      * rewrite filter_cons_True by done. cbn [length].
        unfold step in Hs. rewrite Hc in Hs.
        destruct (worker_step_left i _ s s1 w Hw Hs) as (w' & Hw' & Hlt).
        specialize (IH s1 w' Hw' Hrun). lia.
      * rewrite filter_cons_False by done.
        apply (IH s1 w); [|done].
        by apply (step_other_worker resource c s s1 i w).
  - intros Hpc. unfold steps_left. rewrite Hpc. cbn [steps_left_at].
    unfold chunks. by rewrite chunks_fuel_length.
Qed.

(** ** No goroutine blocks while it holds the mutex *)

Lemma handler_can_step (ok : bool) (s : State) :
  mu s = None → hpc s ≠ HClosed → hpc s ≠ HPanic →
  (hpc s = HRead → inbound s ≠ []) →
  is_Some (handler_step ok s).
Proof.
  intros Hmu Hc Hp Hin. unfold handler_step.
  destruct (hpc s) as [|[]| | | | | | | | | | | | | |[]| |] eqn:Hpc;
    cbn [sendStatusMessage mbind option_bind]; rewrite ?Hmu; try done.
  - destruct (inbound s) as [|[[m|]| |] rest]; [by destruct Hin|..]; try done.
    repeat case_match; done.
  - case_decide; done.
  - case_decide; done.
Qed.

Lemma worker_can_step (i : nat) (ok : bool) (s : State) (w : WorkerState) :
  mu s = None → workers s !! i = Some w → wpc w ≠ WDone →
  is_Some (worker_step resource i ok s).
Proof.
  intros Hmu Hw Hd. unfold worker_step. rewrite Hw. cbn [mbind option_bind].
  destruct (wpc w) as [|[]|[]| |[]| | | |[]| |[]| | | |[]| | |] eqn:Hpc;
    cbn [sendStatusMessage mbind option_bind]; rewrite ?Hmu; try done.
  all: repeat case_match; try done.
Qed.

Lemma holder_can_step (ok : bool) (s : State) (t : Tid) :
  reachable resource s → mu s = Some t →
  is_Some (step resource {| who := t; sys_ok := ok |} s).
Proof.
  intros Hr Hmu.
  destruct (reachable_mutex_inv _ _ Hr) as [Hh _].
  destruct (reachable_chan_inv _ _ Hr) as (_ & _ & Hp & Hst & _).
  apply Hh in Hmu. unfold step. cbn [who sys_ok].
  destruct t as [|i]; cbn [holds] in Hmu.
  - unfold handler_step.
    destruct (hpc s) as [|[]| | | | | | | | | | | | | |[]| |] eqn:Hpc;
      cbn [handler_holds send_holds] in Hmu; try done.
    + rewrite decide_False; [done|]. intros [?|[? ?]]%Hst; congruence.
    + rewrite decide_False; [done|]. intros [?|[? ?]]%Hst; congruence.
  - unfold worker_step. destruct (workers s !! i) as [w|]; [|done].
    cbn [mbind option_bind from_option] in *.
    destruct (wpc w) as [|[]|[]| |[]| | | |[]| |[]| | | |[]| | |];
      cbn [worker_holds send_holds] in Hmu; try done.
    all: cbn [sendStatusMessage mbind option_bind]; repeat case_match; done.
Qed.

(** X11.  The mutex is never held for long: its holder can always take its
    next step, and after at most four steps of its own it has released the
    mutex. *)
Theorem mutex_is_released (s : State) (t : Tid) (ok : bool) :
  reachable resource s →
  mu s = Some t →
  ∃ n, 1 ≤ n ≤ 4 ∧ ∃ s', run resource (solo t ok n) s = Some s' ∧ mu s' = None.
Proof.
  intros Hr Hmu.
  destruct (reachable_mutex_inv _ _ Hr) as [Hh _].
  destruct (reachable_chan_inv _ _ Hr) as (_ & _ & Hp & Hst & _).
  pose proof Hmu as Hheld. apply Hh in Hheld.
  destruct t as [|i]; cbn [holds] in Hheld.
  - assert (hpc s ≠ HStopMake → (∀ f, hpc s ≠ HStartMake f) → stopCh s ∉ closedCh s)
      as Hopen.
    { intros H1 H2 [?|[? ?]]%Hst; [done|]. by eapply H2. }
    clear Hr Hh Hst.
    destruct s as [str ch m0 cl nx inb cc tr hp ws].
    cbn [hpc mu stopCh closedCh] in *. subst m0.
    destruct hp as [|[]| | | | | | | | | | | | | |[]| |];
      cbn [handler_holds send_holds] in Hheld; try done.
    + exists 2. split; [lia|]. unfold solo; cbn [replicate].
      destruct ok, cc; eexists; (split; [do 2 hstep; reflexivity|reflexivity]).
    + exists 1. split; [lia|]. unfold solo; cbn [replicate].
      eexists; (split; [hstep; reflexivity|reflexivity]).
    + specialize (Hopen ltac:(done) ltac:(done)).
      exists 3. split; [lia|]. unfold solo; cbn [replicate].
      eexists; (split; [do 3 hstep; reflexivity|reflexivity]).
    + exists 2. split; [lia|]. unfold solo; cbn [replicate].
      eexists; (split; [do 2 hstep; reflexivity|reflexivity]).
    + exists 1. split; [lia|]. unfold solo; cbn [replicate].
      eexists; (split; [hstep; reflexivity|reflexivity]).
    + specialize (Hopen ltac:(done) ltac:(done)).
      exists 4. split; [lia|]. unfold solo; cbn [replicate].
      eexists; (split; [do 4 hstep; reflexivity|reflexivity]).
    + exists 3. split; [lia|]. unfold solo; cbn [replicate].
      eexists; (split; [do 3 hstep; reflexivity|reflexivity]).
    + exists 2. split; [lia|]. unfold solo; cbn [replicate].
      eexists; (split; [do 2 hstep; reflexivity|reflexivity]).
    + exists 1. split; [lia|]. unfold solo; cbn [replicate].
      eexists; (split; [hstep; reflexivity|reflexivity]).
    + exists 2. split; [lia|]. unfold solo; cbn [replicate].
      destruct ok, cc; eexists; (split; [do 2 hstep; reflexivity|reflexivity]).
    + exists 1. split; [lia|]. unfold solo; cbn [replicate].
      eexists; (split; [hstep; reflexivity|reflexivity]).
  - destruct (workers s !! i) as [w|] eqn:Hw; [|done].
    cbn [from_option] in Hheld. clear Hr Hh Hst Hp.
    apply list_elem_of_split_length in Hw as (pre & post & Hws & ->).
    destruct s as [str ch m0 cl nx inb cc tr hp ws], w as [f p rem].
    cbn [workers wpc mu] in *. subst.
    destruct p as [|[]|[]| |[]| | | |[]| |[]| | | |[]| | |];
      cbn [worker_holds send_holds] in Hheld; try done.
    all: first
      [ exists 1; split; [lia|]; unfold solo; cbn [replicate];
        eexists; (split; [wstep; reflexivity|reflexivity])
      | exists 2; split; [lia|]; unfold solo; cbn [replicate];
        destruct ok, cc; eexists; (split; [do 2 wstep; reflexivity|reflexivity]) ].
Qed.

(** X12.  The connection cannot deadlock: in a state in which no goroutine
    can take a step, the mutex is free, every worker has returned, and the
    receive loop has ended or waits in [conn.ReadMessage] for a frame. *)
Theorem no_deadlock (s : State) :
  reachable resource s →
  final resource s →
  mu s = None
  ∧ (∀ w, w ∈ workers s → wpc w = WDone)
  ∧ (hpc s = HClosed ∨ (hpc s = HRead ∧ inbound s = [])).
Proof.
  intros Hr Hf.
  assert (mu s = None) as Hmu.
  { destruct (mu s) as [t|] eqn:Hmu; [|done].
    destruct (holder_can_step true s t Hr Hmu) as [s' Hs].
    by rewrite Hf in Hs. }
  split_and!; [done| |].
  - intros w [i Hi]%list_elem_of_lookup_1.
    assert (wpc w = WDone ∨ wpc w ≠ WDone) as [|Hd]; [|done|].
    { destruct (wpc w); first [by left|by right]. }
    destruct (worker_can_step i true s w Hmu Hi Hd) as [s' Hs].
    specialize (Hf {| who := Worker i; sys_ok := true |}).
    unfold step in Hf. cbn [who sys_ok] in Hf. by rewrite Hf in Hs.
  - destruct (reachable_chan_inv _ _ Hr) as (_ & _ & Hp & _).
    assert (hpc s = HClosed ∨ hpc s ≠ HClosed) as [|Hc]; [|by left|].
    { destruct (hpc s); first [by left|by right]. }
    right.
    assert (¬ is_Some (handler_step true s)) as Hn.
    { specialize (Hf {| who := Handler; sys_ok := true |}).
      unfold step in Hf. cbn [who sys_ok] in Hf. rewrite Hf. by intros [? ?]. }
    assert (hpc s = HRead) as Hpc.
    { assert (hpc s = HRead ∨ hpc s ≠ HRead) as [|Hne]; [|done|].
      { destruct (hpc s); first [by left|by right]. }
      destruct Hn. by apply handler_can_step. }
    split; [done|].
    destruct (inbound s) as [|m rest] eqn:Hin; [done|].
    destruct Hn. apply handler_can_step; try done. by rewrite Hin.
Qed.

End Progress.

(** ** Start messages, workers and cancellation *)

Section Order.

Variable resource : Resources.

Lemma run_induction (frames : list Inbound) (P : State → Prop) :
  P (init frames) →
  (∀ c s s', reachable resource s → P s → step resource c s = Some s' → P s') →
  ∀ sched s, run resource sched (init frames) = Some s → P s.
Proof.
  intros Hinit Hstep sched.
  induction sched as [|c sched IH] using rev_ind; intros s Hrun.
  - simpl in Hrun. by simplify_eq.
  - rewrite run_app in Hrun.
    destruct (run resource sched (init frames)) as [s0|] eqn:E; [|done].
    simpl in Hrun. destruct (step resource c s0) as [s1|] eqn:E1; [|done].
    simpl in Hrun. simplify_eq.
    eapply (Hstep c s0); [by exists frames, sched|by apply IH|done].
Qed.

Lemma worker_step_names (i : nat) (ok : bool) (s s' : State) :
  worker_step resource i ok s = Some s' →
  filename <$> workers s' = filename <$> workers s.
Proof.
  intros H. destruct (workers s !! i) as [w|] eqn:Hw.
  - destruct (worker_step_own resource i ok s s' w Hw H) as (w' & _ & -> & Hf & _).
    rewrite list_fmap_insert, Hf. apply list_insert_id.
    by rewrite list_lookup_fmap, Hw.
  - unfold worker_step in H. by rewrite Hw in H.
Qed.

(** X13.  The workers of a connection are the start messages it has read,
    in order: the receive loop spawns one worker for every start message
    with a file name, for this file, and none otherwise.  Once the loop
    waits for a frame with none left, there is a worker for every such
    message. *)
Theorem workers_follow_starts (frames : list Inbound) (sched : list Choice)
    (s : State) :
  run resource sched (init frames) = Some s →
  (∃ consumed,
     frames = consumed ++ inbound s
     ∧ omap accepted consumed = (filename <$> workers s) ++ pending (hpc s))
  ∧ (filename <$> workers s) `prefix_of` omap accepted frames
  ∧ (hpc s = HRead → inbound s = [] → filename <$> workers s = omap accepted frames).
Proof.
  intros Hrun.
  assert (∃ consumed,
            frames = consumed ++ inbound s
            ∧ omap accepted consumed = (filename <$> workers s) ++ pending (hpc s))
    as (consumed & Hfr & Hacc).
  { revert sched s Hrun. apply run_induction.
    - exists []. done.
    - intros c s s' Hr (consumed & Hfr & Hacc) Hs.
      destruct (reachable_chan_inv _ _ Hr) as (_ & _ & _ & Hst & _).
      unfold step in Hs. destruct c as [[|i] ok]; cbn [who sys_ok] in Hs.
      + handler_cases Hs; st_simpl; cbn [pending] in *.
        all: try (exfalso;
                  match goal with
                  | e : stopCh _ ∈ closedCh _ |- _ =>
                      destruct (Hst e) as [?|[? ?]]; congruence
                  end).
        all: try (exists consumed; split; [done|]; rewrite ?app_nil_r in *;
                  rewrite ?fmap_app, <- ?app_assoc; done).
        all: rewrite ?Hpc in *; cbn [pending] in *.
        all: match goal with
             | |- ∃ c0, ?c ++ ?m :: ?l = c0 ++ ?l ∧ _ =>
                 exists (c ++ [m]); split; [by rewrite <- app_assoc|];
                 rewrite omap_app, Hacc; cbn [omap list_omap accepted]
             end.
        all: repeat match goal with
                    | H : String.eqb _ _ = _ |- _ => rewrite H
                    end.
        all: cbn [andb negb]; rewrite ?app_nil_r; done.
      + destruct (worker_step_frame resource _ _ _ _ Hs) as (-> & -> & _).
        rewrite (worker_step_names _ _ _ _ Hs). by exists consumed. }
  split; [by exists consumed|]. split.
  - rewrite Hfr, omap_app, Hacc, <- app_assoc. by apply prefix_app_r.
  - intros Hpc Hin. rewrite Hfr, Hin, app_nil_r, Hacc, Hpc. cbn. by rewrite app_nil_r.
Qed.

Lemma window_closed (s : State) :
  reachable resource s →
  between_close_and_make (hpc s) = true → stopCh s ∈ closedCh s.
Proof.
  revert s. apply (reachable_induction resource
                     (λ s, between_close_and_make (hpc s) = true
                           → stopCh s ∈ closedCh s)).
  - intros frames. done.
  - intros c s s' _ IH Hs. unfold step in Hs.
    destruct c as [[|i] ok]; cbn [who sys_ok] in Hs.
    + handler_cases Hs; st_simpl; try done.
      all: rewrite ?Hpc; try done.
      all: intros _; set_solver.
    + destruct (worker_step_frame resource _ _ _ _ Hs) as (-> & _ & -> & -> & _).
      done.
Qed.

End Order.

(** ** The select of a worker *)

Section Window.

Variable resource : Resources.

Lemma step_closed_mono (c : Choice) (s s' : State) :
  step resource c s = Some s' → closedCh s ⊆ closedCh s'.
Proof.
  unfold step. destruct c as [[|j] ok]; cbn [who sys_ok]; intros H.
  - handler_cases H; st_simpl; set_solver.
  - by destruct (worker_step_frame resource _ _ _ _ H) as (_ & _ & _ & -> & _).
Qed.

Lemma run_closed_mono (sched : list Choice) (s s' : State) :
  run resource sched s = Some s' → closedCh s ⊆ closedCh s'.
Proof.
  revert s. induction sched as [|c sched IH]; intros s Hrun.
  - cbn in Hrun. by simplify_eq.
  - rewrite run_cons in Hrun.
    destruct (step resource c s) as [s1|] eqn:Hs; [|done].
    cbn [mbind option_bind] in Hrun.
    etrans; [exact (step_closed_mono _ _ _ Hs)|exact (IH _ Hrun)].
Qed.

Lemma step_stopCh_outside (c : Choice) (s s' : State) :
  step resource c s = Some s' →
  between_close_and_make (hpc s) = false → stopCh s' = stopCh s.
Proof.
  unfold step. destruct c as [[|j] ok]; cbn [who sys_ok]; intros H Hb.
  - handler_cases H; st_simpl; try done.
  - by destruct (worker_step_frame resource _ _ _ _ H) as (_ & _ & -> & _).
Qed.

(** The channel that is [client.stopCh] in [s] is closed at the end of a
    schedule exactly if the schedule passes a state between the close and
    the assignment. *)
Lemma closed_by_window (sched : list Choice) (s s' : State) :
  reachable resource s →
  run resource sched s = Some s' →
  stopCh s ∈ closedCh s' ↔ window_along resource sched s = true.
Proof.
  revert s. induction sched as [|c sched IH]; intros s Hr Hrun.
  - cbn in Hrun. simplify_eq. cbn [window_along]. rewrite orb_false_r.
    split; [|by apply (window_closed resource)].
    destruct (reachable_chan_inv _ _ Hr) as (_ & _ & _ & Hst & _).
    intros [->|[f ->]]%Hst; done.
  - rewrite run_cons in Hrun. cbn [window_along].
    destruct (step resource c s) as [s1|] eqn:Hs; [|done].
    cbn [mbind option_bind] in Hrun.
    destruct (between_close_and_make (hpc s)) eqn:Hb; cbn [orb].
    + split; [done|]. intros _.
      apply (proj1 (elem_of_subseteq _ _) (run_closed_mono _ _ _ Hrun)).
      apply (proj1 (elem_of_subseteq _ _) (step_closed_mono _ _ _ Hs)).
      by apply (window_closed resource).
    + rewrite <- (step_stopCh_outside _ _ _ Hs Hb).
      apply IH; [|done]. by eapply reachable_step.
Qed.

Lemma run_other_worker (sched : list Choice) (s s' : State) (i : nat)
    (w : WorkerState) :
  Forall (λ c, who c ≠ Worker i) sched →
  run resource sched s = Some s' →
  workers s !! i = Some w → workers s' !! i = Some w.
Proof.
  revert s. induction sched as [|c sched IH]; intros s Hall Hrun Hw.
  - cbn in Hrun. by simplify_eq.
  - rewrite run_cons in Hrun.
    destruct (step resource c s) as [s1|] eqn:Hs; [|done].
    cbn [mbind option_bind] in Hrun. inversion Hall; subst.
    eapply IH; [done..|]. by eapply step_other_worker.
Qed.

(** X14.  The select of a worker reads [client.stopCh] and then polls the
    channel it has read, and the receive loop and the other workers may
    run between the two.  Whatever they do there, the worker takes the
    stop branch exactly when the receive loop is between
    [close(client.stopCh)] and the assignment of the new channel at some
    moment from the read to the poll: then it logs that it was stopped and
    returns, with no frame and [client.streaming] as it was.  Otherwise
    the channel it polls is open and it goes on to read the file. *)
Theorem cancellation_window (s : State) (i : nat) (w : WorkerState)
    (ok ok' : bool) (sched : list Choice) (s2 : State) :
  reachable resource s →
  workers s !! i = Some w →
  wpc w = WSelect →
  Forall (λ c, who c ≠ Worker i) sched →
  run resource ({| who := Worker i; sys_ok := ok |} :: sched) s = Some s2 →
  ∃ s3,
    step resource {| who := Worker i; sys_ok := ok' |} s2 = Some s3
    ∧ streaming s3 = streaming s2
    ∧ frames_sent (trace s3) = frames_sent (trace s2)
    ∧ if window_along resource ({| who := Worker i; sys_ok := ok |} :: sched) s
      then wpc <$> workers s3 !! i = Some WDone
           ∧ trace s3 = trace s2 ++ [EvLog (Worker i) (LogStopped (filename w))]
      else wpc <$> workers s3 !! i = Some WReadFile ∧ trace s3 = trace s2.
Proof.
  intros Hr Hw Hpc Hall Hrun.
  rewrite run_cons in Hrun. cbn [window_along].
  destruct (step resource _ s) as [s1|] eqn:Hs; [|done].
  cbn [mbind option_bind] in Hrun.
  assert (reachable resource s1) as Hr1 by (by eapply reachable_step).
  pose proof (closed_by_window sched s1 s2 Hr1 Hrun) as Hwin.
  assert (hpc s1 = hpc s ∧ stopCh s1 = stopCh s
          ∧ workers s1 !! i
            = Some {| filename := filename w; wpc := WPoll (stopCh s); file := file w |})
    as (Hh & Hc & Hw1).
  { unfold step in Hs. cbn [who sys_ok] in Hs. unfold worker_step in Hs.
    rewrite Hw in Hs. cbn [mbind option_bind] in Hs. rewrite Hpc in Hs.
    simplify_eq. st_simpl. split_and!; [done..|].
    apply list_lookup_insert_eq. by eapply lookup_lt_Some. }
  pose proof (run_other_worker sched s1 s2 i _ Hall Hrun Hw1) as Hw2.
  assert (between_close_and_make (hpc s) || window_along resource sched s1
          = window_along resource sched s1) as ->.
  { rewrite <- Hh.
    by destruct sched; cbn [window_along];
      destruct (between_close_and_make (hpc s1)). }
  rewrite Hc in Hwin.
  unfold step. cbn [who sys_ok]. unfold worker_step. rewrite Hw2.
  cbn [mbind option_bind wpc filename file].
  destruct (window_along resource sched s1).
  - rewrite decide_True by (by apply Hwin).
    eexists. split; [done|]. st_simpl. split_and!; [done| | |done].
    + rewrite frames_sent_app. apply app_nil_r.
    + by rewrite list_lookup_insert_eq by (by eapply lookup_lt_Some).
  - rewrite decide_False by (intros Hx%Hwin; done).
    eexists. split; [done|]. st_simpl. split_and!; [done|done| |done].
    by rewrite list_lookup_insert_eq by (by eapply lookup_lt_Some).
Qed.

End Window.

(** ** A start message with a file name *)

Section Start.

Variable resource : Resources.

(** The counterpart of [worker_path] for the receive loop, with the steps
    of the workers as they are. *)
Lemma loop_path (P : nat → State → Prop) (bound : nat) :
  (∀ k i ok s s', P k s → worker_step resource i ok s = Some s' → P k s') →
  (∀ k s ok s', k < bound → P k s → handler_step ok s = Some s' → P (S k) s') →
  ∀ sched n k s s',
    P k s → run resource sched s = Some s' → handler_steps sched = n →
    k + n ≤ bound → P (k + n) s'.
Proof.
  intros HW HH sched.
  induction sched as [|[[|i] ok] sched IH]; intros n k s s' HP Hrun Hn Hb.
  - cbn in Hrun, Hn. simplify_eq. by rewrite Nat.add_0_r.
  - rewrite run_cons in Hrun. unfold step in Hrun. cbn [who sys_ok] in Hrun.
    destruct (handler_step ok s) as [s1|] eqn:Hs; [|done].
    cbn [mbind option_bind] in Hrun.
    unfold handler_steps in Hn. rewrite filter_cons_True in Hn by done.
    cbn [length] in Hn. destruct n as [|n]; [done|].
    replace (k + S n) with (S k + n) by lia.
    eapply IH; [eapply HH; [|done..]|done| |]; unfold handler_steps; lia.
  - rewrite run_cons in Hrun. unfold step in Hrun. cbn [who sys_ok] in Hrun.
    destruct (worker_step resource i ok s) as [s1|] eqn:Hs; [|done].
    cbn [mbind option_bind] in Hrun.
    unfold handler_steps in Hn. rewrite filter_cons_False in Hn by done.
    eapply IH; [|done|done|done]. by eapply HW.
Qed.

Lemma starting_worker (s0 : State) (b : bool) (f : string) (k i : nat) (ok : bool)
    (s s' : State) :
  starting s0 b f k s → worker_step resource i ok s = Some s' → starting s0 b f k s'.
Proof.
  intros (Hpc & Hin & Hws & Hcl & Hch & Hnx & evs & Htr & Hwr) Hs.
  pose proof (worker_step_names resource _ _ _ _ Hs) as Hn.
  destruct (worker_step_moved resource _ _ _ _ Hs)
    as (H1 & H2 & H3 & H4 & H5 & _ & _ & _ & evs' & H6 & Hwr').
  unfold starting. rewrite H1, H2, H3, H4, H5, H6, Hn. split_and!; try done.
  exists (evs ++ evs'). rewrite Htr, <- app_assoc, writes_by_app, Hwr, Hwr'. done.
Qed.

Lemma starting_handler (s0 : State) (b : bool) (f : string) (k : nat) (s : State)
    (ok : bool) (s' : State) :
  stopCh s0 ∉ closedCh s0 →
  k < start_steps b → starting s0 b f k s → handler_step ok s = Some s' →
  starting s0 b f (S k) s'.
Proof.
  intros Hopen Hk (Hpc & Hin & Hws & Hcl & Hch & Hnx & evs & Htr & Hwr) H.
  unfold handler_step in H. rewrite Hpc in H.
  destruct b; cbn [start_steps] in Hk.
  - assert (k = 0 ∨ k = 1 ∨ k = 2 ∨ k = 3 ∨ k = 4 ∨ k = 5) as Hk' by lia.
    clear Hk. destruct_or! Hk'; subst k.
    all: cbn [start_pc] in H; cases_in H.
    all: try (exfalso; rewrite Hch, Hcl in *; cbn in *; done).
    all: unfold starting; st_simpl; cbn [start_pc start_steps andb] in *.
    all: repeat (rewrite decide_True in * by lia).
    all: repeat (rewrite decide_False in * by lia).
    all: repeat (rewrite bool_decide_eq_true_2 in * by lia).
    all: repeat (rewrite bool_decide_eq_false_2 in * by lia).
    all: rewrite ?app_nil_r in *; rewrite ?fmap_app.
    all: split_and!; try done; try congruence.
    all: try (rewrite Hws; done).
    all: first [ exists evs; split; [done|done]
               | eexists; split; [rewrite Htr, <- ?app_assoc; reflexivity|] ].
    all: rewrite ?writes_by_app, Hwr; reflexivity.
  - assert (k = 0 ∨ k = 1) as Hk' by lia.
    clear Hk. destruct_or! Hk'; subst k.
    all: cbn [start_pc] in H; cases_in H.
    all: unfold starting; st_simpl; cbn [start_pc start_steps andb] in *.
    all: repeat (rewrite decide_True in * by lia).
    all: repeat (rewrite decide_False in * by lia).
    all: rewrite ?app_nil_r in *; rewrite ?fmap_app.
    all: split_and!; try done; try congruence.
    all: try (rewrite Hws; done).
    all: exists evs; split; [done|done].
Qed.

(** X21.  A start message with a file name.  The receive loop tests
    [client.streaming]; if it finds it true it closes [client.stopCh] and
    stores a new, open channel in its place, and if not it leaves the
    channels alone.  Either way, under every schedule in which it then
    takes its steps up to the next [conn.ReadMessage], the workers running
    in between as they may, it hands nothing to [conn.WriteMessage] itself
    and spawns exactly one worker, for this file name, behind the workers
    there were.  Alone, it leaves [client.streaming] true. *)
Theorem start_with_filename (s : State) (m : Message) (rest : list Inbound)
    (ok : bool) :
  reachable resource s →
  hpc s = HRead →
  inbound s = InText (Some m) :: rest →
  Action m = "start" →
  Filename m ≠ "" →
  (mu s = None →
   ∃ s', run resource (solo Handler ok (2 + start_steps (streaming s))) s = Some s'
         ∧ streaming s' = true
         ∧ workers s'
           = workers s ++ [{| filename := Filename m; wpc := WStat; file := [] |}])
  ∧ ∀ sched s',
      run resource (solo Handler ok 2 ++ sched) s = Some s' →
      handler_steps sched = start_steps (streaming s) →
      hpc s' = HRead ∧ inbound s' = rest
      ∧ filename <$> workers s' = (filename <$> workers s) ++ [Filename m]
      ∧ (∃ evs, trace s' = trace s ++ evs ∧ writes_by Handler evs = [])
      ∧ if streaming s
        then closedCh s' = {[stopCh s]} ∪ closedCh s
             ∧ stopCh s' = nextCh s ∧ stopCh s' ∉ closedCh s'
        else closedCh s' = closedCh s ∧ stopCh s' = stopCh s.
Proof.
  intros Hr Hpc Hin Hact Hfn.
  destruct (reachable_chan_inv _ _ Hr) as (Hlt & Hcl & Hp & Hst & Hcc).
  assert (stopCh s ∉ closedCh s) as Hopen.
  { intros [?|[? ?]]%Hst; congruence. }
  assert (connClosed s = false) as Hconn.
  { destruct (connClosed s); [|done]. rewrite Hcc in Hpc; done. }
  split.
  - intros Hmu. clear Hr Hlt Hcl Hp Hst Hcc.
    destruct s as [str ch m0 cl nx inb cc tr hp ws].
    cbn [hpc inbound streaming mu stopCh closedCh nextCh connClosed trace workers] in *.
    subst. eexists. split.
    { replace (2 + start_steps str) with (if str then 8 else 4) by (by destruct str).
      by apply handler_start. }
    done.
  - intros sched s' Hrun Hn.
    set (b := streaming s) in *.
    set (f := Filename m).
    set (s0 := set_inbound rest s).
    assert (run resource (solo Handler ok 2) s = Some (set_hpc (start_pc b f 0) s0))
      as Hfirst.
    { subst b f s0. clear Hr Hrun Hn. apply String.eqb_neq in Hfn.
      destruct s as [str ch m0 cl nx inb cc tr hp ws], m as [act fn].
      cbn [hpc inbound Action Filename streaming] in *. subst.
      unfold solo; cbn [replicate]. do 2 hstep. by destruct str. }
    rewrite run_app, Hfirst in Hrun. cbn [mbind option_bind] in Hrun.
    destruct (loop_path (starting s0 b f) (start_steps b)) with
      (sched := sched) (n := start_steps b) (k := 0)
      (s := set_hpc (start_pc b f 0) s0) (s' := s')
      as (Hpc' & Hin' & Hws & Hcl' & Hch' & Hnx' & evs & Htr & Hwr);
      try done; try lia.
    + intros k i ok' s1 s2 Hs1 Hs. by eapply starting_worker.
    + intros k s1 ok1 s2 Hk Hs1 Hstep. by eapply starting_handler.
    + unfold starting. subst s0. st_simpl.
      rewrite decide_False by (destruct b; cbn; lia).
      rewrite !andb_false_r, app_nil_r. split_and!; try done.
      exists []. by rewrite app_nil_r.
    + subst s0. st_simpl. cbn [Nat.add] in *.
      rewrite decide_True in Hws by done.
      split_and!; try done.
      * by destruct b.
      * by exists evs.
      * destruct b; cbn [start_steps andb] in *.
        -- rewrite !bool_decide_eq_true_2 in * by lia.
           split_and!; try done. rewrite Hch', Hcl'.
           intros [Hx%elem_of_singleton|Hx%Hcl]%elem_of_union; lia.
        -- done.
Qed.

End Start.

(** * The list of audio files *)

Lemma list_ascii_of_string_app (a b : string) :
  String.list_ascii_of_string (a +:+ b) = String.list_ascii_of_string a ++ String.list_ascii_of_string b.
Proof.
  induction a as [|c a IH]; [done|].
  simpl. by f_equal.
Qed.

Lemma Ext_loop_skip (l : list Ascii.ascii) (n k : nat) :
  (∀ j, n ≤ j < n + k → ∃ c, l !! j = Some c ∧ c ≠ "/"%char ∧ c ≠ "."%char) →
  Ext_loop l (n + k) = Ext_loop l n.
Proof.
  induction k as [|k IH]; intros H; [by rewrite Nat.add_0_r|].
  replace (n + S k) with (S (n + k)) by lia. cbn [Ext_loop].
  destruct (H (n + k)) as (c & -> & H1 & H2); [lia|].
  apply Ascii.eqb_neq in H1, H2. rewrite H1, H2.
  apply IH. intros j Hj. apply H. lia.
Qed.

Lemma Ext_loop_suffix (l : list Ascii.ascii) (i : nat) (e : list Ascii.ascii) :
  Ext_loop l i = e → e ≠ [] → ∃ j, j < i ∧ e = drop j l.
Proof.
  induction i as [|i IH]; cbn [Ext_loop]; intros He Hne; [by subst|].
  destruct (l !! i) as [c|]; [|by subst].
  destruct (Ascii.eqb c "/"%char); [by subst|].
  destruct (Ascii.eqb c "."%char).
  - exists i. split; [lia|done].
  - destruct (IH He Hne) as (j & Hj & ->). exists j. split; [lia|done].
Qed.

(** [filepath.Ext] returns ".mp3" on the names that end in ".mp3" and on
    no other; the same for ".wav". *)
Lemma Ext_is (name : string) (a b c : Ascii.ascii) :
  let ext := String "."%char (String a (String b (String c ""))) in
  a ≠ "/"%char → a ≠ "."%char → b ≠ "/"%char → b ≠ "."%char →
  c ≠ "/"%char → c ≠ "."%char →
  Ext name = ext ↔ ∃ stem, name = stem +:+ ext.
Proof.
  intros ext Ha1 Ha2 Hb1 Hb2 Hc1 Hc2. unfold Ext. split.
  - intros He.
    apply (f_equal String.list_ascii_of_string) in He.
    rewrite String.list_ascii_of_string_of_list_ascii in He.
    apply Ext_loop_suffix in He as (j & Hj & He); [|done].
    exists (String.string_of_list_ascii (take j (String.list_ascii_of_string name))).
    rewrite <- (String.string_of_list_ascii_of_string name) at 1.
    rewrite <- (String.string_of_list_ascii_of_string ext), He.
    rewrite <- (take_drop j (String.list_ascii_of_string name)) at 1.
    generalize (take j (String.list_ascii_of_string name)) (drop j (String.list_ascii_of_string name)).
    intros x y. induction x as [|h x IH]; [done|]. cbn. by rewrite IH.
  - intros [stem ->]. rewrite list_ascii_of_string_app.
    set (s := String.list_ascii_of_string stem).
    rewrite length_app. cbn [String.list_ascii_of_string ext length].
    replace (length s + 4) with (S (length s) + 3) by lia.
    rewrite Ext_loop_skip.
    + cbn [Ext_loop]. rewrite lookup_app_r, Nat.sub_diag by lia. cbn.
      rewrite drop_app_length. done.
    + intros j Hj.
      assert (j = length s + 1 ∨ j = length s + 2 ∨ j = length s + 3) as Hj' by lia.
      destruct_or! Hj'; subst j; rewrite lookup_app_r by lia.
      * replace (length s + 1 - length s) with 1 by lia. by eexists.
      * replace (length s + 2 - length s) with 2 by lia. by eexists.
      * replace (length s + 3 - length s) with 3 by lia. by eexists.
Qed.

Lemma isAudio_spec (file : DirEntry) :
  isAudio file = true
  ↔ IsDir file = false
    ∧ ∃ stem, Name file = stem +:+ ".mp3" ∨ Name file = stem +:+ ".wav".
Proof.
  unfold isAudio.
  rewrite andb_true_iff, negb_true_iff, orb_true_iff, !String.eqb_eq.
  rewrite (Ext_is (Name file) "m"%char "p"%char "3"%char),
    (Ext_is (Name file) "w"%char "a"%char "v"%char) by done.
  split.
  - intros [Hd [[stem H]|[stem H]]]; (split; [done|]); exists stem; auto.
  - intros [Hd (stem & [H|H])]; (split; [done|]); [left|right]; by exists stem.
Qed.

Lemma audioFiles_fold (files : list DirEntry) (acc : Slice) :
  foldl (λ audioFiles file,
           if isAudio file then append audioFiles (Name file) else audioFiles)
    acc files
  = match Name <$> filter (λ f, isAudio f = true) files with
    | [] => acc
    | l => Some (default [] acc ++ l)
    end.
Proof.
  revert acc. induction files as [|f files IH]; intros acc; [done|].
  cbn [foldl]. rewrite IH, filter_cons.
  destruct (isAudio f) eqn:Hf.
  - rewrite decide_True by done. cbn [fmap list_fmap].
    unfold append. cbn [default].
    destruct (Name <$> filter _ files) as [|x l]; [done|].
    unfold id. by rewrite <- app_assoc.
  - rewrite decide_False by done. done.
Qed.

(** X15.  The list of /audios holds the names of the directory entries
    that are not directories and whose name ends in ".mp3" or in ".wav",
    compared as written, in the order of the directory; a failure to read
    the directory is answered by status 500 and a plain text. *)
Theorem audios_lists_audio_files (dir : option (list DirEntry)) :
  match dir with
  | None => Code (audios dir) = 500 ∧ ∃ text, Content (audios dir) = BodyText text
  | Some files =>
      let names := Name <$> filter (λ f, isAudio f = true) files in
      Code (audios dir) = 200
      ∧ ContentType (audios dir) = "application/json"
      ∧ Content (audios dir) = BodyJSON (if names is [] then JNull else JArray names)
      ∧ ∀ name, name ∈ names ↔
          ∃ file, file ∈ files ∧ Name file = name ∧ IsDir file = false
                  ∧ ∃ stem, name = stem +:+ ".mp3" ∨ name = stem +:+ ".wav"
  end.
Proof.
  destruct dir as [files|]; [|by eauto].
  cbn [audios Code ContentType Content]. rewrite audioFiles_fold.
  split_and!; [done|done| |].
  - by destruct (Name <$> filter _ files).
  - intros name. rewrite list_elem_of_fmap. split.
    + intros (file & -> & [Ha Hin]%list_elem_of_filter).
      apply isAudio_spec in Ha as [Hd Hs]. by exists file.
    + intros (file & Hin & <- & Hd & Hs). exists file. split; [done|].
      apply list_elem_of_filter. split; [|done]. by apply isAudio_spec.
Qed.

(** X16.  When the directory holds no audio file, the body of the answer
    is the JSON value [null], not an empty array: the slice is still nil
    when it is encoded.  An array in the answer is never empty. *)
Theorem no_audio_is_null (files : list DirEntry) :
  (Content (audios (Some files)) = BodyJSON JNull
   ↔ ∀ file, file ∈ files → isAudio file = false)
  ∧ Content (audios (Some files)) ≠ BodyJSON (JArray []).
Proof.
  cbn [audios Content]. rewrite audioFiles_fold.
  destruct (filter _ files) as [|f l] eqn:Hf; cbn [fmap list_fmap default app Encode].
  - split; [|done]. split; [|done]. intros _ file Hin.
    destruct (isAudio file) eqn:Ha; [|done].
    assert (file ∈ filter (λ f, isAudio f = true) files) as Hx
      by (by apply list_elem_of_filter).
    rewrite Hf in Hx. by apply not_elem_of_nil in Hx.
  - split; [|done]. split; [done|]. intros Hall.
    assert (f ∈ filter (λ f, isAudio f = true) files) as [Ha Hin]%list_elem_of_filter
      by (rewrite Hf; left).
    by rewrite (Hall f Hin) in Ha.
Qed.

(** * backend/main.go *)

Section BackendTransfer.

Import Backend.

#[local] Opaque Backend.bufferSize.

Lemma backend_bufferSize_pos : 0 < Backend.bufferSize.
Proof. with_strategy transparent [Backend.bufferSize] (unfold Backend.bufferSize; lia). Qed.

Lemma backend_chunks_concat (fuel : nat) (l : list byte) :
  length l ≤ fuel → concat (Backend.chunks_fuel fuel l) = l.
Proof.
  pose proof backend_bufferSize_pos as Hpos.
  revert l. induction fuel as [|fuel IH]; intros l Hl.
  - destruct l; [done|simpl in Hl; lia].
  - destruct l as [|b l]; [done|]. cbn [Backend.chunks_fuel concat].
    rewrite IH; [apply take_drop|].
    rewrite length_drop. simpl in *. lia.
Qed.

Lemma backend_chunks_length (fuel : nat) (l : list byte) :
  length l ≤ fuel →
  length (Backend.chunks_fuel fuel l) = ceil_div (length l) Backend.bufferSize.
Proof.
  pose proof backend_bufferSize_pos as Hpos.
  revert l. induction fuel as [|fuel IH]; intros l Hl.
  - destruct l; [|simpl in Hl; lia]. cbn [Backend.chunks_fuel length]. unfold ceil_div.
    symmetry. apply Nat.div_small. lia.
  - destruct l as [|b l].
    + cbn [Backend.chunks_fuel length]. unfold ceil_div. symmetry.
      apply Nat.div_small. lia.
    + cbn [Backend.chunks_fuel].
      rewrite (length_cons (take Backend.bufferSize (b :: l))), IH.
      * rewrite length_drop. symmetry. apply ceil_div_step; [done|simpl; lia].
      * rewrite length_drop. simpl in *. lia.
Qed.

Lemma backend_chunks_fuel_enough (f1 f2 : nat) (l : list byte) :
  length l ≤ f1 → length l ≤ f2 →
  Backend.chunks_fuel f1 l = Backend.chunks_fuel f2 l.
Proof.
  pose proof backend_bufferSize_pos as Hpos.
  revert f2 l. induction f1 as [|f1 IH]; intros f2 l H1 H2.
  - destruct l; [|simpl in H1; lia]. by destruct f2.
  - destruct l as [|x l]; [by destruct f2|].
    destruct f2 as [|f2]; [simpl in H2; lia|].
    cbn [Backend.chunks_fuel]. f_equal.
    apply IH; rewrite length_drop; simpl in *; lia.
Qed.

Lemma delivered_chunks (cs : list (list byte)) :
  delivered ((λ c, EvWrite (BinaryMessage c) true) <$> cs) = cs.
Proof. induction cs as [|c cs IH]; [done|]. cbn. f_equal. exact IH. Qed.

Lemma texts_chunks (cs : list (list byte)) :
  texts ((λ c, EvWrite (BinaryMessage c) true) <$> cs) = [].
Proof. induction cs as [|c cs IH]; [done|]. cbn. exact IH. Qed.

Lemma delivered_cons (c : list byte) (tr : list Event) :
  delivered (EvWrite (BinaryMessage c) true :: tr) = c :: delivered tr.
Proof. reflexivity. Qed.

Lemma texts_cons (c : list byte) (ok : bool) (tr : list Event) :
  texts (EvWrite (BinaryMessage c) ok :: tr) = texts tr.
Proof. reflexivity. Qed.

Lemma sendLoop_ok (env : Env) (fuel : nat) :
  (∀ k, read_ok env k = true) → (∀ k, write_ok env k = true) →
  ∀ k rem,
    length rem < fuel →
    sendLoop env fuel k rem
    = (λ c, EvWrite (BinaryMessage c) true) <$> Backend.chunks_fuel (length rem) rem.
Proof.
  pose proof backend_bufferSize_pos as Hpos.
  intros Hr Hw. induction fuel as [|fuel IH]; intros k rem Hlen; [lia|].
  cbn [sendLoop]. rewrite Hr. destruct rem as [|b rem]; [done|].
  rewrite Hw. cbn [length Backend.chunks_fuel fmap list_fmap]. f_equal.
  rewrite IH by (rewrite length_drop; simpl in *; lia).
  f_equal.
  apply backend_chunks_fuel_enough; rewrite ?length_drop; simpl; lia.
Qed.

(** X17.  A request for a file of static/audio, with every system call
    succeeding: the server sends the file in binary frames of 4096 bytes,
    the last one shorter, [ceil(N / 4096)] frames whose concatenation is
    the file, and then closes the connection.  It sends no text frame:
    the end of the file is signalled by the close alone. *)
Theorem backend_stream_complete (env : Env) (fileName : string) (content : list byte) :
  upgrade_ok env = true →
  message env = Some fileName →
  audio env !! fileName = Some content →
  open_ok env = true →
  (∀ k, read_ok env k = true) →
  (∀ k, write_ok env k = true) →
  streamAudio env
  = ((λ c, EvWrite (BinaryMessage c) true) <$> Backend.chunks content) ++ [EvClose]
  ∧ delivered (streamAudio env) = Backend.chunks content
  ∧ texts (streamAudio env) = []
  ∧ concat (Backend.chunks content) = content
  ∧ length (Backend.chunks content) = ceil_div (length content) Backend.bufferSize
  ∧ Backend.bufferSize = 4096.
Proof.
  intros Hup Hmsg Hfile Hopen Hr Hw.
  assert (streamAudio env
          = ((λ c, EvWrite (BinaryMessage c) true) <$> Backend.chunks content)
              ++ [EvClose]) as Hrun.
  { unfold streamAudio. rewrite Hup, Hmsg, Hfile, Hopen.
    rewrite (sendLoop_ok env (S (length content)) Hr Hw 0 content) by lia. done. }
  split; [done|]. rewrite Hrun. split_and!.
  - unfold delivered. rewrite omap_app. cbn [omap]. rewrite app_nil_r.
    apply delivered_chunks.
  - unfold texts. rewrite omap_app. cbn [omap]. rewrite app_nil_r.
    apply texts_chunks.
  - by apply backend_chunks_concat.
  - by apply backend_chunks_length.
  - with_strategy transparent [Backend.bufferSize] reflexivity.
Qed.

Lemma sendLoop_shape (env : Env) (fuel : nat) :
  ∀ k rem,
    length rem < fuel →
    ∃ sent,
      sent `prefix_of` Backend.chunks_fuel (length rem) rem
      ∧ delivered (sendLoop env fuel k rem) = sent
      ∧ (texts (sendLoop env fuel k rem) = []
         ∨ (texts (sendLoop env fuel k rem) = ["Error reading file"]
            ∧ ∃ ok, sendLoop env fuel k rem
                    = ((λ c, EvWrite (BinaryMessage c) true) <$> sent)
                        ++ [EvWrite (TextMessage "Error reading file") ok])).
Proof.
  pose proof backend_bufferSize_pos as Hpos.
  induction fuel as [|fuel IH]; intros k rem Hlen; [lia|].
  cbn [sendLoop]. destruct (read_ok env k).
  - destruct rem as [|b rem].
    + exists []. split_and!; [done|done|by left].
    + destruct (write_ok env k).
      * destruct (IH (S k) (drop Backend.bufferSize (b :: rem)))
          as (sent & Hpre & Hd & Ht); [rewrite length_drop; simpl in *; lia|].
        exists (take Backend.bufferSize (b :: rem) :: sent). split_and!.
        -- cbn [length Backend.chunks_fuel]. apply prefix_cons.
           destruct Hpre as [rest Hrest]. exists rest. rewrite <- Hrest.
           apply backend_chunks_fuel_enough; rewrite ?length_drop; simpl; lia.
        -- by rewrite delivered_cons, Hd.
        -- rewrite texts_cons.
           destruct Ht as [Ht|[Ht [ok Hshape]]]; [by left|right].
           split; [done|]. exists ok. by rewrite Hshape.
      * exists []. split_and!; [apply prefix_nil|done|by left].
  - exists []. split_and!; [apply prefix_nil|done|].
    right. split; [done|]. by eexists.
Qed.

(** X18.  Whatever the system calls return, the binary frames that the
    client gets are the first chunks of the file it asked for, in order;
    the server sends at most one text frame, an error message, and no
    frame after it; and it closes the connection whenever the upgrade
    succeeded. *)
Theorem backend_stream_prefix (env : Env) :
  let tr := streamAudio env in
  let content := default [] (message env ≫= λ f, audio env !! f) in
  delivered tr `prefix_of` Backend.chunks content
  ∧ concat (delivered tr) `prefix_of` content
  ∧ (texts tr = []
     ∨ ∃ msg ok, texts tr = [msg]
                 ∧ tr = ((λ c, EvWrite (BinaryMessage c) true) <$> delivered tr)
                          ++ [EvWrite (TextMessage msg) ok; EvClose]
                 ∧ msg ∈ ["Error: File not found"; "Error opening file";
                          "Error reading file"])
  ∧ (if upgrade_ok env then last tr = Some EvClose else tr = [EvLog LogUpgrade]).
Proof.
  intros tr content.
  assert (delivered tr `prefix_of` Backend.chunks content
          ∧ (texts tr = []
             ∨ ∃ msg ok, texts tr = [msg]
                 ∧ tr = ((λ c, EvWrite (BinaryMessage c) true) <$> delivered tr)
                          ++ [EvWrite (TextMessage msg) ok; EvClose]
                 ∧ msg ∈ ["Error: File not found"; "Error opening file";
                          "Error reading file"])
          ∧ (if upgrade_ok env then last tr = Some EvClose else tr = [EvLog LogUpgrade]))
    as (Hpre & Htexts & Hclose).
  { subst tr content. unfold streamAudio.
    destruct (upgrade_ok env); [|split_and!; [apply prefix_nil|by left|done]].
    rewrite last_snoc. split_and!; [| |done].
    - destruct (message env) as [f|]; cbn [mbind option_bind]; [|apply prefix_nil].
      destruct (audio env !! f) as [c|]; cbn [default]; [|apply prefix_nil].
      destruct (open_ok env); [|apply prefix_nil].
      destruct (sendLoop_shape env (S (length c)) 0 c) as (sent & Hp & Hd & _); [lia|].
      unfold delivered in *. rewrite omap_app, Hd. cbn [omap]. by rewrite app_nil_r.
    - destruct (message env) as [f|]; [|by left].
      destruct (audio env !! f) as [c|].
      + destruct (open_ok env).
        * destruct (sendLoop_shape env (S (length c)) 0 c)
            as (sent & Hp & Hd & [Ht|[Ht [ok Hs]]]); [lia|..].
          -- left. unfold texts in *. rewrite omap_app, Ht. done.
          -- right. exists "Error reading file", ok.
             unfold texts, delivered in *. rewrite !omap_app, Ht, Hd. cbn [omap app].
             rewrite app_nil_r. split; [done|]. split; [|set_solver].
             rewrite Hs at 1. by rewrite <- app_assoc.
        * right. eexists _, _. split; [done|]. split; [done|]. set_solver.
      + right. eexists _, _. split; [done|]. split; [done|]. set_solver. }
  split_and!; try done.
  destruct Hpre as [rest Hrest].
  rewrite <- (backend_chunks_concat (length content) content) by done.
  fold (Backend.chunks content). rewrite Hrest, concat_app. by apply prefix_app_r.
Qed.

End BackendTransfer.

(** ** The duration in a file name *)

Section DurationProofs.

Import Backend.

Lemma Split_not_nil (s : string) (sep : Ascii.ascii) : Split s sep ≠ [].
Proof.
  induction s as [|c s IH]; cbn [Split]; [done|].
  destruct (Ascii.eqb c sep); [done|]. by destruct (Split s sep).
Qed.

Lemma Split_whole (s : string) (sep : Ascii.ascii) :
  occurs sep s = false → Split s sep = [s].
Proof.
  induction s as [|c s IH]; cbn [Split occurs]; [done|].
  intros [Hc Hs]%orb_false_elim. rewrite Hc, IH by done. done.
Qed.

Lemma Split_app (a b : string) (sep : Ascii.ascii) :
  length (Split (a +:+ String sep b) sep) = length (Split a sep) + length (Split b sep)
  ∧ last (Split (a +:+ String sep b) sep) = last (Split b sep).
Proof.
  induction a as [|c a [IHl IHx]].
  - change ("" +:+ String sep b) with (String sep b).
    cbn [Split]. rewrite Ascii.eqb_refl. cbn [length Nat.add].
    split; [done|]. pose proof (Split_not_nil b sep). by destruct (Split b sep).
  - change (String c a +:+ String sep b) with (String c (a +:+ String sep b)).
    cbn [Split]. destruct (Ascii.eqb c sep).
    + cbn [length]. rewrite IHl. split; [done|].
      rewrite <- IHx. pose proof (Split_not_nil (a +:+ String sep b) sep).
      by destruct (Split (a +:+ String sep b) sep).
    + pose proof (Split_not_nil (a +:+ String sep b) sep) as H1.
      pose proof (Split_not_nil a sep) as H2.
      destruct (Split (a +:+ String sep b) sep) as [|p ps] eqn:E1; [done|].
      destruct (Split a sep) as [|q qs] eqn:E2; [done|].
      cbn [length] in *. split; [done|].
      rewrite <- IHx. destruct ps; [|done].
      cbn [length] in IHl. pose proof (Split_not_nil b sep).
      destruct (Split b sep); [done|]. cbn [length] in IHl. lia.
Qed.

Lemma length_append (a b : string) :
  String.length (a +:+ b) = String.length a + String.length b.
Proof. induction a as [|c a IH]; [done|]. simpl. by rewrite IH. Qed.

Lemma substring_all (b : string) : String.substring 0 (String.length b) b = b.
Proof. induction b as [|c b IH]; [done|]. simpl. by rewrite IH. Qed.

Lemma substring_tail (a b : string) :
  String.substring (String.length a) (String.length b) (a +:+ b) = b.
Proof.
  induction a as [|c a IH]; simpl; [apply substring_all|exact IH].
Qed.

Lemma substring_head (a b : string) :
  String.substring 0 (String.length a) (a +:+ b) = a.
Proof.
  induction a as [|c a IH]; simpl; [by destruct b|]. by rewrite IH.
Qed.

Lemma TrimSuffix_app (a suffix : string) : TrimSuffix (a +:+ suffix) suffix = a.
Proof.
  unfold TrimSuffix, HasSuffix. rewrite length_append.
  replace (String.length a + String.length suffix - String.length suffix)
    with (String.length a) by lia.
  rewrite substring_tail, String.eqb_refl, andb_true_r.
  rewrite (proj2 (Nat.leb_le _ _)) by lia.
  apply substring_head.
Qed.

Lemma occurs_app (c : Ascii.ascii) (a b : string) :
  occurs c (a +:+ b) = occurs c a || occurs c b.
Proof.
  induction a as [|c' a IH]; [done|]. simpl. by rewrite IH, orb_assoc.
Qed.

(** X19.  The duration of a file is read off the part of its name after
    the last hyphen, with the suffix "s.mp3" cut off, whatever comes before
    that hyphen; a name without a hyphen has the duration 0 and is not
    scanned at all, digits or not. *)
Theorem duration_of_last_segment (Sscanf_d : string → option Z) (filename : string) :
  (occurs "-"%char filename = false →
   extractDurationFromFilename Sscanf_d filename = 0%Z)
  ∧ ∀ stem digits,
      filename = stem +:+ "-" +:+ digits +:+ "s.mp3" →
      occurs "-"%char digits = false →
      extractDurationFromFilename Sscanf_d filename = default 0%Z (Sscanf_d digits).
Proof.
  split.
  - intros Hno. unfold extractDurationFromFilename.
    by rewrite Split_whole.
  - intros stem digits -> Hno. unfold extractDurationFromFilename.
    change (stem +:+ "-" +:+ digits +:+ "s.mp3")
      with (stem +:+ String "-"%char (digits +:+ "s.mp3")).
    destruct (Split_app stem (digits +:+ "s.mp3") "-"%char) as [Hl Hx].
    rewrite Hl, Hx, (Split_whole (digits +:+ "s.mp3")) by (by rewrite occurs_app, Hno).
    pose proof (Split_not_nil stem "-"%char).
    rewrite (proj2 (Nat.leb_le _ _))
      by (destruct (Split stem "-"%char); [done|cbn [length]; lia]).
    cbn [last default id]. rewrite TrimSuffix_app.
    by destruct (Sscanf_d digits).
Qed.

End DurationProofs.

(** ** Instances *)

Lemma close_never_panics_witness :
  let s := state_after example_resource [start "b.mp3"; stop] (solo Handler true 7) in
  hpc s = HStopClose ∧ stopCh s ∉ closedCh s.
Proof.
  intros s. split; [vm_compute; reflexivity|].
  destruct (close_never_panics example_resource s) as (_ & Hopen & _).
  - apply reachable_state_after. vm_compute. eexists. reflexivity.
  - apply Hopen. left. vm_compute. reflexivity.
Defined.

Lemma mutex_is_released_witness :
  let s := state_after example_resource [start "b.mp3"]
             (solo Handler true 4 ++ solo (Worker 0) true 2) in
  mu s = Some (Worker 0)
  ∧ ∃ n, 1 ≤ n ≤ 4
         ∧ ∃ s', run example_resource (solo (Worker 0) true n) s = Some s'
                 ∧ mu s' = None.
Proof.
  intros s. split; [vm_compute; reflexivity|].
  apply (mutex_is_released example_resource s (Worker 0) true).
  - apply reachable_state_after. vm_compute. eexists. reflexivity.
  - vm_compute. reflexivity.
Defined.

Lemma no_deadlock_witness :
  let s := state_after example_resource [start "b.mp3"] example_transfer in
  final example_resource s
  ∧ mu s = None
  ∧ (∀ w, w ∈ workers s → wpc w = WDone)
  ∧ (hpc s = HClosed ∨ (hpc s = HRead ∧ inbound s = [])).
Proof.
  intros s.
  assert (final example_resource s) as Hf.
  { intros [[|[|i]] ok]; vm_compute; reflexivity. }
  split; [exact Hf|].
  apply (no_deadlock example_resource s).
  - apply reachable_state_after. vm_compute. eexists. reflexivity.
  - exact Hf.
Defined.

Lemma worker_steps_bounded_witness :
  let s := state_after example_resource [start "b.mp3"] (solo Handler true 4) in
  let w := {| filename := "b.mp3"; wpc := WStat; file := [] |} in
  workers s !! 0 = Some w
  ∧ is_Some (run example_resource (solo (Worker 0) true 19) s)
  ∧ worker_steps 0 (solo (Worker 0) true 19) ≤ steps_left example_resource w
  ∧ steps_left example_resource w = 12 + 7 * ceil_div 1 bufferSize.
Proof.
  intros s w.
  assert (workers s !! 0 = Some w) as Hw by (vm_compute; reflexivity).
  assert (is_Some (run example_resource (solo (Worker 0) true 19) s)) as Hrun.
  { vm_compute. eexists. reflexivity. }
  split; [exact Hw|]. split; [exact Hrun|].
  destruct Hrun as [s' Hrun].
  destruct (worker_steps_bounded example_resource (solo (Worker 0) true 19) s s' 0 w
              Hw Hrun) as [Hle Heq].
  split; [exact Hle|]. exact (Heq eq_refl).
Defined.

Lemma worker_protocol_witness :
  let s := state_after example_resource [start "b.mp3"] example_transfer in
  writes_by (Worker 0) (trace s)
  = [status "Streaming b.mp3"; BinaryMessage [x43]; status "Streaming finished"]
  ∧ worker_writes "b.mp3" (writes_by (Worker 0) (trace s)).
Proof.
  intros s. split; [vm_compute; reflexivity|].
  pose proof (worker_protocol example_resource s 0) as H.
  assert (workers s !! 0 = Some {| filename := "b.mp3"; wpc := WDone; file := [] |})
    as Hw by (vm_compute; reflexivity).
  rewrite Hw in H. apply H.
  apply reachable_state_after. vm_compute. eexists. reflexivity.
Defined.

Lemma delivered_is_prefix_witness :
  let s := state_after example_resource [start "b.mp3"]
             (solo Handler true 4 ++ solo (Worker 0) true 11) in
  chunks_delivered (events_of (Worker 0) (trace s)) = [[x43]]
  ∧ chunks_delivered (events_of (Worker 0) (trace s))
    `prefix_of` chunks (default [] (example_resource !! "b.mp3")).
Proof.
  intros s. split; [vm_compute; reflexivity|].
  destruct (delivered_is_prefix example_resource s 0
              {| filename := "b.mp3"; wpc := WSleep; file := [] |})
    as [Hpre _].
  - apply reachable_state_after. vm_compute. eexists. reflexivity.
  - vm_compute. reflexivity.
  - exact Hpre.
Defined.

Lemma finished_means_delivered_witness :
  let s := state_after example_resource [start "b.mp3"] example_transfer in
  finished_logged (events_of (Worker 0) (trace s)) = true
  ∧ ∃ content,
      example_resource !! "b.mp3" = Some content
      ∧ concat (chunks_delivered (events_of (Worker 0) (trace s))) = content.
Proof.
  intros s.
  assert (finished_logged (events_of (Worker 0) (trace s)) = true) as Hfin
    by (vm_compute; reflexivity).
  split; [exact Hfin|].
  destruct (finished_means_delivered example_resource s 0
              {| filename := "b.mp3"; wpc := WDone; file := [] |})
    as (content & Hc & _ & Hall).
  - apply reachable_state_after. vm_compute. eexists. reflexivity.
  - vm_compute. reflexivity.
  - exact Hfin.
  - exists content. split; [exact Hc|exact Hall].
Defined.

Lemma binary_frame_sizes_witness :
  let s := state_after example_resource [start "b.mp3"] example_transfer in
  trace s !! 5 = Some (EvWrite (Worker 0) (BinaryMessage [x43]) true)
  ∧ 0 < length [x43] ≤ bufferSize.
Proof.
  intros s.
  assert (trace s !! 5 = Some (EvWrite (Worker 0) (BinaryMessage [x43]) true)) as Hin
    by (vm_compute; reflexivity).
  split; [exact Hin|].
  destruct (binary_frame_sizes example_resource s (Worker 0) [x43] true) as [Hsz _].
  - apply reachable_state_after. vm_compute. eexists. reflexivity.
  - exact (list_elem_of_lookup_2 _ _ _ Hin).
  - exact Hsz.
Defined.

Lemma workers_follow_starts_witness :
  let s := state_after example_resource example_frames example_frames_sched in
  filename <$> workers s = ["a.mp3"; "b.mp3"]
  ∧ filename <$> workers s = omap accepted example_frames.
Proof.
  intros s. split; [vm_compute; reflexivity|].
  destruct (workers_follow_starts example_resource example_frames example_frames_sched s)
    as (_ & _ & Hall).
  - vm_compute. reflexivity.
  - apply Hall; vm_compute; reflexivity.
Defined.

Lemma cancellation_window_witness :
  let s := state_after example_resource window_frames window_before in
  hpc s = HStopClose
  ∧ wpc <$> workers s !! 0 = Some WSelect
  ∧ ∃ s2 s3,
      run example_resource ({| who := Worker 0; sys_ok := true |} :: solo Handler true 2) s
      = Some s2
      ∧ step example_resource {| who := Worker 0; sys_ok := true |} s2 = Some s3
      ∧ wpc <$> workers s3 !! 0 = Some WDone
      ∧ trace s3 = trace s2 ++ [EvLog (Worker 0) (LogStopped "b.mp3")].
Proof.
  intros s. split; [vm_compute; reflexivity|]. split; [vm_compute; reflexivity|].
  destruct (run example_resource
              ({| who := Worker 0; sys_ok := true |} :: solo Handler true 2) s)
    as [s2|] eqn:Hrun; [|vm_compute in Hrun; discriminate].
  destruct (cancellation_window example_resource s 0
              {| filename := "b.mp3"; wpc := WSelect; file := [x43] |} true true
              (solo Handler true 2) s2)
    as (s3 & Hs & _ & _ & Hb).
  - apply reachable_state_after. vm_compute. eexists. reflexivity.
  - vm_compute. reflexivity.
  - reflexivity.
  - repeat constructor; discriminate.
  - exact Hrun.
  - assert (window_along example_resource
              ({| who := Worker 0; sys_ok := true |} :: solo Handler true 2) s = true)
      as Hwin by (vm_compute; reflexivity).
    rewrite Hwin in Hb. destruct Hb as [Hpc Htr].
    exists s2, s3. split; [reflexivity|]. split; [exact Hs|]. split; [exact Hpc|exact Htr].
Defined.

Lemma other_frames_are_ignored_witness :
  step example_resource {| who := Handler; sys_ok := true |} (init [InBinary; stop])
  = Some (init [stop]).
Proof.
  destruct (other_frames_are_ignored example_resource (init [InBinary; stop])
              InBinary [stop] true) as [H _].
  - reflexivity.
  - reflexivity.
  - left. reflexivity.
  - exact H.
Defined.

Lemma read_error_ends_session_witness :
  ∃ s1,
    step example_resource {| who := Handler; sys_ok := true |}
      (init [InError; start "b.mp3"]) = Some s1
    ∧ connClosed s1 = true
    ∧ hpc s1 = HClosed ∧ inbound s1 = [start "b.mp3"].
Proof.
  destruct (read_error_ends_session example_resource (init [InError; start "b.mp3"])
              [start "b.mp3"] true) as (s1 & Hstep & _ & Hcc & Hall).
  - reflexivity.
  - reflexivity.
  - destruct (Hall [] s1 eq_refl) as (_ & Hpc & Hin & _).
    exists s1. split; [exact Hstep|]. split; [exact Hcc|]. split; [exact Hpc|exact Hin].
Defined.

Lemma file_read_failure_witness :
  let s := state_after example_resource [start "b.mp3"]
             (solo Handler true 4 ++ solo (Worker 0) true 7) in
  wpc <$> workers s !! 0 = Some WReadFile
  ∧ ∃ s1 s2,
      step example_resource {| who := Worker 0; sys_ok := false |} s = Some s1
      ∧ run example_resource (solo (Worker 0) true 4) s1 = Some s2
      ∧ writes_by (Worker 0) (after s1 s2) = [status "Error reading audio file"]
      ∧ wpc <$> workers s2 !! 0 = Some WDone.
Proof.
  intros s. split; [vm_compute; reflexivity|].
  destruct (file_read_failure example_resource s 0
              {| filename := "b.mp3"; wpc := WReadFile; file := [x43] |} true)
    as (s1 & Hstep & _ & Hsolo & Hall).
  - vm_compute. reflexivity.
  - reflexivity.
  - destruct Hsolo as (s2 & Hrun & _); [vm_compute; reflexivity|].
    destruct (Hall _ s2 Hrun) as (Hpc & evs & Htr & Hwr); [vm_compute; reflexivity|].
    exists s1, s2. split; [exact Hstep|]. split; [exact Hrun|].
    split; [|exact Hpc].
    unfold after. rewrite Htr, drop_app_length. exact Hwr.
Defined.

Lemma file_open_failure_witness :
  let s := state_after example_resource [start "b.mp3"]
             (solo Handler true 4 ++ solo (Worker 0) true 4) in
  wpc <$> workers s !! 0 = Some WOpen
  ∧ streaming s = true
  ∧ ∃ s1 s2,
      step example_resource {| who := Worker 0; sys_ok := false |} s = Some s1
      ∧ run example_resource (solo (Worker 0) true 3) s1 = Some s2
      ∧ wpc <$> workers s2 !! 0 = Some WDone
      ∧ streaming s2 = streaming s.
Proof.
  intros s. split; [vm_compute; reflexivity|]. split; [vm_compute; reflexivity|].
  destruct (file_open_failure example_resource s 0
              {| filename := "b.mp3"; wpc := WOpen; file := [] |} true)
    as (s1 & Hstep & _ & Hsolo & _).
  - vm_compute. reflexivity.
  - reflexivity.
  - destruct Hsolo as (s2 & Hrun & _ & Hpc & Hstr); [vm_compute; reflexivity|].
    exists s1, s2. split; [exact Hstep|]. split; [exact Hrun|].
    split; [exact Hpc|exact Hstr].
Defined.

Lemma backend_stream_complete_witness :
  Backend.streamAudio example_env
  = [Backend.EvWrite (Backend.BinaryMessage [x43]) true; Backend.EvClose]
  ∧ Backend.delivered (Backend.streamAudio example_env) = Backend.chunks [x43].
Proof.
  split; [vm_compute; reflexivity|].
  destruct (backend_stream_complete example_env "b.mp3" [x43]) as (_ & Hd & _).
  - reflexivity.
  - reflexivity.
  - vm_compute. reflexivity.
  - reflexivity.
  - intros k. reflexivity.
  - intros k. reflexivity.
  - exact Hd.
Defined.

Lemma duration_of_last_segment_witness :
  Backend.extractDurationFromFilename example_scan "sample-003s.mp3" = 3%Z
  ∧ Backend.extractDurationFromFilename example_scan "003s.mp3" = 0%Z.
Proof.
  split.
  - destruct (duration_of_last_segment example_scan "sample-003s.mp3") as [_ H].
    rewrite (H "sample" "003"); reflexivity.
  - destruct (duration_of_last_segment example_scan "003s.mp3") as [H _].
    apply H. reflexivity.
Defined.

Lemma delivered_frame_is_slice_witness :
  let s := state_after example_resource [start "a.mp3"]
             (solo Handler true 4 ++ solo (Worker 0) true 19) in
  chunks_delivered (events_of (Worker 0) (trace s)) !! 1 = Some [x42]
  ∧ ∃ content,
      example_resource !! "a.mp3" = Some content
      ∧ [x42] = take bufferSize (drop (1 * bufferSize) content).
Proof.
  intros s.
  assert (chunks_delivered (events_of (Worker 0) (trace s)) !! 1 = Some [x42]) as Hk
    by (vm_compute; reflexivity).
  split; [exact Hk|].
  destruct (delivered_frame_is_slice example_resource s 0
              {| filename := "a.mp3"; wpc := WSelect; file := [] |} 1 [x42])
    as (content & Hc & Hslice & _).
  - apply reachable_state_after. vm_compute. eexists. reflexivity.
  - vm_compute. reflexivity.
  - exact Hk.
  - exists content. split; [exact Hc|exact Hslice].
Defined.

Lemma start_with_filename_witness :
  let s := state_after example_resource [start "a.mp3"; start "b.mp3"]
             (solo Handler true 4) in
  streaming s = true
  ∧ ∃ s', run example_resource (solo Handler true 2 ++ solo Handler true 6) s = Some s'
          ∧ filename <$> workers s' = ["a.mp3"; "b.mp3"]
          ∧ stopCh s ∈ closedCh s'
          ∧ stopCh s' ∉ closedCh s'.
Proof.
  intros s. split; [vm_compute; reflexivity|].
  destruct (start_with_filename example_resource s
              {| Action := "start"; Filename := "b.mp3" |} [] true)
    as [_ Hany].
  - apply reachable_state_after. vm_compute. eexists. reflexivity.
  - vm_compute. reflexivity.
  - vm_compute. reflexivity.
  - reflexivity.
  - discriminate.
  - assert (is_Some (run example_resource
                       (solo Handler true 2 ++ solo Handler true 6) s)) as [s' Hrun].
    { vm_compute. eexists. reflexivity. }
    destruct (Hany _ s' Hrun) as (_ & _ & Hws & _ & Hch).
    { vm_compute. reflexivity. }
    assert (streaming s = true) as Hstr by (vm_compute; reflexivity).
    rewrite Hstr in Hch. destruct Hch as (Hcl & _ & Hopen).
    exists s'. split; [exact Hrun|]. split; [exact Hws|].
    split; [rewrite Hcl; set_solver|exact Hopen].
Defined.
